(** * embeddingdb.js: the tiled incremental query engine of [src/index.js]

    A shallow embedding of [flattenCodebook], [distTopK], [queryDist] and
    [queryToTiledDist], and the properties of the tiling, the progress events
    and the cancellation protocol.

    Conventions of the embedding.
    - Lengths, offsets and indices are [nat]; timestamps ([Date.now()]) are [Z].
    - A JavaScript number is an element of an abstract carrier with the three
      operations the code needs (class [Number]): the value [NaN], the
      conversion [fround] that a store into a [Float32Array] performs, and
      integer literals.
    - The division [/] of JavaScript is the exact division of [Q]; it is only
      ever evaluated with a divisor that the code has already dereferenced as
      a non-zero length.  (IEEE rounding of the quotient does not change
      [Math.floor] or [<] for operands far below 2^53, which buffer lengths
      are.)
    - An array read [a[i]] is a list lookup: [None] stands for [undefined].
      Reading a property of [undefined] throws [TypeError].
    - A run is a function from worlds to outcomes.  The world holds the
      distance array, the trace of what the run did, and how many times the
      clock and the cancellation predicate have been consulted; the host is
      given by what its clock and its predicate answer at each consultation.
      An [await] is sequential: while the run is suspended nothing else
      touches the distance array (it belongs to one query session), and
      [intermediateValueFn] returns.
    - The inner loop takes fuel, since with [chunkSize = 0] it does not
      advance; [run_completes] shows how much fuel is enough. *)

From Stdlib Require Import ZArith QArith Qround String List Lia.
From Stdlib Require Import DecimalString.
From stdpp Require Import base list.

Close Scope Q_scope.
Open Scope nat_scope.

(** ** JavaScript values *)

Class Number (N : Type) := {
  NaN : N;
  fround : N -> N;
  of_Z : Z -> N
}.

Inductive exn : Type :=
| TypeError
| RangeError
| TensorSizeError
| SessionError (msg : string).

Inductive result (A : Type) : Type :=
| Ok (a : A)
| Err (e : exn).
Arguments Ok {A} a.
Arguments Err {A} e.

Definition rbind {A B} (r : result A) (f : A -> result B) : result B :=
  match r with
  | Ok a => f a
  | Err e => Err e
  end.

(** [obj[i]] where the value read is dereferenced next: [undefined] there is
    a [TypeError]. *)
Definition deref {A} (l : list A) (i : nat) : result A :=
  match l !! i with
  | Some a => Ok a
  | None => Err TypeError
  end.

(** [Array.from({length: n}, (e, i) => f i)] for a callback that may throw:
    the indices are visited in increasing order and the first exception
    aborts the construction. *)
Fixpoint from_length {A} (f : nat -> result A) (start n : nat) : result (list A) :=
  match n with
  | 0 => Ok []
  | S n' =>
      rbind (f start) (fun a =>
      rbind (from_length f (S start) n') (fun l => Ok (a :: l)))
  end.

Definition js_div (a b : nat) : Q :=
  (inject_Z (Z.of_nat a) / inject_Z (Z.of_nat b))%Q.

Definition Math_floor (q : Q) : nat := Z.to_nat (Qfloor q).

(** ** Configuration: [env] *)

Record Env : Type := {
  maxTick : Z;
  chunkSize : nat
}.

Definition env : Env := {| maxTick := 30; chunkSize := 100 * 1000 |}.

(** A codebook: groups of centroids of coordinates. *)
Abbreviation Codebook N := (list (list (list N))) (only parsing).

Section Model.

Context {N : Type} `{Number N}.

(** The value a [Float32Array] cell takes when [v] is stored in it. *)
Definition toFloat32 (v : option N) : N :=
  match v with
  | Some x => fround x
  | None => NaN
  end.

(** ** [flattenCodebook] (index.js, 104-107) *)

(** The mapping callback of [flattenCodebook] at index [i], with
    [n0 = codebk[0].length] and [n00 = codebk[0][0].length]. *)
Definition flat_entry (codebk : Codebook N) (n0 n00 i : nat) : result N :=
  let s := Math_floor (js_div i n0 / inject_Z (Z.of_nat n00))%Q in
  let c := Math_floor (js_div i n00) mod n0 in
  let d := i mod n00 in
  rbind (deref codebk s) (fun g =>
  rbind (deref g c) (fun v =>
  Ok (toFloat32 (v !! d)))).

Definition flattenCodebook (codebk : Codebook N) : result (list N) :=
  rbind (deref codebk 0) (fun g0 =>
  rbind (deref g0 0) (fun v0 =>
  let n0 := length g0 in
  let n00 := length v0 in
  from_length (flat_entry codebk n0 n00) 0 (length codebk * n0 * n00))).

(** ** Typed arrays and inference sessions *)

(** A [Uint8Array]: a window of [u8_length] bytes starting at
    [u8_byteOffset] in its underlying [ArrayBuffer]. *)
Record Uint8Array : Type := {
  u8_buffer : list Byte.byte;
  u8_byteOffset : nat;
  u8_length : nat
}.

(** [new Uint8Array(buffer, byteOffset, length)]: a [RangeError] when the
    window does not fit in the buffer. *)
Definition new_Uint8Array (buf : list Byte.byte) (byteOffset len : nat)
  : result Uint8Array :=
  if byteOffset + len <=? length buf
  then Ok {| u8_buffer := buf; u8_byteOffset := byteOffset; u8_length := len |}
  else Err RangeError.

Definition u8_bytes (a : Uint8Array) : list Byte.byte :=
  take (u8_length a) (drop (u8_byteOffset a) (u8_buffer a)).

Record Shard : Type := {
  data : Uint8Array;
  offset : nat
}.

(** The feeds of the two ONNX sessions, one field for each feed's name:
    as arguments of [queryDist] and [distTopK], the data handed to
    [new Tensor(type, ...)]; as input of a session, the data of the tensor
    built from it. *)
Record PQFeeds : Type := {
  pq_query : list N;
  pq_codebook : list N;
  pq_codebookShape : list nat;
  pq_embeddings : Uint8Array;
  pq_embeddingTensorShape : list nat
}.

Record TopKFeeds : Type := {
  tk_input : list N;
  tk_filterColumn : list N;
  tk_filterValue : N;
  tk_filterZero : N;
  tk_filterShim : N;
  tk_k : Z
}.

(** What [await inferenceSession.run(feeds)] gives for the tensors of
    [feeds], after the destructuring [{output: {data}}]: the output buffer,
    or the exception raised. *)
Definition PQSession : Type := PQFeeds -> result (list N).

Context {TopK : Type}.
Definition TopKSession : Type := TopKFeeds -> result TopK.

(** ** [distTopK] (index.js, 32-42) and [queryDist] (index.js, 45-52) *)

Definition topk_feeds (dists filterColumn : list N)
    (filterValue filterZero filterShim : N) (k : Z) : TopKFeeds :=
  {| tk_input := dists;
     tk_filterColumn := filterColumn;
     tk_filterValue := filterValue;
     tk_filterZero := filterZero;
     tk_filterShim := filterShim;
     tk_k := k |}.

(** [new Tensor(type, data, dims)] keeps a typed array of the tensor's type
    as the tensor's data and converts a plain array with [Float32Array.from]
    or [Uint8Array.from]: either way the data of a ["float32"] tensor are
    float32 values, and [[k]] becomes one byte, [k] modulo 256.  When [dims]
    is given and its product is not the number of elements of [data], the
    constructor throws an [Error]. *)
Definition float32s (data : list N) : list N := map fround data.

Definition toUint8 (k : Z) : Z := (k mod 256)%Z.

Definition tensor_size (dims : list nat) : nat := fold_right Nat.mul 1 dims.

Definition new_Tensor {A} (data : A) (len : nat) (dims : list nat) : result A :=
  if len =? tensor_size dims then Ok data else Err TensorSizeError.

(** The tensors that [distTopK] builds from its arguments (lines 34-39). *)
Definition topk_tensors (feeds : TopKFeeds) : TopKFeeds :=
  {| tk_input := float32s (tk_input feeds);
     tk_filterColumn := float32s (tk_filterColumn feeds);
     tk_filterValue := fround (tk_filterValue feeds);
     tk_filterZero := fround (tk_filterZero feeds);
     tk_filterShim := fround (tk_filterShim feeds);
     tk_k := toUint8 (tk_k feeds) |}.

Definition distTopK (inferenceSession : TopKSession) (dists filterColumn : list N)
    (filterValue filterZero filterShim : N) (k : Z) : result TopK :=
  inferenceSession
    (topk_tensors
       (topk_feeds dists filterColumn filterValue filterZero filterShim k)).

Definition pq_feeds (query codebook : list N) (codebookShape : list nat)
    (embeddings : Uint8Array) (embeddingTensorShape : list nat) : PQFeeds :=
  {| pq_query := query;
     pq_codebook := codebook;
     pq_codebookShape := codebookShape;
     pq_embeddings := embeddings;
     pq_embeddingTensorShape := embeddingTensorShape |}.

(** The tensors of lines 47-49, built in this order; the two that are
    given [dims] can fail. *)
Definition queryDist (inferenceSession : PQSession) (query codebook : list N)
    (codebookShape : list nat) (embeddings : Uint8Array)
    (embeddingTensorShape : list nat) : result (list N) :=
  let queryTensor := float32s query in
  rbind (new_Tensor (float32s codebook) (length codebook) codebookShape)
    (fun codebookTensor =>
  rbind (new_Tensor embeddings (u8_length embeddings) embeddingTensorShape)
    (fun embeddingsTensor =>
  inferenceSession
    (pq_feeds queryTensor codebookTensor codebookShape embeddingsTensor
       embeddingTensorShape))).

(** ** The world of one query session *)

(** Where [distTopK] is called from: inside the scan (line 82), with the
    loop variables of that iteration, or after it (line 92). *)
Inductive Site : Type :=
| InScan (embeddingCounter i : nat) (distTime lastPaint : Z)
| AtEnd.

(** The observable actions of a run, in program order.  [EKernel] and
    [ETopK] record the calls of [queryDist] and [distTopK] with their
    arguments and [EWrite] the stores into [dists]; the other four are what
    the host sees: the three payloads of [intermediateValueFn] and
    the zero-delay [setTimeout].  A payload's [dists] is the shared array
    itself; the event keeps its contents at the time of the call. *)
Inductive event : Type :=
| EKernel (embeddingCounter i : nat) (feeds : PQFeeds)
| EWrite (embeddingCounter i idx : nat) (v : N)
| EDistanceUpdate (dists : list N) (distTime : string) (lastPaint : Z)
| ETopK (site : Site) (feeds : TopKFeeds)
| ETopKUpdate (topk : TopK)
| EYield
| EFinal (dists : list N) (distTime : string) (topk : TopK).

Record world : Type := {
  w_now : nat;            (* calls of Date.now() so far *)
  w_polls : nat;          (* calls of continueFn() so far *)
  w_dists : list N;       (* the contents of the Float32Array dists *)
  w_trace : list event
}.

Definition init_world (dists : list N) : world :=
  {| w_now := 0; w_polls := 0; w_dists := dists; w_trace := [] |}.

Definition w_tick (w : world) : world :=
  {| w_now := S (w_now w); w_polls := w_polls w; w_dists := w_dists w;
     w_trace := w_trace w |}.

Definition w_polled (w : world) : world :=
  {| w_now := w_now w; w_polls := S (w_polls w); w_dists := w_dists w;
     w_trace := w_trace w |}.

Definition w_log (l : list event) (w : world) : world :=
  {| w_now := w_now w; w_polls := w_polls w; w_dists := w_dists w;
     w_trace := w_trace w ++ l |}.

Definition w_set (idx : nat) (v : N) (w : world) : world :=
  {| w_now := w_now w; w_polls := w_polls w; w_dists := <[idx := v]> (w_dists w);
     w_trace := w_trace w |}.

Inductive outcome (A : Type) : Type :=
| Ret (a : A) (w : world)
| Throw (e : exn) (w : world)
| OutOfFuel (w : world).
Arguments Ret {A} a w.
Arguments Throw {A} e w.
Arguments OutOfFuel {A} w.

Definition world_of {A} (o : outcome A) : world :=
  match o with
  | Ret _ w => w
  | Throw _ w => w
  | OutOfFuel w => w
  end.

Definition M (A : Type) : Type := world -> outcome A.

Definition ret {A} (a : A) : M A := fun w => Ret a w.

Definition bind {A B} (m : M A) (f : A -> M B) : M B :=
  fun w =>
    match m w with
    | Ret a w' => f a w'
    | Throw e w' => Throw e w'
    | OutOfFuel w' => OutOfFuel w'
    end.

Definition out_of_fuel {A} : M A := fun w => OutOfFuel w.

(** An awaited promise or a throwing expression. *)
Definition await {A} (r : result A) : M A :=
  fun w =>
    match r with
    | Ok a => Ret a w
    | Err e => Throw e w
    end.

Definition emit (e : event) : M unit := fun w => Ret tt (w_log [e] w).

Definition get_dists : M (list N) := fun w => Ret (w_dists w) w.

(** [await queryDist(...)] and [await distTopK(...)], each entered in the
    trace with the arguments it is called with. *)
Definition call_queryDist (embeddingCounter i : nat) (inferenceSession : PQSession)
    (query codebook : list N) (codebookShape : list nat) (embeddings : Uint8Array)
    (embeddingTensorShape : list nat) : M (list N) :=
  bind (emit (EKernel embeddingCounter i
                (pq_feeds query codebook codebookShape embeddings embeddingTensorShape)))
    (fun _ =>
  await (queryDist inferenceSession query codebook codebookShape embeddings
           embeddingTensorShape)).

Definition call_distTopK (site : Site) (inferenceSession : TopKSession)
    (dists filterColumn : list N) (filterValue filterZero filterShim : N) (k : Z)
  : M TopK :=
  bind (emit (ETopK site
                (topk_feeds dists filterColumn filterValue filterZero filterShim k)))
    (fun _ =>
  await (distTopK inferenceSession dists filterColumn filterValue filterZero
           filterShim k)).

Notation "'let*' x ':=' m 'in' k" := (bind m (fun x => k))
  (at level 10, x pattern, m at level 100, k at level 200).

(** ** [queryToTiledDist] (index.js, 55-95) *)

(** [`${z}`] for an integer [z]. *)
Definition string_of_Z (z : Z) : string := NilZero.string_of_int (Z.to_int z).

(** [timingStrings.join()] *)
Definition join (l : list string) : string := String.concat "," l.

(** [a < q] for an integer [a] and a quotient [q]. *)
Definition js_lt (a : nat) (q : Q) : bool :=
  negb (Qle_bool q (inject_Z (Z.of_nat a))).

Section Scheduler.

(** The host: [clock n] is what the [n]-th call of [Date.now()] returns and
    [continueFn n] what the [n]-th call of the cancellation predicate
    returns (counting from 0).  [intermediateValueFn] is the trace. *)
Variable clock : nat -> Z.
Variable continueFn : nat -> bool.
Variable E : Env.

Definition Date_now : M Z := fun w => Ret (clock (w_now w)) (w_tick w).

Definition call_continueFn : M bool :=
  fun w => Ret (continueFn (w_polls w)) (w_polled w).

(** [dists[idx] = v] on a [Float32Array]: a store past the end is ignored. *)
Definition store (embeddingCounter i idx : nat) (v : option N) : M unit :=
  fun w =>
    Ret tt (w_log [EWrite embeddingCounter i idx (toFloat32 v)]
              (w_set idx (toFloat32 v) w)).

(** Lines 75-77, from [j] on, [n] iterations left. *)
Fixpoint write_tile (embeddingCounter embeddingOffset i : nat) (distTile : list N)
    (j n : nat) : M unit :=
  match n with
  | 0 => ret tt
  | S n' =>
      let* _ := store embeddingCounter i (embeddingOffset + i + j) (distTile !! j) in
      write_tile embeddingCounter embeddingOffset i distTile (S j) n'
  end.

Variable query : list N.
Variable codebk : Codebook N.
Variable codebkflat : list N.
Variable pqdistinf : PQSession.
Variable firstLetters : list N.
Variable firstLetterInt : N.
Variable filteredtopkinf : TopKSession.
Variable k : Z.

(** The loop variables that outlive an iteration. *)
Record Locals : Type := {
  lastPaint : Z;
  timingStrings : list string
}.

(** Lines 69-88: one iteration of the inner loop. *)
Definition chunk (codebookshape : list nat) (embeddingCounter : nat) (shard : Shard)
    (i : nat) (st : Locals) : M Locals :=
  let embeddingData := data shard in
  let embeddingOffset := offset shard in
  let* startTime := Date_now in
  let startEmbeddingPosition := i * length codebk in
  let embeddingTileLength := chunkSize E * length codebk in
  let embeddingTensorShape := [chunkSize E; length codebk] in
  let* embeddingTile :=
    await (new_Uint8Array (u8_buffer embeddingData)
             (startEmbeddingPosition + u8_byteOffset embeddingData)
             embeddingTileLength) in
  let* distTile :=
    call_queryDist embeddingCounter i pqdistinf query codebkflat codebookshape
      embeddingTile embeddingTensorShape in
  let* _ := write_tile embeddingCounter embeddingOffset i distTile 0 (chunkSize E) in
  let* distTime := Date_now in
  let timingStrings1 := timingStrings st ++ [string_of_Z (distTime - startTime)] in
  let* dists := get_dists in
  let* _ := emit (EDistanceUpdate dists (join timingStrings1) (lastPaint st)) in
  if ((i =? 0) && (embeddingCounter =? 0)) || (maxTick E <? distTime - lastPaint st)%Z
  then
    let* topk :=
      call_distTopK (InScan embeddingCounter i distTime (lastPaint st))
        filteredtopkinf dists firstLetters firstLetterInt (of_Z 0) (of_Z 1024) k in
    let* topktime := Date_now in
    let timingStrings2 :=
      timingStrings1 ++ [("-" ++ string_of_Z (topktime - distTime) ++ " ")%string] in
    let* _ := emit (ETopKUpdate topk) in
    let* _ := emit EYield in
    let* lastPaint' := Date_now in
    ret {| lastPaint := lastPaint'; timingStrings := timingStrings2 |}
  else
    ret {| lastPaint := lastPaint st; timingStrings := timingStrings1 |}.

(** Line 68: the inner loop from [i] on.  [fuel] bounds the number of
    iterations (with [chunkSize = 0] the loop does not advance). *)
Fixpoint chunks (fuel : nat) (codebookshape : list nat) (embeddingCounter : nat)
    (shard : Shard) (i : nat) (st : Locals) : M Locals :=
  if js_lt i (js_div (u8_length (data shard)) (length codebk))
  then
    let* go := call_continueFn in
    if go : bool
    then
      match fuel with
      | 0 => out_of_fuel
      | S fuel' =>
          let* st' := chunk codebookshape embeddingCounter shard i st in
          chunks fuel' codebookshape embeddingCounter shard (i + chunkSize E) st'
      end
    else ret st
  else ret st.

(** Line 66: the outer loop over [embeddings[embeddingCounter ..]]. *)
Fixpoint shards (fuel : nat) (codebookshape : list nat) (embeddingCounter : nat)
    (rest : list Shard) (st : Locals) : M Locals :=
  match rest with
  | [] => ret st
  | shard :: rest' =>
      let* st' := chunks fuel codebookshape embeddingCounter shard 0 st in
      shards fuel codebookshape (S embeddingCounter) rest' st'
  end.

(** Lines 62-90: everything before the final poll. *)
Definition scan (fuel : nat) (embeddings : list Shard) (embeddingCounter : nat)
  : M Locals :=
  let* lastPaint0 := Date_now in
  let* g0 := await (deref codebk 0) in
  let* v0 := await (deref g0 0) in
  let codebookshape := [length codebk; length g0; length v0] in
  shards fuel codebookshape embeddingCounter (drop embeddingCounter embeddings)
    {| lastPaint := lastPaint0; timingStrings := [] |}.

(** Lines 91-94. *)
Definition finish (st : Locals) : M unit :=
  let* go := call_continueFn in
  if go : bool
  then
    let* dists := get_dists in
    let* topk :=
      call_distTopK AtEnd filteredtopkinf dists firstLetters firstLetterInt
        (of_Z 0) (of_Z 1024) k in
    emit (EFinal dists (join (timingStrings st)) topk)
  else ret tt.

Definition queryToTiledDist (fuel : nat) (embeddings : list Shard)
    (embeddingCounter : nat) : M unit :=
  let* st := scan fuel embeddings embeddingCounter in
  finish st.

End Scheduler.

End Model.

Arguments PQFeeds : clear implicits.
Arguments TopKFeeds : clear implicits.
Arguments PQSession : clear implicits.
Arguments TopKSession : clear implicits.
Arguments event : clear implicits.
Arguments world : clear implicits.
Arguments outcome : clear implicits.
Arguments M : clear implicits.
Arguments Ret {N TopK A} a w.
Arguments Throw {N TopK A} e w.
Arguments OutOfFuel {N TopK A} w.

(** ** A concrete carrier for examples

    The JavaScript numbers that are small integers (below 2^24 in absolute
    value, so that [Math.fround] leaves them alone) or [NaN]. *)
Module Sample.

Inductive num : Type :=
| Int (z : Z)
| NotANumber.

#[export] Instance num_Number : Number num :=
  {| NaN := NotANumber; fround := fun x => x; of_Z := Int |}.

(** A distance kernel that returns, for each item of the tile, the sum of
    its bytes, and a top-k engine that returns the positions of the entries
    of [input] that are numbers, cut at [k mod 256] (the [uint8] tensor). *)
Definition byte_sum (bs : list Byte.byte) : Z :=
  fold_right (fun b acc => (Z.of_N (Byte.to_N b) + acc)%Z) 0%Z bs.

Fixpoint rows (width n : nat) (bs : list Byte.byte) : list (list Byte.byte) :=
  match n with
  | 0 => []
  | S n' => take width bs :: rows width n' (drop width bs)
  end.

Definition pqdist : PQSession num :=
  fun feeds =>
    match pq_embeddingTensorShape feeds with
    | [n; width] =>
        Ok (map (fun r => Int (byte_sum r)) (rows width n (u8_bytes (pq_embeddings feeds))))
    | _ => Err (SessionError "shape")
    end.

Fixpoint numbers_from (i : nat) (l : list num) : list nat :=
  match l with
  | [] => []
  | Int _ :: l' => i :: numbers_from (S i) l'
  | NotANumber :: l' => numbers_from (S i) l'
  end.

Definition topk : TopKSession num (list nat) :=
  fun feeds => Ok (take (Z.to_nat (tk_k feeds mod 256)) (numbers_from 0 (tk_input feeds))).

Definition bytes (l : list nat) : list Byte.byte :=
  map (fun n => match Byte.of_nat n with Some b => b | None => Byte.x00 end) l.

Definition shard_of (l : list nat) (off : nat) : Shard :=
  {| data := {| u8_buffer := bytes l; u8_byteOffset := 0; u8_length := length l |};
     offset := off |}.

(** Two subspaces, one centroid each, of dimension 1. *)
Definition codebk : Codebook num := [[[Int 1]]; [[Int 2]]].

Definition env2 : Env := {| maxTick := 30; chunkSize := 2 |}.

(** An engine that refuses a non-positive [k]. *)
Definition topk_strict : TopKSession num (list nat) :=
  fun feeds =>
    if (tk_k feeds <=? 0)%Z then Err (SessionError "invalid k") else topk feeds.

Definition run_with (engine : TopKSession num (list nat)) (clock : nat -> Z)
    (continueFn : nat -> bool) (E : Env) (k : Z) (embeddings : list Shard)
    (embeddingCounter : nat) (dists : list num) : outcome num (list nat) unit :=
  queryToTiledDist clock continueFn E [Int 0; Int 0] codebk [Int 1; Int 2] pqdist
    [] (Int 0) engine k 100 embeddings embeddingCounter (init_world dists).

Definition run := run_with topk.

(** Two shards, of 4 and 2 items, that partition [0, 6); an array of six
    cells not yet written; a clock that advances by 20 ms per reading, a
    frozen one, and two cancellation predicates. *)
Definition shards2 : list Shard :=
  [shard_of [1; 2; 3; 4; 5; 6; 7; 8] 0; shard_of [1; 1; 1; 1] 4].

Definition blank : list num := replicate 6 NotANumber.

Definition ticking (n : nat) : Z := 20 * Z.of_nat n.
Definition frozen (n : nat) : Z := 0.

Definition always (n : nat) : bool := true.
Definition stop_then_continue (n : nat) : bool := negb (n =? 0).

(** Codebooks for the flattener: a rectangular one (2 x 2 x 2) and one whose
    second centroid is short. *)
Definition cube : Codebook num :=
  [[[Int 1; Int 2]; [Int 3; Int 4]]; [[Int 5; Int 6]; [Int 7; Int 8]]].

Definition ragged : Codebook num := [[[Int 1; Int 2]; [Int 3]]].

(** [e] is a top-k update. *)
Definition is_update (e : event num (list nat)) : bool :=
  match e with
  | ETopKUpdate _ => true
  | _ => false
  end.

(** A predicate that always reports stop; a kernel that answers whatever the
    tensor shape; two shards of 2 and 3 items, the second one not a whole
    number of chunks of 2 items. *)
Definition never (n : nat) : bool := false.

Definition pqdist_any : PQSession num :=
  fun feeds =>
    Ok (match pqdist feeds with
        | Ok distTile => distTile
        | Err _ => []
        end).

Definition shards_odd : list Shard :=
  [shard_of [1; 2; 3; 4] 0; shard_of [1; 2; 3; 4; 5; 6] 2].

(** An empty shard followed by a shard of 4 items. *)
Definition shards_gap : list Shard :=
  [shard_of [] 0; shard_of [1; 2; 3; 4; 5; 6; 7; 8] 0].

(** An engine that insists on a [k] that fits in a byte. *)
Definition topk_byte : TopKSession num (list nat) :=
  fun feeds =>
    if ((0 <=? tk_k feeds) && (tk_k feeds <? 256))%Z
    then topk feeds
    else Err (SessionError "k is not a uint8").

End Sample.

(** * Vocabulary of the specification *)

Section Vocabulary.

Context {N : Type} `{Number N} {TopK : Type}.

(** A codebook is rectangular when every group has [numCentroids] centroids
    and every centroid [subspaceDim] coordinates. *)
Definition rectangular (codebk : Codebook N) (numCentroids subspaceDim : nat) : Prop :=
  Forall (fun g => length g = numCentroids /\
                   Forall (fun v => length v = subspaceDim) g) codebk.

(** [codebk[s][c][d]], [None] when [codebk[s][c]] exists and [d] is past its
    end or when an outer index is out of range. *)
Definition coordinate (codebk : Codebook N) (s c d : nat) : option N :=
  match codebk !! s with
  | Some g => match g !! c with
              | Some v => v !! d
              | None => None
              end
  | None => None
  end.

(** The cell [i] of the flat buffer for the dimensions [n0], [n00] read off
    the first group and the first centroid. *)
Definition flat_value (codebk : Codebook N) (n0 n00 i : nat) : N :=
  toFloat32 (coordinate codebk (i / n0 / n00) ((i / n00) mod n0) (i mod n00)).

(** *** Reasoning about runs *)

(** [wp m Q X w]: running [m] from [w] either returns a value and a world
    that satisfy [Q], or stops early (exception, fuel) in a world that
    satisfies [X]. *)
Definition wp {A} (m : M N TopK A) (Q : A -> world N TopK -> Prop)
    (X : world N TopK -> Prop) (w : world N TopK) : Prop :=
  match m w with
  | Ret a w' => Q a w'
  | Throw _ w' => X w'
  | OutOfFuel w' => X w'
  end.

(** The events of lines 75-77 for one tile, and the array they leave. *)
Definition tile_events (embeddingCounter embeddingOffset i : nat) (distTile : list N)
    (j n : nat) : list (event N TopK) :=
  map (fun j' => EWrite embeddingCounter i (embeddingOffset + i + j')
                   (toFloat32 (distTile !! j')))
      (seq j n).

Definition tile_dists (embeddingOffset i : nat) (distTile : list N) (j n : nat)
    (dists : list N) : list N :=
  foldl (fun d j' => <[embeddingOffset + i + j' := toFloat32 (distTile !! j')]> d)
        dists (seq j n).

(** *** Shards and the logical item space *)

(** The number of items of a shard: one byte per subspace per item. *)
Definition items (codebk : Codebook N) (shard : Shard) : nat :=
  u8_length (data shard) / length codebk.

Definition covers (codebk : Codebook N) (shard : Shard) (idx : nat) : Prop :=
  offset shard <= idx < offset shard + items codebk shard.

(** The shards' item ranges are pairwise disjoint and together make up
    [0, totalItems). *)
Definition partitions (codebk : Codebook N) (embeddings : list Shard)
    (totalItems : nat) : Prop :=
  (forall idx, idx < totalItems <->
               exists n shard, embeddings !! n = Some shard /\ covers codebk shard idx) /\
  (forall n1 n2 shard1 shard2 idx,
      embeddings !! n1 = Some shard1 -> embeddings !! n2 = Some shard2 ->
      covers codebk shard1 idx -> covers codebk shard2 idx -> n1 = n2).

(** Every shard's item count is a multiple of the chunk size. *)
Definition chunked (E : Env) (codebk : Codebook N) (embeddings : list Shard) : Prop :=
  Forall (fun shard => exists m, u8_length (data shard)
                                 = m * chunkSize E * length codebk) embeddings.

(** *** Reading a trace *)

(** The chunk calls [(embeddingCounter, i)] that stored into [dists[idx]],
    one entry per store. *)
Definition writer (idx : nat) (e : event N TopK) : option (nat * nat) :=
  match e with
  | EWrite embeddingCounter i idx' _ =>
      if idx' =? idx then Some (embeddingCounter, i) else None
  | _ => None
  end.

Definition writers (idx : nat) (t : list (event N TopK)) : list (nat * nat) :=
  omap (writer idx) t.

(** The chunk calls and their stores, as [(embeddingCounter, i, None)] for
    the kernel call and [(embeddingCounter, i, Some idx)] for a store. *)
Definition footprint (e : event N TopK) : option (nat * nat * option nat) :=
  match e with
  | EKernel embeddingCounter i _ => Some (embeddingCounter, i, None)
  | EWrite embeddingCounter i idx _ => Some (embeddingCounter, i, Some idx)
  | _ => None
  end.

Definition chunk_footprint (embeddingCounter embeddingOffset i chunkSize : nat)
  : list (nat * nat * option nat) :=
  (embeddingCounter, i, None)
    :: map (fun j => (embeddingCounter, i, Some (embeddingOffset + i + j)))
         (seq 0 chunkSize).

(** The chunk call behind an entry of a footprint that stores into [idx]. *)
Definition pick (idx : nat) (x : nat * nat * option nat) : option (nat * nat) :=
  match x with
  | (embeddingCounter, i, Some idx') =>
      if idx' =? idx then Some (embeddingCounter, i) else None
  | (_, _, None) => None
  end.

(** The footprint of a whole shard of [m] chunks, from chunk number [c]. *)
Definition shard_footprint (embeddingCounter embeddingOffset chunkSize c m : nat)
  : list (nat * nat * option nat) :=
  flat_map (fun c' =>
              chunk_footprint embeddingCounter embeddingOffset (c' * chunkSize) chunkSize)
           (seq c m).

Fixpoint scan_footprint (codebk : Codebook N) (chunkSize embeddingCounter : nat)
    (rest : list Shard) : list (nat * nat * option nat) :=
  match rest with
  | [] => []
  | shard :: rest' =>
      shard_footprint embeddingCounter (offset shard) chunkSize 0
        (items codebk shard / chunkSize)
      ++ scan_footprint codebk chunkSize (S embeddingCounter) rest'
  end.

(** The in-scan top-k recomputations: chunk and kernel-completion time. *)
Definition topk_site (e : event N TopK) : option (nat * nat * Z) :=
  match e with
  | ETopK (InScan embeddingCounter i distTime _) _ => Some (embeddingCounter, i, distTime)
  | _ => None
  end.

Definition topk_sites (t : list (event N TopK)) : list (nat * nat * Z) :=
  omap topk_site t.

(** The in-scan top-k updates, each with the chunk and the kernel-completion
    time of the recomputation it publishes; [p] is the recomputation made and
    not yet published. *)
Fixpoint update_sites (p : option (nat * nat * Z)) (t : list (event N TopK))
  : list (nat * nat * Z) :=
  match t with
  | [] => []
  | ETopK (InScan embeddingCounter i distTime _) _ :: t' =>
      update_sites (Some (embeddingCounter, i, distTime)) t'
  | ETopKUpdate _ :: t' =>
      match p with
      | Some x => x :: update_sites None t'
      | None => update_sites None t'
      end
  | _ :: t' => update_sites p t'
  end.

(** At the end of the trace of [w] every recomputation has been published. *)
Definition settled (w : world N TopK) : Prop :=
  forall t', update_sites None (w_trace w ++ t')
             = topk_sites (w_trace w) ++ update_sites None t'.

Definition is_final (e : event N TopK) : bool :=
  match e with
  | EFinal _ _ _ => true
  | _ => false
  end.

(** What the scan (lines 62-90) can put in the trace. *)
Inductive scan_event (E : Env) (firstLetters : list N) (firstLetterInt : N) (k : Z)
  : event N TopK -> Prop :=
| se_kernel embeddingCounter i feeds :
    scan_event E firstLetters firstLetterInt k (EKernel embeddingCounter i feeds)
| se_write embeddingCounter i idx v :
    scan_event E firstLetters firstLetterInt k (EWrite embeddingCounter i idx v)
| se_distance dists distTime lastPaint :
    scan_event E firstLetters firstLetterInt k (EDistanceUpdate dists distTime lastPaint)
| se_topk embeddingCounter i distTime lastPaint dists :
    (i = 0 /\ embeddingCounter = 0) \/ (maxTick E < distTime - lastPaint)%Z ->
    scan_event E firstLetters firstLetterInt k
      (ETopK (InScan embeddingCounter i distTime lastPaint)
         (topk_feeds dists firstLetters firstLetterInt (of_Z 0) (of_Z 1024) k))
| se_update topk :
    scan_event E firstLetters firstLetterInt k (ETopKUpdate topk)
| se_yield :
    scan_event E firstLetters firstLetterInt k EYield.

(** Two consecutive recomputations inside the scan are at least [maxTick]
    apart, by the kernel-completion times, unless the second is the one of
    chunk 0 of shard 0. *)
Definition cadence (E : Env) (l : list (nat * nat * Z)) : Prop :=
  forall pre eca ia ta ecb ib tb post,
    l = pre ++ (eca, ia, ta) :: (ecb, ib, tb) :: post ->
    (ib = 0 /\ ecb = 0) \/ (maxTick E <= tb - ta)%Z.

(** The invariant of the scan for the cadence: [lastPaint] is a reading of
    the clock already taken, not earlier than the last recomputation. *)
Definition paced (clock : nat -> Z) (E : Env) (st : Locals) (w : world N TopK) : Prop :=
  cadence E (topk_sites (w_trace w)) /\
  (exists j, j < w_now w /\ lastPaint st = clock j) /\
  (forall ec i t, last (topk_sites (w_trace w)) = Some (ec, i, t) ->
                  (t <= lastPaint st)%Z).

(** From [w] on, every poll reports stop. *)
Definition stopped (continueFn : nat -> bool) (w : world N TopK) : Prop :=
  forall n, w_polls w <= n -> continueFn n = false.

(** The distance array after chunk 0 of shard 0, the feeds of the
    recomputation that follows it, and the events of a run that starts at
    shard 0, up to and including that invocation of the engine. *)
Definition first_dists (E : Env) (shard : Shard) (dists distTile : list N) : list N :=
  tile_dists (offset shard) 0 distTile 0 (chunkSize E) dists.

Definition first_feeds (E : Env) (firstLetters : list N) (firstLetterInt : N) (k : Z)
    (shard : Shard) (dists distTile : list N) : TopKFeeds N :=
  topk_feeds (first_dists E shard dists distTile) firstLetters firstLetterInt
    (of_Z 0) (of_Z 1024) k.

Definition first_head (clock : nat -> Z) (E : Env) (query : list N)
    (codebk : Codebook N) (codebkflat firstLetters : list N) (firstLetterInt : N)
    (k : Z) (shard : Shard) (dists : list N) (g0 : list (list N)) (v0 : list N)
    (embeddingTile : Uint8Array) (distTile : list N)
  : list (event N TopK) :=
  EKernel 0 0 (pq_feeds query codebkflat [length codebk; length g0; length v0]
                 embeddingTile [chunkSize E; length codebk])
  :: tile_events 0 (offset shard) 0 distTile 0 (chunkSize E)
  ++ [EDistanceUpdate (first_dists E shard dists distTile)
        (join [string_of_Z (clock 2 - clock 1)]) (clock 0);
      ETopK (InScan 0 0 (clock 2) (clock 0))
        (first_feeds E firstLetters firstLetterInt k shard dists distTile)].

(** [w] continues [w0] with events of the scan only. *)
Definition scan_extends (E : Env) (firstLetters : list N) (firstLetterInt : N) (k : Z)
    (w0 w : world N TopK) : Prop :=
  exists l, w_trace w = w_trace w0 ++ l /\
            Forall (scan_event E firstLetters firstLetterInt k) l.

(** *** The distance array along a trace *)

(** The effect of one event on the array, and of a whole trace. *)
Definition apply_store (d : list N) (e : event N TopK) : list N :=
  match e with
  | EWrite _ _ idx v => <[idx := v]> d
  | _ => d
  end.

Definition replay (t : list (event N TopK)) (d : list N) : list N :=
  foldl apply_store d t.

(** The contents of the array that an event shows to the host or to the
    engine. *)
Definition carried (e : event N TopK) : option (list N) :=
  match e with
  | EDistanceUpdate dists _ _ => Some dists
  | ETopK _ feeds => Some (tk_input feeds)
  | EFinal dists _ _ => Some dists
  | _ => None
  end.

(** From the array [d] on, every event of [t] that shows the array shows it
    as the stores before it have left it. *)
Fixpoint current (d : list N) (t : list (event N TopK)) : Prop :=
  match t with
  | [] => True
  | e :: t' => (forall c, carried e = Some c -> c = d) /\ current (apply_store d e) t'
  end.

(** The invariant of the scan for the array. *)
Definition replayed (dists : list N) (w : world N TopK) : Prop :=
  w_dists w = replay (w_trace w) dists /\ current dists (w_trace w).

(** *** The tile of a chunk *)

(** The view that line 73 builds for the chunk at in-shard index [i]. *)
Definition window (E : Env) (codebk : Codebook N) (shard : Shard) (i : nat)
  : Uint8Array :=
  {| u8_buffer := u8_buffer (data shard);
     u8_byteOffset := i * length codebk + u8_byteOffset (data shard);
     u8_length := chunkSize E * length codebk |}.

(** What a kernel call and a store of a run over [embeddings], started at
    shard [first], are made of. *)
Definition chunk_event (E : Env) (query : list N) (codebk : Codebook N)
    (codebkflat : list N) (codebookshape : list nat) (pqdistinf : PQSession N)
    (embeddings : list Shard) (first : nat) (e : event N TopK) : Prop :=
  match e with
  | EKernel embeddingCounter i feeds =>
      first <= embeddingCounter /\
      exists shard c,
        embeddings !! embeddingCounter = Some shard /\
        i = c * chunkSize E /\
        i * length codebk < u8_length (data shard) /\
        u8_byteOffset (window E codebk shard i) + u8_length (window E codebk shard i)
          <= length (u8_buffer (data shard)) /\
        feeds = pq_feeds query codebkflat codebookshape (window E codebk shard i)
                  [chunkSize E; length codebk]
  | EWrite embeddingCounter i idx v =>
      exists shard c distTile j,
        embeddings !! embeddingCounter = Some shard /\
        i = c * chunkSize E /\
        queryDist pqdistinf query codebkflat codebookshape (window E codebk shard i)
          [chunkSize E; length codebk] = Ok distTile /\
        j < chunkSize E /\
        idx = offset shard + i + j /\
        v = toFloat32 (distTile !! j)
  | _ => True
  end.

(** *** Polls and what they allow *)

(** How many of the first [n] polls report continue. *)
Definition continues (continueFn : nat -> bool) (n : nat) : nat :=
  length (List.filter continueFn (seq 0 n)).

(** Kernel calls and final recomputations. *)
Definition needs_continue (e : event N TopK) : bool :=
  match e with
  | EKernel _ _ _ => true
  | ETopK AtEnd _ => true
  | _ => false
  end.

(** The number of kernel calls and final recomputations of a trace. *)
Definition guarded (t : list (event N TopK)) : nat :=
  length (List.filter needs_continue t).

(** *** Where an exception comes from *)

(** [codebk[0][0]] does not exist. *)
Definition no_first_centroid (codebk : Codebook N) : Prop :=
  match codebk !! 0 with
  | Some g0 => g0 !! 0 = None
  | None => True
  end.

(** The tensors that [queryDist] builds from its arguments. *)
Definition pq_tensors (feeds : PQFeeds N) : PQFeeds N :=
  pq_feeds (float32s (pq_query feeds)) (float32s (pq_codebook feeds))
    (pq_codebookShape feeds) (pq_embeddings feeds) (pq_embeddingTensorShape feeds).

(** [e], thrown in the world [w'], is the [TypeError] of line 64 (before
    anything is emitted), the [RangeError] of a tile that does not fit its
    buffer, or comes from the call that the trace ends with: the [Error] of
    the codebook tensor, whose data do not have the size of its shape, or the
    exception with which the session rejected the tensors of the call. *)
Definition thrown_by (codebk : Codebook N) (pqdistinf : PQSession N)
    (filteredtopkinf : TopKSession N TopK) (e : exn) (w' : world N TopK) : Prop :=
  (e = TypeError /\ no_first_centroid codebk /\ w_trace w' = []) \/
  e = RangeError \/
  (exists embeddingCounter i feeds,
      last (w_trace w') = Some (EKernel embeddingCounter i feeds) /\
      ((e = TensorSizeError /\
        length (pq_codebook feeds) <> tensor_size (pq_codebookShape feeds)) \/
       pqdistinf (pq_tensors feeds) = Err e)) \/
  (exists site feeds,
      last (w_trace w') = Some (ETopK site feeds) /\
      filteredtopkinf (topk_tensors feeds) = Err e).

(** *** The events of one processed chunk *)

(** The kernel call, its [chunkSize] stores and the distance update and,
    when the top-k is recomputed, the invocation of the engine on the array
    just shown, the update and the yield. *)
Definition chunk_block (E : Env) (b : list (event N TopK)) : Prop :=
  exists embeddingCounter i feeds embeddingOffset distTile dists distTime lastPaint,
    let head :=
      EKernel embeddingCounter i feeds
      :: tile_events embeddingCounter embeddingOffset i distTile 0 (chunkSize E) in
    b = head ++ [EDistanceUpdate dists distTime lastPaint] \/
    exists site tkfeeds topk,
      tk_input tkfeeds = dists /\
      b = head ++ [EDistanceUpdate dists distTime lastPaint;
                   ETopK site tkfeeds; ETopKUpdate topk; EYield].

End Vocabulary.

(** * Properties *)

(** ** Arithmetic of the index computations *)

Lemma Math_floor_js_div (a b : nat) : b <> 0 -> Math_floor (js_div a b) = a / b.
Proof.
  intros Hb. unfold Math_floor, js_div.
  rewrite <- Zdiv_Qdiv, <- Nat2Z.inj_div. apply Nat2Z.id.
Qed.

Lemma Math_floor_js_div_div (i a b : nat) :
  a <> 0 -> b <> 0 ->
  Math_floor (js_div i a / inject_Z (Z.of_nat b))%Q = i / a / b.
Proof.
  intros Ha Hb. unfold Math_floor, js_div.
  assert (Heq : (inject_Z (Z.of_nat i) / inject_Z (Z.of_nat a) / inject_Z (Z.of_nat b)
                 == inject_Z (Z.of_nat i) / inject_Z (Z.of_nat (a * b)))%Q).
  { rewrite Nat2Z.inj_mul, inject_Z_mult. field.
    split; intros Hq; unfold Qeq in Hq; simpl in Hq; lia. }
  rewrite (Qfloor_comp _ _ Heq), <- Zdiv_Qdiv, <- Nat2Z.inj_div, Nat2Z.id.
  symmetry. apply Nat.Div0.div_div.
Qed.

Lemma js_lt_js_div (i a b : nat) : b <> 0 -> js_lt i (js_div a b) = (i * b <? a).
Proof.
  intros Hb. unfold js_lt, js_div.
  destruct (Nat.ltb_spec (i * b) a) as [Hlt | Hge].
  - apply negb_true_iff. apply not_true_is_false. intros Hle.
    apply Qle_bool_iff in Hle.
    apply (Qmult_le_compat_r _ _ (inject_Z (Z.of_nat b))) in Hle.
    + rewrite Qmult_comm, Qmult_div_r in Hle.
      * rewrite <- inject_Z_mult, <- Zle_Qle in Hle. lia.
      * intros Hq. unfold Qeq in Hq. simpl in Hq. lia.
    + rewrite <- (Zle_Qle 0). lia.
  - apply negb_false_iff. apply Qle_bool_iff.
    apply Qle_shift_div_r.
    + rewrite <- (Zlt_Qlt 0). lia.
    + rewrite <- inject_Z_mult, <- Zle_Qle. lia.
Qed.

Lemma row_major_index (s c d n0 n00 : nat) :
  c < n0 -> d < n00 ->
  let i := (s * n0 + c) * n00 + d in
  i / n0 / n00 = s /\ (i / n00) mod n0 = c /\ i mod n00 = d.
Proof.
  intros Hc Hd i.
  assert (Hq : i / n00 = s * n0 + c).
  { symmetry. apply (Nat.div_unique i n00 _ d); [exact Hd | unfold i; lia]. }
  repeat split.
  - rewrite Nat.Div0.div_div, (Nat.mul_comm n0 n00), <- Nat.Div0.div_div, Hq.
    symmetry. apply (Nat.div_unique _ n0 _ c); [exact Hc | lia].
  - rewrite Hq. symmetry. apply (Nat.mod_unique _ n0 s c); [exact Hc | lia].
  - symmetry. apply (Nat.mod_unique i n00 (s * n0 + c) d); [exact Hd | unfold i; lia].
Qed.

Lemma row_major_bound (i ns n0 n00 : nat) :
  i < ns * n0 * n00 -> i / n0 / n00 < ns /\ (i / n00) mod n0 < n0 /\ n00 <> 0.
Proof.
  intros Hi.
  assert (n0 <> 0) by (intros ->; lia).
  assert (n00 <> 0) by (intros ->; lia).
  repeat split; [| apply Nat.mod_upper_bound; assumption | assumption].
  rewrite Nat.Div0.div_div. apply Nat.Div0.div_lt_upper_bound. lia.
Qed.

(** ** Tilings of the item space *)

Section Tiling.

Lemma chunk_footprint_elem ec off i cs x :
  x ∈ chunk_footprint ec off i cs <->
  x = (ec, i, None) \/ exists j, j < cs /\ x = (ec, i, Some (off + i + j)).
Proof.
  unfold chunk_footprint. rewrite elem_of_cons, list_elem_of_fmap.
  split; (intros [Hx | (j & H1 & H2)]; [left; exact Hx | right; exists j]).
  - apply elem_of_seq in H2. split; [lia | exact H1].
  - split; [exact H2 | apply elem_of_seq; lia].
Qed.

Lemma shard_footprint_elem ec off cs m c x :
  x ∈ shard_footprint ec off cs c m <->
  exists c', c <= c' < c + m /\ x ∈ chunk_footprint ec off (c' * cs) cs.
Proof.
  revert c. induction m as [| m IH]; intros c.
  - split; [intros Hx; inversion Hx | intros (c' & Hc & _); lia].
  - change (shard_footprint ec off cs c (S m))
      with (chunk_footprint ec off (c * cs) cs ++ shard_footprint ec off cs (S c) m).
    rewrite elem_of_app, IH. split.
    + intros [Hx | (c' & Hc & Hx)]; [exists c | exists c']; (split; [lia | exact Hx]).
    + intros (c' & Hc & Hx). destruct (decide (c' = c)) as [-> | Hne];
        [left; exact Hx | right; exists c'; split; [lia | exact Hx]].
Qed.

Lemma written_chunk ec off i cs :
  omap snd (chunk_footprint ec off i cs) = seq (off + i) cs.
Proof.
  unfold chunk_footprint. simpl.
  replace (seq (off + i) cs) with (Nat.add (off + i) <$> seq 0 cs)
    by (rewrite fmap_add_seq; f_equal; lia).
  generalize (seq 0 cs). intros l.
  induction l as [| j l IH]; [reflexivity |]. simpl. f_equal. exact IH.
Qed.

Lemma written_shard ec off cs m c :
  omap snd (shard_footprint ec off cs c m) = seq (off + c * cs) (m * cs).
Proof.
  revert c. induction m as [| m IH]; intros c; [reflexivity |].
  change (shard_footprint ec off cs c (S m))
    with (chunk_footprint ec off (c * cs) cs ++ shard_footprint ec off cs (S c) m).
  rewrite omap_app, written_chunk, IH. simpl.
  rewrite seq_app. do 2 f_equal. lia.
Qed.

Lemma pick_none (F : list (nat * nat * option nat)) idx :
  idx ∉ omap snd F -> omap (pick idx) F = [].
Proof.
  induction F as [| [[ec i] [idx' |]] F IH]; intros Hnot; [reflexivity | |].
  - simpl in *. rewrite not_elem_of_cons in Hnot. destruct Hnot as [Hne Hnot].
    destruct (Nat.eqb_spec idx' idx) as [-> | _]; [congruence | auto].
  - simpl in *. auto.
Qed.

Lemma pick_unique (F : list (nat * nat * option nat)) idx :
  NoDup (omap snd F) -> idx ∈ omap snd F ->
  exists ec i, omap (pick idx) F = [(ec, i)].
Proof.
  induction F as [| [[ec i] [idx' |]] F IH]; intros Hnd Hin.
  - inversion Hin.
  - simpl in *. apply NoDup_cons in Hnd. destruct Hnd as [Hnot Hnd].
    destruct (Nat.eqb_spec idx' idx) as [-> | Hne].
    + exists ec, i. rewrite pick_none by exact Hnot. reflexivity.
    + apply elem_of_cons in Hin. destruct Hin as [-> | Hin]; [congruence | auto].
  - simpl in *. auto.
Qed.

(** Ranges [offset, offset + n) that are disjoint by position. *)
Lemma ranges_elem (l : list Shard) (n : Shard -> nat) idx :
  idx ∈ flat_map (fun sh => seq (offset sh) (n sh)) l <->
  exists p sh, l !! p = Some sh /\ offset sh <= idx < offset sh + n sh.
Proof.
  induction l as [| sh l IH]; simpl.
  - split; [intros Hx; inversion Hx | intros (p & sh & Hp & _); discriminate Hp].
  - rewrite elem_of_app, elem_of_seq, IH. split.
    + intros [Hx | (p & sh' & Hp & Hx)]; [exists 0, sh | exists (S p), sh']; auto.
    + intros ([| p] & sh' & Hp & Hx); simpl in Hp.
      * inversion Hp; subst. left. exact Hx.
      * right. eauto.
Qed.

Lemma ranges_NoDup (l : list Shard) (n : Shard -> nat) :
  (forall p1 p2 sh1 sh2 idx,
      l !! p1 = Some sh1 -> l !! p2 = Some sh2 ->
      offset sh1 <= idx < offset sh1 + n sh1 ->
      offset sh2 <= idx < offset sh2 + n sh2 -> p1 = p2) ->
  NoDup (flat_map (fun sh => seq (offset sh) (n sh)) l).
Proof.
  induction l as [| sh l IH]; intros Hdisj; simpl; [constructor |].
  apply NoDup_app. split; [apply NoDup_seq |]. split.
  - intros idx Hin Hin'. apply elem_of_seq in Hin.
    apply ranges_elem in Hin'. destruct Hin' as (p & sh' & Hp & Hx).
    specialize (Hdisj 0 (S p) sh sh' idx eq_refl Hp Hin Hx). discriminate Hdisj.
  - apply IH. intros p1 p2 sh1 sh2 idx H1 H2 Hx1 Hx2.
    specialize (Hdisj (S p1) (S p2) sh1 sh2 idx H1 H2 Hx1 Hx2). lia.
Qed.

Context {N : Type}.

Lemma scan_footprint_elem (codebk : Codebook N) cs rest ec0 x :
  x ∈ scan_footprint codebk cs ec0 rest <->
  exists p sh c, rest !! p = Some sh /\ c < items codebk sh / cs /\
                 x ∈ chunk_footprint (ec0 + p) (offset sh) (c * cs) cs.
Proof.
  revert ec0. induction rest as [| sh rest IH]; intros ec0; simpl.
  - split; [intros Hx; inversion Hx | intros (p & sh & c & Hp & _); discriminate Hp].
  - rewrite elem_of_app, shard_footprint_elem, IH. split.
    + intros [(c & Hc & Hx) | (p & sh' & c & Hp & Hc & Hx)].
      * exists 0, sh, c. rewrite Nat.add_0_r. split; [reflexivity |]. split; [lia | exact Hx].
      * exists (S p), sh', c. rewrite Nat.add_succ_r. auto.
    + intros ([| p] & sh' & c & Hp & Hc & Hx); simpl in Hp.
      * inversion Hp; subst. rewrite Nat.add_0_r in Hx. left. exists c.
        split; [lia | exact Hx].
      * right. exists p, sh', c. rewrite Nat.add_succ_r in Hx. auto.
Qed.

Lemma written_scan (codebk : Codebook N) cs rest ec0 :
  omap snd (scan_footprint codebk cs ec0 rest)
  = flat_map (fun sh => seq (offset sh) (items codebk sh / cs * cs)) rest.
Proof.
  revert ec0. induction rest as [| sh rest IH]; intros ec0; [reflexivity |].
  simpl. rewrite omap_app, written_shard, IH, Nat.add_0_r. reflexivity.
Qed.

End Tiling.

(** ** The codebook flattener *)

Section Flattener.

Context {N : Type} `{Number N}.

Lemma from_length_ok {A} (f : nat -> result A) (g : nat -> A) (start n : nat) :
  (forall i, start <= i < start + n -> f i = Ok (g i)) ->
  from_length f start n = Ok (map g (seq start n)).
Proof.
  revert start. induction n as [| n IH]; intros start Hf; [reflexivity |].
  simpl. rewrite Hf by lia. simpl.
  rewrite IH; [reflexivity |]. intros i Hi. apply Hf. lia.
Qed.

Lemma from_length_err {A} (f : nat -> result A) (e : exn) (start n : nat) :
  (forall i, start <= i < start + n -> f i = Err e \/ exists a, f i = Ok a) ->
  (exists i, start <= i < start + n /\ f i = Err e) ->
  from_length f start n = Err e.
Proof.
  revert start. induction n as [| n IH]; intros start Hall [i [Hi Hfi]]; [lia |].
  simpl. destruct (Hall start) as [Hs | [a Hs]]; [lia | rewrite Hs; reflexivity |].
  rewrite Hs. simpl. rewrite IH; [reflexivity | |].
  - intros j Hj. apply Hall. lia.
  - exists i. split; [| exact Hfi].
    destruct (decide (i = start)) as [-> | Hne]; [congruence | lia].
Qed.

Lemma flat_entry_unfold (codebk : Codebook N) (n0 n00 i : nat) :
  n0 <> 0 -> n00 <> 0 ->
  flat_entry codebk n0 n00 i =
  rbind (deref codebk (i / n0 / n00)) (fun g =>
  rbind (deref g ((i / n00) mod n0)) (fun v =>
  Ok (toFloat32 (v !! (i mod n00))))).
Proof.
  intros H0 H00. unfold flat_entry.
  rewrite Math_floor_js_div_div, Math_floor_js_div by assumption. reflexivity.
Qed.

(** Without any shape check, the flattener succeeds as soon as every group
    has at least as many centroids as the first one. *)
Lemma flattenCodebook_cells (codebk : Codebook N) (g0 : list (list N)) (v0 : list N) :
  codebk !! 0 = Some g0 -> g0 !! 0 = Some v0 ->
  Forall (fun g => length g0 <= length g) codebk ->
  flattenCodebook codebk =
  Ok (map (flat_value codebk (length g0) (length v0))
        (seq 0 (length codebk * length g0 * length v0))).
Proof.
  intros Hg0 Hv0 Hall. unfold flattenCodebook, deref.
  rewrite Hg0. simpl. rewrite Hv0. simpl.
  apply from_length_ok. intros i [_ Hi]. simpl in Hi.
  destruct (row_major_bound _ _ _ _ Hi) as (Hs & Hc & H00).
  assert (H0 : length g0 <> 0) by (intros E0; rewrite E0 in Hc; lia).
  rewrite flat_entry_unfold by assumption.
  unfold flat_value, coordinate, deref.
  destruct (lookup_lt_is_Some_2 codebk _ Hs) as [g Hg]. rewrite Hg. simpl.
  assert (Hlen : length g0 <= length g).
  { rewrite Forall_forall in Hall. apply Hall.
    apply list_elem_of_lookup. eauto. }
  destruct (lookup_lt_is_Some_2 g ((i / length v0) mod length g0)) as [v Hv]; [lia |].
  rewrite Hv. reflexivity.
Qed.

Lemma rectangular_first (codebk : Codebook N) (nc sd s c d : nat) g v x :
  rectangular codebk nc sd ->
  codebk !! s = Some g -> g !! c = Some v -> v !! d = Some x ->
  exists g0 v0, codebk !! 0 = Some g0 /\ g0 !! 0 = Some v0 /\
                length g0 = nc /\ length v0 = sd /\
                Forall (fun g' => length g0 <= length g') codebk /\
                c < nc /\ d < sd.
Proof.
  intros Hrect Hg Hv Hx. unfold rectangular in Hrect.
  rewrite Forall_forall in Hrect.
  assert (Hin : forall k g', codebk !! k = Some g' -> g' ∈ codebk).
  { intros k g' Hk. apply list_elem_of_lookup. eauto. }
  destruct (Hrect g (Hin _ _ Hg)) as [Hlg Hvs].
  assert (Hc : c < nc) by (rewrite <- Hlg; eapply lookup_lt_Some; eauto).
  assert (Hd : d < sd).
  { rewrite Forall_forall in Hvs. rewrite <- (Hvs v).
    - eapply lookup_lt_Some; eauto.
    - apply list_elem_of_lookup. eauto. }
  destruct (lookup_lt_is_Some_2 codebk 0) as [g0 Hg0].
  { apply lookup_lt_Some in Hg. lia. }
  destruct (Hrect g0 (Hin _ _ Hg0)) as [Hlg0 Hvs0].
  destruct (lookup_lt_is_Some_2 g0 0) as [v0 Hv0]; [lia |].
  exists g0, v0. repeat split; try assumption.
  - rewrite Forall_forall in Hvs0. apply Hvs0.
    apply list_elem_of_lookup. eauto.
  - apply Forall_forall. intros g' Hg'. destruct (Hrect g' Hg') as [-> _]. lia.
Qed.

(** C2 (flatten round-trip).  For a rectangular codebook with [numCentroids]
    centroids per group and [subspaceDim] coordinates per centroid, and a
    coordinate [codebk[s][c][d] = x] that is a float32 value, the flattener
    returns a buffer of [numSubspaces * numCentroids * subspaceDim] cells
    whose cell [(s * numCentroids + c) * subspaceDim + d] is [x]. *)
Theorem C2_flatten_round_trip (codebk : Codebook N) (numCentroids subspaceDim : nat)
    (s c d : nat) (g : list (list N)) (v : list N) (x : N) :
  rectangular codebk numCentroids subspaceDim ->
  codebk !! s = Some g -> g !! c = Some v -> v !! d = Some x ->
  fround x = x ->
  exists flat : list N,
    flattenCodebook codebk = Ok flat /\
    length flat = length codebk * numCentroids * subspaceDim /\
    flat !! ((s * numCentroids + c) * subspaceDim + d) = Some x.
Proof.
  intros Hrect Hg Hv Hx Hfx.
  destruct (rectangular_first _ _ _ _ _ _ _ _ _ Hrect Hg Hv Hx)
    as (g0 & v0 & Hg0 & Hv0 & Hn0 & Hn00 & Hall & Hc & Hd).
  eexists. split; [apply (flattenCodebook_cells _ _ _ Hg0 Hv0 Hall) |].
  rewrite Hn0, Hn00. split; [rewrite length_map, length_seq; reflexivity |].
  assert (Hs : s < length codebk) by (eapply lookup_lt_Some; eauto).
  assert (Hi : (s * numCentroids + c) * subspaceDim + d
               < length codebk * numCentroids * subspaceDim).
  { apply Nat.lt_le_trans with ((s * numCentroids + c + 1) * subspaceDim); [lia |].
    apply Nat.mul_le_mono_r.
    apply Nat.le_trans with ((s + 1) * numCentroids); [lia |].
    apply Nat.mul_le_mono_r. lia. }
  rewrite list_lookup_fmap, lookup_seq_lt by exact Hi. simpl.
  unfold flat_value.
  destruct (row_major_index s c d numCentroids subspaceDim Hc Hd) as (-> & -> & ->).
  unfold coordinate. rewrite Hg, Hv, Hx. simpl. rewrite Hfx. reflexivity.
Qed.

Lemma flat_entry_TypeError (codebk : Codebook N) (n0 n00 i : nat) :
  flat_entry codebk n0 n00 i = Err TypeError \/
  exists a, flat_entry codebk n0 n00 i = Ok a.
Proof.
  unfold flat_entry, deref.
  destruct (codebk !! _) as [g |]; simpl; [| left; reflexivity].
  destruct (g !! _) as [v |]; simpl; [right; eauto | left; reflexivity].
Qed.

(** C7, as the code has it.  The flattener makes no shape check and knows
    no shape error.  With the dimensions read off the first group and the
    first centroid: when every group has at least as many centroids as the
    first, rectangular or not, the buffer is returned, each cell holding the
    coordinate at its row-major position converted to float32 ([NaN] where a
    centroid is too short); when some group has fewer centroids and the first
    centroid is not empty, a [TypeError] is thrown. *)
Theorem C7_flatten_without_shape_check (codebk : Codebook N)
    (g0 : list (list N)) (v0 : list N) :
  codebk !! 0 = Some g0 -> g0 !! 0 = Some v0 ->
  (Forall (fun g => length g0 <= length g) codebk ->
   flattenCodebook codebk =
   Ok (map (flat_value codebk (length g0) (length v0))
         (seq 0 (length codebk * length g0 * length v0)))) /\
  (Exists (fun g => length g < length g0) codebk -> length v0 <> 0 ->
   flattenCodebook codebk = Err TypeError).
Proof.
  intros Hg0 Hv0. split; [apply flattenCodebook_cells; assumption |].
  intros Hex H00. apply Exists_exists in Hex. destruct Hex as (g & Hin & Hlt).
  apply list_elem_of_lookup in Hin. destruct Hin as [s Hs].
  unfold flattenCodebook, deref. rewrite Hg0. simpl. rewrite Hv0. simpl.
  apply from_length_err; [intros; apply flat_entry_TypeError |].
  exists ((s * length g0 + length g) * length v0 + 0).
  assert (H0 : length g0 <> 0) by lia.
  assert (Hd : 0 < length v0) by lia.
  split.
  - split; [lia |]. simpl.
    apply lookup_lt_Some in Hs.
    apply Nat.lt_le_trans with ((s * length g0 + length g + 1) * length v0); [lia |].
    apply Nat.mul_le_mono_r.
    apply Nat.le_trans with ((s + 1) * length g0); [lia |].
    apply Nat.mul_le_mono_r. lia.
  - rewrite flat_entry_unfold by assumption.
    destruct (row_major_index s (length g) 0 _ _ Hlt Hd) as (-> & -> & _).
    unfold deref. rewrite Hs. simpl. rewrite lookup_ge_None_2 by lia. reflexivity.
Qed.

(** *** When the flattener returns, and what *)

Lemma from_length_Ok {A} (f : nat -> result A) (start n : nat) (l : list A) :
  from_length f start n = Ok l ->
  length l = n /\ forall j, j < n -> exists a, f (start + j) = Ok a /\ l !! j = Some a.
Proof.
  revert start l. induction n as [| n IH]; intros start l Hl; simpl in Hl.
  - inversion Hl; subst. split; [reflexivity | intros j Hj; lia].
  - destruct (f start) as [a |] eqn:Ha; simpl in Hl; [| discriminate Hl].
    destruct (from_length f (S start) n) as [l' |] eqn:Hl'; simpl in Hl;
      [| discriminate Hl].
    inversion Hl; subst. destruct (IH _ _ Hl') as [Hlen Hcells].
    split; [simpl; lia |]. intros [| j] Hj.
    + exists a. rewrite Nat.add_0_r. auto.
    + destruct (Hcells j) as (b & Hb & Hj'); [lia |].
      exists b. rewrite Nat.add_succ_r. auto.
Qed.

Lemma from_length_Err {A} (f : nat -> result A) (start n : nat) (e : exn) :
  from_length f start n = Err e -> exists i, f i = Err e.
Proof.
  revert start. induction n as [| n IH]; intros start Hl; simpl in Hl;
    [discriminate Hl |].
  destruct (f start) as [a |] eqn:Ha; simpl in Hl; [| inversion Hl; subst; eauto].
  destruct (from_length f (S start) n) as [l' |] eqn:Hl'; simpl in Hl;
    [discriminate Hl |].
  inversion Hl; subst. eauto.
Qed.

Lemma flat_entry_Ok (codebk : Codebook N) (n0 n00 i : nat) (a : N) :
  n0 <> 0 -> n00 <> 0 ->
  flat_entry codebk n0 n00 i = Ok a -> a = flat_value codebk n0 n00 i.
Proof.
  intros H0 H00. rewrite flat_entry_unfold by assumption.
  unfold flat_value, coordinate, deref.
  destruct (codebk !! _) as [g |]; simpl; [| discriminate].
  destruct (g !! _) as [v |]; simpl; [| discriminate].
  intros Ha. inversion Ha. reflexivity.
Qed.

(** A group shorter than the first one makes the flattener throw. *)
Lemma flattenCodebook_short_group (codebk : Codebook N) g0 v0 :
  codebk !! 0 = Some g0 -> g0 !! 0 = Some v0 -> length v0 <> 0 ->
  Exists (fun g => length g < length g0) codebk ->
  flattenCodebook codebk = Err TypeError.
Proof.
  intros Hg0 Hv0 H00 Hex. apply Exists_exists in Hex. destruct Hex as (g & Hin & Hlt).
  apply list_elem_of_lookup in Hin. destruct Hin as [s Hs].
  unfold flattenCodebook, deref. rewrite Hg0. simpl. rewrite Hv0. simpl.
  apply from_length_err; [intros; apply flat_entry_TypeError |].
  exists ((s * length g0 + length g) * length v0 + 0).
  assert (H0 : length g0 <> 0) by lia.
  assert (Hd : 0 < length v0) by lia.
  split.
  - split; [lia |]. simpl. apply lookup_lt_Some in Hs.
    apply Nat.lt_le_trans with ((s * length g0 + length g + 1) * length v0); [lia |].
    apply Nat.mul_le_mono_r.
    apply Nat.le_trans with ((s + 1) * length g0); [lia |].
    apply Nat.mul_le_mono_r. lia.
  - rewrite flat_entry_unfold by assumption.
    destruct (row_major_index s (length g) 0 _ _ Hlt Hd) as (-> & -> & _).
    unfold deref. rewrite Hs. simpl. rewrite lookup_ge_None_2 by lia. reflexivity.
Qed.

(** X1.  The flattener returns a buffer exactly when the first centroid of
    the first group exists and either that centroid is empty or no group has
    fewer centroids than the first; the one exception it can throw is a
    [TypeError]. *)
Theorem X1_flatten_returns_iff (codebk : Codebook N) :
  ((exists flat, flattenCodebook codebk = Ok flat) <->
   exists g0 v0, codebk !! 0 = Some g0 /\ g0 !! 0 = Some v0 /\
                 (length v0 = 0 \/ Forall (fun g => length g0 <= length g) codebk)) /\
  (forall e, flattenCodebook codebk = Err e -> e = TypeError).
Proof.
  split; [split |].
  - intros [flat Hflat].
    destruct (codebk !! 0) as [g0 |] eqn:Hg0;
      [| unfold flattenCodebook, deref in Hflat; rewrite Hg0 in Hflat; discriminate].
    destruct (g0 !! 0) as [v0 |] eqn:Hv0;
      [| unfold flattenCodebook, deref in Hflat; rewrite Hg0 in Hflat; simpl in Hflat;
         rewrite Hv0 in Hflat; discriminate].
    exists g0, v0. split; [reflexivity |]. split; [exact Hv0 |].
    destruct (decide (length v0 = 0)) as [H00 | H00]; [left; exact H00 | right].
    destruct (decide (Forall (fun g => length g0 <= length g) codebk)) as [Hall | Hnot];
      [exact Hall | exfalso].
    apply not_Forall_Exists in Hnot; [| intros g; apply _].
    rewrite (flattenCodebook_short_group codebk g0 v0 Hg0 Hv0 H00) in Hflat;
      [discriminate |].
    eapply Exists_impl; [exact Hnot |]. simpl. intros g Hg. lia.
  - intros (g0 & v0 & Hg0 & Hv0 & [H00 | Hall]).
    + exists []. unfold flattenCodebook, deref. rewrite Hg0. simpl. rewrite Hv0. simpl.
      rewrite H00, Nat.mul_0_r. reflexivity.
    + eexists. apply (flattenCodebook_cells _ _ _ Hg0 Hv0 Hall).
  - intros e He. unfold flattenCodebook, deref in He.
    destruct (codebk !! 0) as [g0 |]; simpl in He; [| inversion He; reflexivity].
    destruct (g0 !! 0) as [v0 |]; simpl in He; [| inversion He; reflexivity].
    apply from_length_Err in He. destruct He as [i Hi].
    destruct (flat_entry_TypeError codebk (length g0) (length v0) i) as [Ht | [a Ha]];
      congruence.
Qed.

(** X2.  Whenever the flattener returns, the buffer has
    [codebk.length * codebk[0].length * codebk[0][0].length] cells, the size
    of the shape that [queryToTiledDist] declares for it, and its cell [i]
    holds, converted to float32, the coordinate at the row-major position of
    [i] for the dimensions of the first group and first centroid. *)
Theorem X2_flatten_cells (codebk : Codebook N) g0 v0 flat :
  flattenCodebook codebk = Ok flat ->
  codebk !! 0 = Some g0 -> g0 !! 0 = Some v0 ->
  length flat = length codebk * length g0 * length v0 /\
  forall i, i < length flat ->
            flat !! i = Some (flat_value codebk (length g0) (length v0) i).
Proof.
  intros Hflat Hg0 Hv0. unfold flattenCodebook, deref in Hflat.
  rewrite Hg0 in Hflat. simpl in Hflat. rewrite Hv0 in Hflat. simpl in Hflat.
  apply from_length_Ok in Hflat. destruct Hflat as [Hlen Hcells].
  split; [exact Hlen |]. intros i Hi. rewrite Hlen in Hi.
  destruct (Hcells i Hi) as (a & Ha & Hi'). simpl in Ha.
  destruct (row_major_bound _ _ _ _ Hi) as (_ & Hc & H00).
  assert (H0 : length g0 <> 0) by (intros E0; rewrite E0 in Hc; lia).
  rewrite Hi'. f_equal. apply flat_entry_Ok; assumption.
Qed.

Lemma rectangular_lookup (codebk : Codebook N) nc sd s g :
  rectangular codebk nc sd -> codebk !! s = Some g ->
  length g = nc /\ forall c v, g !! c = Some v -> length v = sd.
Proof.
  intros Hrect Hg. unfold rectangular in Hrect. rewrite Forall_lookup in Hrect.
  destruct (Hrect s g Hg) as [Hlen Hvs]. split; [exact Hlen |].
  intros c v Hv. rewrite Forall_lookup in Hvs. exact (Hvs c v Hv).
Qed.

Lemma rectangular_cell (codebk : Codebook N) nc sd s c d g v x flat :
  rectangular codebk nc sd ->
  flattenCodebook codebk = Ok flat ->
  codebk !! s = Some g -> g !! c = Some v -> v !! d = Some x ->
  flat !! ((s * nc + c) * sd + d) = Some (fround x).
Proof.
  intros Hrect Hflat Hg Hv Hx.
  destruct (rectangular_first _ _ _ _ _ _ _ _ _ Hrect Hg Hv Hx)
    as (g0 & v0 & Hg0 & Hv0 & Hn0 & Hn00 & Hall & Hc & Hd).
  rewrite (flattenCodebook_cells _ _ _ Hg0 Hv0 Hall) in Hflat.
  inversion Hflat; subst flat.
  assert (Hs : s < length codebk) by (eapply lookup_lt_Some; eauto).
  assert (Hi : (s * length g0 + c) * length v0 + d
               < length codebk * length g0 * length v0).
  { apply Nat.lt_le_trans with ((s * length g0 + c + 1) * length v0); [lia |].
    apply Nat.mul_le_mono_r.
    apply Nat.le_trans with ((s + 1) * length g0); [lia |].
    apply Nat.mul_le_mono_r. lia. }
  subst nc sd. rewrite list_lookup_fmap, lookup_seq_lt by exact Hi. simpl.
  unfold flat_value.
  destruct (row_major_index s c d (length g0) (length v0) Hc Hd) as (-> & -> & ->).
  unfold coordinate. rewrite Hg, Hv, Hx. reflexivity.
Qed.

(** X3.  The flattener loses nothing: two rectangular codebooks of the same
    dimensions whose coordinates are float32 values and which flatten to the
    same buffer are the same codebook. *)
Theorem X3_flatten_injective (cb1 cb2 : Codebook N) nc sd flat :
  rectangular cb1 nc sd -> rectangular cb2 nc sd ->
  length cb1 = length cb2 ->
  Forall (Forall (Forall (fun x => fround x = x))) cb1 ->
  Forall (Forall (Forall (fun x => fround x = x))) cb2 ->
  flattenCodebook cb1 = Ok flat -> flattenCodebook cb2 = Ok flat ->
  cb1 = cb2.
Proof.
  intros Hr1 Hr2 Hlen Hf1 Hf2 Hflat1 Hflat2.
  apply list_eq. intros s.
  destruct (cb1 !! s) as [g1 |] eqn:Hg1.
  2:{ symmetry. apply lookup_ge_None. apply lookup_ge_None in Hg1. lia. }
  destruct (lookup_lt_is_Some_2 cb2 s) as [g2 Hg2].
  { apply lookup_lt_Some in Hg1. lia. }
  rewrite Hg2. f_equal.
  destruct (rectangular_lookup _ _ _ _ _ Hr1 Hg1) as [Hl1 Hv1].
  destruct (rectangular_lookup _ _ _ _ _ Hr2 Hg2) as [Hl2 Hv2].
  apply list_eq. intros c.
  destruct (g1 !! c) as [v1 |] eqn:Hc1.
  2:{ symmetry. apply lookup_ge_None. apply lookup_ge_None in Hc1. lia. }
  destruct (lookup_lt_is_Some_2 g2 c) as [v2 Hc2].
  { apply lookup_lt_Some in Hc1. lia. }
  rewrite Hc2. f_equal.
  apply list_eq. intros d.
  destruct (v1 !! d) as [x1 |] eqn:Hd1.
  2:{ symmetry. apply lookup_ge_None. apply lookup_ge_None in Hd1.
      rewrite (Hv2 _ _ Hc2). rewrite (Hv1 _ _ Hc1) in Hd1. exact Hd1. }
  destruct (lookup_lt_is_Some_2 v2 d) as [x2 Hd2].
  { apply lookup_lt_Some in Hd1. rewrite (Hv2 _ _ Hc2).
    rewrite (Hv1 _ _ Hc1) in Hd1. exact Hd1. }
  rewrite Hd2. f_equal.
  pose proof (rectangular_cell _ _ _ _ _ _ _ _ _ _ Hr1 Hflat1 Hg1 Hc1 Hd1) as H1.
  pose proof (rectangular_cell _ _ _ _ _ _ _ _ _ _ Hr2 Hflat2 Hg2 Hc2 Hd2) as H2.
  rewrite H1 in H2. inversion H2 as [Hfx].
  rewrite Forall_lookup in Hf1, Hf2.
  pose proof (Hf1 _ _ Hg1) as Hf1'. pose proof (Hf2 _ _ Hg2) as Hf2'.
  rewrite Forall_lookup in Hf1', Hf2'.
  pose proof (Hf1' _ _ Hc1) as Hf1''. pose proof (Hf2' _ _ Hc2) as Hf2''.
  rewrite Forall_lookup in Hf1'', Hf2''.
  rewrite <- (Hf1'' _ _ Hd1), <- (Hf2'' _ _ Hd2). exact Hfx.
Qed.

End Flattener.

(** ** The monad of runs *)

Section Runs.

Context {N : Type} `{Number N} {TopK : Type}.

Implicit Types w : world N TopK.

Lemma wp_ret {A} (a : A) (Q : A -> world N TopK -> Prop) X w :
  Q a w -> wp (ret a) Q X w.
Proof. exact (fun HQ => HQ). Qed.

Lemma wp_bind {A B} (m : M N TopK A) (f : A -> M N TopK B) Q X w :
  wp m (fun a w' => wp (f a) Q X w') X w -> wp (bind m f) Q X w.
Proof. unfold wp, bind. destruct (m w); auto. Qed.

Lemma wp_mono {A} (m : M N TopK A) (Q Q' : A -> world N TopK -> Prop)
    (X X' : world N TopK -> Prop) w :
  (forall a w', Q a w' -> Q' a w') -> (forall w', X w' -> X' w') ->
  wp m Q X w -> wp m Q' X' w.
Proof. unfold wp. intros HQ HX. destruct (m w); auto. Qed.

Lemma wp_await {A} (r : result A) (Q : A -> world N TopK -> Prop) X w :
  (forall a, r = Ok a -> Q a w) -> (forall e, r = Err e -> X w) ->
  wp (await r) Q X w.
Proof. unfold wp, await. destruct r; eauto. Qed.

Lemma wp_emit (e : event N TopK) Q X w :
  Q tt (w_log [e] w) -> wp (emit e) Q X w.
Proof. exact (fun HQ => HQ). Qed.

Lemma wp_get_dists (Q : list N -> world N TopK -> Prop) X w :
  Q (w_dists w) w -> wp get_dists Q X w.
Proof. exact (fun HQ => HQ). Qed.

Lemma wp_out_of_fuel {A} (Q : A -> world N TopK -> Prop) X w :
  X w -> wp out_of_fuel Q X w.
Proof. exact (fun HX => HX). Qed.

Lemma wp_Date_now clock (Q : Z -> world N TopK -> Prop) X w :
  Q (clock (w_now w)) (w_tick w) -> wp (Date_now clock) Q X w.
Proof. exact (fun HQ => HQ). Qed.

Lemma wp_call_continueFn continueFn (Q : bool -> world N TopK -> Prop) X w :
  Q (continueFn (w_polls w)) (w_polled w) -> wp (call_continueFn continueFn) Q X w.
Proof. exact (fun HQ => HQ). Qed.

Lemma wp_world_of {A} (m : M N TopK A) (I : world N TopK -> Prop) w :
  wp m (fun _ => I) I w -> I (world_of (m w)).
Proof. unfold wp. destruct (m w); auto. Qed.

Lemma write_tile_eq ec off i (tile : list N) j n w :
  write_tile ec off i tile j n w =
  Ret tt {| w_now := w_now w; w_polls := w_polls w;
            w_dists := tile_dists off i tile j n (w_dists w);
            w_trace := w_trace w ++ tile_events ec off i tile j n |}.
Proof.
  revert j w. induction n as [| n IH]; intros j w.
  - unfold tile_events, tile_dists. simpl. rewrite app_nil_r. destruct w; reflexivity.
  - simpl. unfold bind, store. rewrite IH. simpl. unfold tile_events. simpl.
    rewrite <- app_assoc. reflexivity.
Qed.

Lemma wp_write_tile ec off i (tile : list N) j n (Q : unit -> world N TopK -> Prop) X w :
  Q tt {| w_now := w_now w; w_polls := w_polls w;
          w_dists := tile_dists off i tile j n (w_dists w);
          w_trace := w_trace w ++ tile_events ec off i tile j n |} ->
  wp (write_tile ec off i tile j n) Q X w.
Proof. unfold wp. rewrite write_tile_eq. exact (fun HQ => HQ). Qed.

Lemma wp_call_queryDist ec i sess (query codebook : list N) shape tile tshape
    (Q : list N -> world N TopK -> Prop) X w :
  (forall distTile,
      queryDist sess query codebook shape tile tshape = Ok distTile ->
      Q distTile (w_log [EKernel ec i (pq_feeds query codebook shape tile tshape)] w)) ->
  X (w_log [EKernel ec i (pq_feeds query codebook shape tile tshape)] w) ->
  wp (call_queryDist ec i sess query codebook shape tile tshape) Q X w.
Proof.
  intros HQ HX. unfold call_queryDist. apply wp_bind, wp_emit, wp_await; eauto.
Qed.

Lemma wp_call_distTopK site (sess : TopKSession N TopK) (dists fc : list N) fv fz fs k
    (Q : TopK -> world N TopK -> Prop) X w :
  (forall topk,
      distTopK sess dists fc fv fz fs k = Ok topk ->
      Q topk (w_log [ETopK site (topk_feeds dists fc fv fz fs k)] w)) ->
  X (w_log [ETopK site (topk_feeds dists fc fv fz fs k)] w) ->
  wp (call_distTopK site sess dists fc fv fz fs k) Q X w.
Proof.
  intros HQ HX. unfold call_distTopK. apply wp_bind, wp_emit, wp_await; eauto.
Qed.

End Runs.

(** One step of symbolic execution of a run. *)
Ltac wp_step :=
  lazymatch goal with
  | |- wp (bind _ _) _ _ _ => apply wp_bind
  | |- wp (ret _) _ _ _ => apply wp_ret
  | |- wp (Date_now _) _ _ _ => apply wp_Date_now
  | |- wp (emit _) _ _ _ => apply wp_emit
  | |- wp get_dists _ _ _ => apply wp_get_dists
  | |- wp (write_tile _ _ _ _ _ _) _ _ _ => apply wp_write_tile
  | |- wp out_of_fuel _ _ _ => apply wp_out_of_fuel
  | |- wp (call_continueFn _) _ _ _ => apply wp_call_continueFn
  end; cbv beta.

(** ** The scheduler *)

Section SchedulerProofs.

Context {N : Type} `{Number N} {TopK : Type}.

Variable clock : nat -> Z.
Variable continueFn : nat -> bool.
Variable E : Env.
Variable query : list N.
Variable codebk : Codebook N.
Variable codebkflat : list N.
Variable pqdistinf : PQSession N.
Variable firstLetters : list N.
Variable firstLetterInt : N.
Variable filteredtopkinf : TopKSession N TopK.
Variable k : Z.

Implicit Types w : world N TopK.
Implicit Types st : Locals.

Local Abbreviation chunk' :=
  (chunk clock E query codebk codebkflat pqdistinf firstLetters firstLetterInt
     filteredtopkinf k).
Local Abbreviation chunks' :=
  (chunks clock continueFn E query codebk codebkflat pqdistinf firstLetters
     firstLetterInt filteredtopkinf k).
Local Abbreviation shards' :=
  (shards clock continueFn E query codebk codebkflat pqdistinf firstLetters
     firstLetterInt filteredtopkinf k).
Local Abbreviation scan' :=
  (scan clock continueFn E query codebk codebkflat pqdistinf firstLetters
     firstLetterInt filteredtopkinf k).
Local Abbreviation finish' :=
  (finish continueFn firstLetters firstLetterInt filteredtopkinf k).
Local Abbreviation queryToTiledDist' :=
  (queryToTiledDist clock continueFn E query codebk codebkflat pqdistinf firstLetters
     firstLetterInt filteredtopkinf k).
Local Abbreviation scan_event' :=
  (scan_event (TopK := TopK) E firstLetters firstLetterInt k).
Local Abbreviation scan_extends' :=
  (scan_extends (TopK := TopK) E firstLetters firstLetterInt k).

(** *** One iteration of the inner loop, in closed form *)

Lemma chunk_eq cbs ec sh i st w :
  chunk' cbs ec sh i st w =
  match new_Uint8Array (u8_buffer (data sh)) (i * length codebk + u8_byteOffset (data sh))
          (chunkSize E * length codebk) with
  | Err e => Throw e (w_tick w)
  | Ok embeddingTile =>
      let kernel :=
        EKernel ec i (pq_feeds query codebkflat cbs embeddingTile
                        [chunkSize E; length codebk]) in
      match queryDist pqdistinf query codebkflat cbs embeddingTile
              [chunkSize E; length codebk] with
      | Err e => Throw e (w_log [kernel] (w_tick w))
      | Ok distTile =>
          let dists1 := tile_dists (offset sh) i distTile 0 (chunkSize E) (w_dists w) in
          let distTime := clock (S (w_now w)) in
          let timing1 :=
            timingStrings st ++ [string_of_Z (distTime - clock (w_now w))] in
          let body :=
            w_trace w
            ++ kernel :: tile_events ec (offset sh) i distTile 0 (chunkSize E)
            ++ [EDistanceUpdate dists1 (join timing1) (lastPaint st)] in
          if ((i =? 0) && (ec =? 0)) || (maxTick E <? distTime - lastPaint st)%Z
          then
            let feeds :=
              topk_feeds dists1 firstLetters firstLetterInt (of_Z 0) (of_Z 1024) k in
            let recompute := ETopK (InScan ec i distTime (lastPaint st)) feeds in
            match filteredtopkinf (topk_tensors feeds) with
            | Err e =>
                Throw e {| w_now := S (S (w_now w)); w_polls := w_polls w;
                           w_dists := dists1; w_trace := body ++ [recompute] |}
            | Ok topk =>
                Ret {| lastPaint := clock (S (S (S (w_now w))));
                       timingStrings :=
                         timing1
                         ++ [("-" ++ string_of_Z (clock (S (S (w_now w))) - distTime)
                              ++ " ")%string] |}
                    {| w_now := S (S (S (S (w_now w)))); w_polls := w_polls w;
                       w_dists := dists1;
                       w_trace := body ++ [recompute; ETopKUpdate topk; EYield] |}
            end
          else
            Ret {| lastPaint := lastPaint st; timingStrings := timing1 |}
                {| w_now := S (S (w_now w)); w_polls := w_polls w;
                   w_dists := dists1; w_trace := body |}
      end
  end.
Proof.
  unfold chunk, bind at 1. unfold Date_now at 1. cbv zeta.
  unfold bind at 1. unfold await at 1. simpl data.
  destruct (new_Uint8Array _ _ _) as [embeddingTile | e]; [| reflexivity].
  unfold bind at 1. unfold call_queryDist, bind at 1. unfold emit at 1.
  unfold await at 1.
  destruct (queryDist _ _ _ _ _ _) as [distTile | e]; [| reflexivity].
  unfold bind at 1. rewrite write_tile_eq.
  unfold bind at 1 2 3. unfold Date_now at 1. unfold get_dists at 1.
  unfold emit at 1. simpl w_now. simpl w_dists.
  destruct (_ || _).
  - unfold bind, Date_now, emit, call_distTopK, bind, emit, await, distTopK.
    simpl. destruct (filteredtopkinf _) as [topk | e]; simpl.
    + unfold ret, w_log, w_tick.
      repeat first [rewrite <- app_assoc | progress simpl]. reflexivity.
    + unfold w_log, w_tick.
      repeat first [rewrite <- app_assoc | progress simpl]. reflexivity.
  - unfold ret, w_log, w_tick.
    repeat first [rewrite <- app_assoc | progress simpl]. reflexivity.
Qed.

(** *** What a scan can emit *)

Lemma scan_extends_refl w : scan_extends' w w.
Proof. exists []. rewrite app_nil_r. split; [reflexivity | constructor]. Qed.

Lemma scan_extends_same w0 w w' :
  w_trace w' = w_trace w -> scan_extends' w0 w -> scan_extends' w0 w'.
Proof. intros Ht (l & El & Fl). exists l. rewrite Ht. auto. Qed.

Lemma scan_extends_log w0 w l :
  Forall scan_event' l -> scan_extends' w0 w -> scan_extends' w0 (w_log l w).
Proof.
  intros Fl (l0 & E0 & F0). exists (l0 ++ l). simpl.
  rewrite E0, app_assoc. split; [reflexivity | apply Forall_app; auto].
Qed.

Lemma scan_extends_emit w0 w e :
  scan_event' e -> scan_extends' w0 w -> scan_extends' w0 (w_log [e] w).
Proof. intros He. apply scan_extends_log. repeat constructor. exact He. Qed.

Lemma scan_extends_tick w0 w : scan_extends' w0 w -> scan_extends' w0 (w_tick w).
Proof. apply scan_extends_same. reflexivity. Qed.

Lemma scan_extends_polled w0 w : scan_extends' w0 w -> scan_extends' w0 (w_polled w).
Proof. apply scan_extends_same. reflexivity. Qed.

Lemma tile_events_scan ec off i (tile : list N) j n :
  Forall scan_event' (tile_events (TopK := TopK) ec off i tile j n).
Proof. unfold tile_events. apply Forall_map, Forall_forall. intros; constructor. Qed.

Lemma recompute_scan_event ec i distTime lp (dists : list N) :
  ((i =? 0) && (ec =? 0)) || (maxTick E <? distTime - lp)%Z = true ->
  scan_event' (ETopK (InScan ec i distTime lp)
                 (topk_feeds dists firstLetters firstLetterInt (of_Z 0) (of_Z 1024) k)).
Proof.
  intros Hcond. constructor. apply orb_prop in Hcond. destruct Hcond as [Hc | Hc].
  - left. apply andb_prop in Hc. destruct Hc as [Hi He].
    apply Nat.eqb_eq in Hi, He. auto.
  - right. apply Z.ltb_lt in Hc. exact Hc.
Qed.

Lemma chunk_scan_extends cbs ec sh i st w0 w :
  scan_extends' w0 w ->
  wp (chunk' cbs ec sh i st) (fun _ => scan_extends' w0) (scan_extends' w0) w.
Proof.
  intros Hw. unfold chunk. cbv zeta.
  do 2 wp_step.
  assert (H1 : scan_extends' w0 (w_tick w)) by (apply scan_extends_tick; exact Hw).
  wp_step. apply wp_await; [intros tile _ | auto].
  wp_step.
  apply wp_call_queryDist;
    [intros distTile _ | apply scan_extends_emit; [constructor | exact H1]].
  do 2 wp_step.
  match goal with |- wp _ _ _ ?w3 => assert (H3 : scan_extends' w0 w3) end.
  { eapply (scan_extends_same _
              (w_log (tile_events _ _ _ _ _ _) (w_log [_] (w_tick w))));
      [reflexivity |].
    apply scan_extends_log; [apply tile_events_scan |].
    apply scan_extends_emit; [constructor | exact H1]. }
  do 6 wp_step.
  match goal with |- wp _ _ _ ?w4 => assert (H4 : scan_extends' w0 w4) end.
  { apply scan_extends_emit; [constructor |].
    apply scan_extends_tick. exact H3. }
  destruct (_ || _) eqn:Hcond.
  - wp_step.
    pose proof (fun d => recompute_scan_event _ _ _ _ d Hcond) as Hev.
    apply wp_call_distTopK; [intros topk _ |].
    + do 8 wp_step.
      apply scan_extends_tick.
      apply scan_extends_emit; [constructor |].
      apply scan_extends_emit; [constructor |].
      apply scan_extends_tick.
      apply scan_extends_emit; [apply Hev | exact H4].
    + apply scan_extends_emit; [apply Hev | exact H4].
  - wp_step. exact H4.
Qed.

Lemma chunks_unfold fuel cbs ec sh i st :
  chunks' fuel cbs ec sh i st =
  if js_lt i (js_div (u8_length (data sh)) (length codebk))
  then
    bind (call_continueFn continueFn) (fun go : bool =>
      if go
      then match fuel with
           | 0 => out_of_fuel
           | S fuel' =>
               bind (chunk' cbs ec sh i st) (fun st' =>
                 chunks' fuel' cbs ec sh (i + chunkSize E) st')
           end
      else ret st)
  else ret st.
Proof. destruct fuel; reflexivity. Qed.

Lemma shards_cons fuel cbs ec sh rest st :
  shards' fuel cbs ec (sh :: rest) st =
  bind (chunks' fuel cbs ec sh 0 st) (fun st' => shards' fuel cbs (S ec) rest st').
Proof. reflexivity. Qed.

Lemma chunks_scan_extends fuel cbs ec sh i st w0 w :
  scan_extends' w0 w ->
  wp (chunks' fuel cbs ec sh i st) (fun _ => scan_extends' w0) (scan_extends' w0) w.
Proof.
  revert i st w. induction fuel as [| fuel IH]; intros i st w Hw;
    rewrite chunks_unfold; (destruct (js_lt _ _); [| wp_step; exact Hw]);
    do 2 wp_step; apply scan_extends_polled in Hw;
    (destruct (continueFn _); [| wp_step; exact Hw]).
  - wp_step. exact Hw.
  - wp_step. eapply wp_mono; [| | apply chunk_scan_extends; exact Hw].
    + intros st' w' Hw'. apply IH. exact Hw'.
    + auto.
Qed.

Lemma shards_scan_extends fuel cbs ec rest st w0 w :
  scan_extends' w0 w ->
  wp (shards' fuel cbs ec rest st) (fun _ => scan_extends' w0) (scan_extends' w0) w.
Proof.
  revert ec st w. induction rest as [| sh rest IH]; intros ec st w Hw; simpl.
  - wp_step. exact Hw.
  - wp_step. eapply wp_mono; [| | apply chunks_scan_extends; exact Hw].
    + intros st' w' Hw'. apply IH. exact Hw'.
    + auto.
Qed.

Lemma scan_scan_extends fuel embeddings ec w :
  wp (scan' fuel embeddings ec) (fun _ => scan_extends' w) (scan_extends' w) w.
Proof.
  assert (H1 : scan_extends' w (w_tick w))
    by apply scan_extends_tick, scan_extends_refl.
  unfold scan. do 3 wp_step. apply wp_await; [intros g0 _ | auto].
  wp_step. apply wp_await; [intros v0 _ | auto].
  cbv zeta. apply shards_scan_extends. exact H1.
Qed.

(** The scan only appends to the trace, and only events of the scan. *)
Lemma scan_trace fuel embeddings ec w :
  scan_extends' w (world_of (scan' fuel embeddings ec w)).
Proof. apply (wp_world_of _ (scan_extends' w)), scan_scan_extends. Qed.

(** *** The end of a run (lines 91-94) *)

Lemma finish_eq st w :
  finish' st w =
  if continueFn (w_polls w)
  then
    let feeds := topk_feeds (w_dists w) firstLetters firstLetterInt
                   (of_Z 0) (of_Z 1024) k in
    match filteredtopkinf (topk_tensors feeds) with
    | Ok topk =>
        Ret tt (w_log [ETopK AtEnd feeds;
                       EFinal (w_dists w) (join (timingStrings st)) topk]
                  (w_polled w))
    | Err e => Throw e (w_log [ETopK AtEnd feeds] (w_polled w))
    end
  else Ret tt (w_polled w).
Proof.
  unfold finish, bind, call_continueFn, call_distTopK, bind, emit, get_dists, await,
    distTopK.
  destruct (continueFn _); [| reflexivity]. cbv zeta. simpl.
  destruct (filteredtopkinf _); [| reflexivity].
  unfold w_log. simpl. rewrite <- app_assoc. reflexivity.
Qed.

Lemma queryToTiledDist_eq fuel embeddings ec w :
  queryToTiledDist' fuel embeddings ec w =
  match scan' fuel embeddings ec w with
  | Ret st w1 => finish' st w1
  | Throw e w1 => Throw e w1
  | OutOfFuel w1 => OutOfFuel w1
  end.
Proof. reflexivity. Qed.

(** Every trace is a scan followed by at most the final invocation and the
    final event. *)
Lemma run_trace fuel embeddings ec w :
  exists l tail,
    w_trace (world_of (queryToTiledDist' fuel embeddings ec w)) = w_trace w ++ l ++ tail /\
    Forall scan_event' l /\
    (tail = [] \/
     exists dists,
       let feeds := topk_feeds dists firstLetters firstLetterInt (of_Z 0) (of_Z 1024) k in
       tail = [ETopK AtEnd feeds] \/
       exists distTime topk, tail = [ETopK AtEnd feeds; EFinal dists distTime topk]).
Proof.
  rewrite queryToTiledDist_eq.
  destruct (scan_trace fuel embeddings ec w) as (l & El & Fl).
  destruct (scan' fuel embeddings ec w) as [st w1 | e w1 | w1]; simpl in El.
  - rewrite finish_eq. destruct (continueFn _).
    + cbv zeta. destruct (filteredtopkinf _) as [topk | e]; simpl; rewrite El.
      * exists l, [ETopK AtEnd (topk_feeds (w_dists w1) firstLetters firstLetterInt
                                   (of_Z 0) (of_Z 1024) k);
                     EFinal (w_dists w1) (join (timingStrings st)) topk].
        rewrite <- app_assoc. split; [reflexivity |]. split; [exact Fl |].
        right. exists (w_dists w1). right. eauto.
      * exists l, [ETopK AtEnd (topk_feeds (w_dists w1) firstLetters firstLetterInt
                                   (of_Z 0) (of_Z 1024) k)].
        rewrite <- app_assoc. split; [reflexivity |]. split; [exact Fl |].
        right. exists (w_dists w1). left. reflexivity.
    + simpl. exists l, []. rewrite app_nil_r. auto.
  - simpl. exists l, []. rewrite app_nil_r. auto.
  - simpl. exists l, []. rewrite app_nil_r. auto.
Qed.

(** C10.  Every invocation of the top-k engine in a run, inside the scan or
    at its end, is fed [filterZero = 0] and [filterShim = 1024], whatever the
    caller passes to [queryToTiledDist]. *)
Theorem C10_fixed_filter_constants fuel embeddings embeddingCounter (dists : list N)
    site feeds :
  ETopK site feeds
    ∈ w_trace (world_of (queryToTiledDist' fuel embeddings embeddingCounter
                            (init_world dists))) ->
  tk_filterZero feeds = of_Z 0 /\ tk_filterShim feeds = of_Z 1024.
Proof.
  destruct (run_trace fuel embeddings embeddingCounter (init_world dists))
    as (l & tail & -> & Fl & Htail).
  simpl. intros Hin. apply elem_of_app in Hin. destruct Hin as [Hin | Hin].
  - rewrite Forall_forall in Fl. specialize (Fl _ Hin). inversion Fl. auto.
  - destruct Htail as [-> | [d [-> | (t & topk & ->)]]].
    + inversion Hin.
    + apply list_elem_of_singleton in Hin. inversion Hin. auto.
    + apply elem_of_cons in Hin. destruct Hin as [Hin | Hin].
      * inversion Hin. auto.
      * apply list_elem_of_singleton in Hin. discriminate Hin.
Qed.

(** C3.  When the scan has gone through all shards and chunks and the
    predicate then reports continue, the run ends (the engine answering) with
    one invocation of the engine on the distance array as the scan left it and
    one combined event carrying that array and the fresh top-k; it is the only
    such event of the run.  Neither the clock nor [maxTick] plays a part. *)
Theorem C3_final_combined_event fuel embeddings embeddingCounter (dists : list N)
    st w1 topk :
  scan' fuel embeddings embeddingCounter (init_world dists) = Ret st w1 ->
  continueFn (w_polls w1) = true ->
  distTopK filteredtopkinf (w_dists w1) firstLetters firstLetterInt
    (of_Z 0) (of_Z 1024) k = Ok topk ->
  let final := EFinal (w_dists w1) (join (timingStrings st)) topk in
  exists w2,
    queryToTiledDist' fuel embeddings embeddingCounter (init_world dists) = Ret tt w2 /\
    w_trace w2 =
      w_trace w1
      ++ [ETopK AtEnd (topk_feeds (w_dists w1) firstLetters firstLetterInt
                         (of_Z 0) (of_Z 1024) k);
          final] /\
    List.filter is_final (w_trace w2) = [final].
Proof.
  intros Hscan Hgo Htopk final.
  pose proof (scan_trace fuel embeddings embeddingCounter (init_world dists)) as Hext.
  rewrite Hscan in Hext. destruct Hext as (l & El & Fl). simpl in El.
  rewrite queryToTiledDist_eq, Hscan, finish_eq, Hgo. cbv zeta.
  unfold distTopK in Htopk. rewrite Htopk.
  eexists. split; [reflexivity |]. split; [reflexivity |].
  simpl. rewrite El, List.filter_app. simpl.
  assert (Hnone : List.filter is_final l = []).
  { clear El. induction Fl as [| e l He Fl IH]; [reflexivity |].
    simpl. destruct He; simpl; exact IH. }
  rewrite Hnone. reflexivity.
Qed.

(** C9.  On the empty shard list no kernel call is made and the distance
    array is left as it was; with a codebook whose first centroid exists, a
    predicate that reports continue and an engine that answers, the run is
    exactly one invocation of the engine on the untouched array followed by
    the combined final event with its result. *)
Theorem C9_empty_shard_list fuel embeddingCounter (dists : list N) :
  let o := queryToTiledDist' fuel [] embeddingCounter (init_world dists) in
  (w_dists (world_of o) = dists /\
   forall e, e ∈ w_trace (world_of o) -> footprint e = None) /\
  forall g0 v0 topk,
    codebk !! 0 = Some g0 -> g0 !! 0 = Some v0 ->
    continueFn 0 = true ->
    distTopK filteredtopkinf dists firstLetters firstLetterInt
      (of_Z 0) (of_Z 1024) k = Ok topk ->
    o = Ret tt
          {| w_now := 1; w_polls := 1; w_dists := dists;
             w_trace :=
               [ETopK AtEnd (topk_feeds dists firstLetters firstLetterInt
                               (of_Z 0) (of_Z 1024) k);
                EFinal dists "" topk] |}.
Proof.
  intros o.
  assert (Ho : o =
    match deref codebk 0 with
    | Ok g0 =>
        match deref g0 0 with
        | Ok v0 => finish' {| lastPaint := clock 0; timingStrings := [] |}
                     (w_tick (init_world dists))
        | Err e => Throw e (w_tick (init_world dists))
        end
    | Err e => Throw e (w_tick (init_world dists))
    end).
  { unfold o. rewrite queryToTiledDist_eq. unfold scan, bind, Date_now, await.
    simpl. destruct (deref codebk 0) as [g0 | e]; [| reflexivity].
    destruct (deref g0 0) as [v0 | e]; [| reflexivity].
    rewrite drop_nil. reflexivity. }
  split.
  - rewrite Ho. destruct (deref codebk 0) as [g0 | e]; [| split; [reflexivity |]; inversion 1].
    destruct (deref g0 0) as [v0 | e]; [| split; [reflexivity |]; inversion 1].
    rewrite finish_eq. simpl. destruct (continueFn 0); [| split; [reflexivity |]; inversion 1].
    destruct (filteredtopkinf _); simpl; (split; [reflexivity |]);
      intros e' He; repeat (apply elem_of_cons in He; destruct He as [-> | He]);
      try reflexivity; inversion He.
  - intros g0 v0 topk Hg0 Hv0 Hgo Htopk. rewrite Ho. unfold deref.
    rewrite Hg0, Hv0, finish_eq. simpl. rewrite Hgo.
    unfold distTopK in Htopk. rewrite Htopk. reflexivity.
Qed.

(** Whatever follows a point of the run only appends to the trace. *)
Lemma trace_grows_bind {A B} (m : M N TopK A) (f : A -> M N TopK B) :
  (forall w, exists l, w_trace (world_of (m w)) = w_trace w ++ l) ->
  (forall a w, exists l, w_trace (world_of (f a w)) = w_trace w ++ l) ->
  forall w, exists l, w_trace (world_of (bind m f w)) = w_trace w ++ l.
Proof.
  intros Hm Hf w. unfold bind. destruct (Hm w) as [l1 E1].
  destruct (m w) as [a w1 | e w1 | w1]; simpl in E1; [| eauto | eauto].
  destruct (Hf a w1) as [l2 E2]. exists (l1 ++ l2).
  rewrite E2, E1, app_assoc. reflexivity.
Qed.

Lemma chunks_grows fuel cbs ec sh i st w :
  exists l, w_trace (world_of (chunks' fuel cbs ec sh i st w)) = w_trace w ++ l.
Proof.
  destruct (wp_world_of _ _ _
              (chunks_scan_extends fuel cbs ec sh i st w w (scan_extends_refl w)))
    as (l & El & _).
  eauto.
Qed.

Lemma shards_grows fuel cbs ec rest st w :
  exists l, w_trace (world_of (shards' fuel cbs ec rest st w)) = w_trace w ++ l.
Proof.
  destruct (wp_world_of _ _ _
              (shards_scan_extends fuel cbs ec rest st w w (scan_extends_refl w)))
    as (l & El & _).
  eauto.
Qed.

Lemma finish_grows st w :
  exists l, w_trace (world_of (finish' st w)) = w_trace w ++ l.
Proof.
  rewrite finish_eq. destruct (continueFn (w_polls w)).
  - cbv zeta. destruct (filteredtopkinf _); simpl; eauto.
  - exists []. simpl. rewrite app_nil_r. reflexivity.
Qed.

Lemma rest_of_run_grows fuel cbs ec sh i st rest w :
  exists l,
    w_trace (world_of
               (bind (bind (chunks' fuel cbs ec sh i st)
                        (fun st' => shards' (S fuel) cbs (S ec) rest st'))
                  finish' w))
    = w_trace w ++ l.
Proof.
  apply trace_grows_bind; [apply trace_grows_bind |].
  - intros w'. apply chunks_grows.
  - intros st' w'. apply shards_grows.
  - intros st' w'. apply finish_grows.
Qed.

(** *** The first chunk of shard 0 *)

Section FirstChunk.

Variable shard : Shard.
Variable rest : list Shard.
Variable dists : list N.
Variables (g0 : list (list N)) (v0 : list N).
Variable embeddingTile : Uint8Array.
Variable distTile : list N.

Hypothesis codebk_0 : codebk !! 0 = Some g0.
Hypothesis codebk_0_0 : g0 !! 0 = Some v0.
Hypothesis shard_not_empty :
  js_lt 0 (js_div (u8_length (data shard)) (length codebk)) = true.
Hypothesis first_poll : continueFn 0 = true.
Hypothesis tile_fits :
  new_Uint8Array (u8_buffer (data shard)) (0 * length codebk + u8_byteOffset (data shard))
    (chunkSize E * length codebk) = Ok embeddingTile.
Hypothesis kernel_answers :
  queryDist pqdistinf query codebkflat [length codebk; length g0; length v0]
    embeddingTile [chunkSize E; length codebk] = Ok distTile.

Local Abbreviation dists1 := (first_dists E shard dists distTile).
Local Abbreviation feeds1 :=
  (first_feeds E firstLetters firstLetterInt k shard dists distTile).
Local Abbreviation timing1 := [string_of_Z (clock 2 - clock 1)].
Local Abbreviation head1 :=
  (first_head (TopK := TopK) clock E query codebk codebkflat firstLetters
     firstLetterInt k shard dists g0 v0 embeddingTile distTile).

Lemma first_chunk_eq :
  chunk' [length codebk; length g0; length v0] 0 shard 0
    {| lastPaint := clock 0; timingStrings := [] |}
    (w_polled (w_tick (init_world dists))) =
  match filteredtopkinf (topk_tensors feeds1) with
  | Ok topk =>
      Ret {| lastPaint := clock 4;
             timingStrings :=
               timing1 ++ [("-" ++ string_of_Z (clock 3 - clock 2) ++ " ")%string] |}
          {| w_now := 5; w_polls := 1; w_dists := dists1;
             w_trace := head1 ++ [ETopKUpdate topk; EYield] |}
  | Err e =>
      Throw e {| w_now := 3; w_polls := 1; w_dists := dists1; w_trace := head1 |}
  end.
Proof.
  unfold chunk, bind at 1. unfold Date_now at 1. cbv zeta.
  unfold bind at 1. unfold await at 1. simpl data. rewrite tile_fits.
  unfold bind at 1. unfold call_queryDist, bind at 1. unfold emit at 1.
  unfold await at 1. rewrite kernel_answers.
  unfold bind at 1. rewrite write_tile_eq.
  unfold bind, Date_now, get_dists, emit, call_distTopK, bind, emit, await, distTopK.
  simpl. fold dists1. fold feeds1.
  destruct (filteredtopkinf (topk_tensors feeds1)) as [topk | e]; simpl.
  - unfold first_head, w_log. simpl. rewrite <- ?app_assoc. reflexivity.
  - unfold first_head, w_log. simpl. rewrite <- ?app_assoc. reflexivity.
Qed.

(** A run that starts at shard 0 begins with [head1]; when the engine
    answers, the update and the yield follow at once. *)
Lemma first_chunk_prefix fuel :
  let o := queryToTiledDist' (S fuel) (shard :: rest) 0 (init_world dists) in
  match filteredtopkinf (topk_tensors feeds1) with
  | Ok topk =>
      exists later, w_trace (world_of o) = head1 ++ [ETopKUpdate topk; EYield] ++ later
  | Err e =>
      o = Throw e {| w_now := 3; w_polls := 1; w_dists := dists1; w_trace := head1 |}
  end.
Proof.
  intros o.
  assert (Ho : o =
    bind (bind (bind (chunk' [length codebk; length g0; length v0] 0 shard 0
                        {| lastPaint := clock 0; timingStrings := [] |})
                  (fun st' => chunks' fuel [length codebk; length g0; length v0] 0
                                shard (0 + chunkSize E) st'))
            (fun st' => shards' (S fuel) [length codebk; length g0; length v0] 1
                          rest st'))
      finish' (w_polled (w_tick (init_world dists)))).
  { unfold o. rewrite queryToTiledDist_eq. unfold scan.
    unfold bind at 1. unfold Date_now at 1.
    unfold bind at 1. unfold await at 1, deref at 1. rewrite codebk_0.
    unfold bind at 1. unfold await at 1, deref at 1. rewrite codebk_0_0.
    cbv zeta. rewrite drop_0, shards_cons. unfold bind at 1.
    rewrite chunks_unfold, shard_not_empty.
    unfold bind at 1. unfold call_continueFn at 1.
    change (w_polls (w_tick (init_world dists))) with 0. rewrite first_poll.
    reflexivity. }
  destruct (filteredtopkinf (topk_tensors feeds1)) as [topk | e] eqn:Hengine;
    rewrite Ho; clear Ho o; unfold bind at 1 2 3; rewrite first_chunk_eq, Hengine;
    [| reflexivity].
  match goal with
  | |- context [chunks' fuel ?c ?e ?s ?i ?st ?w] =>
      destruct (rest_of_run_grows fuel c e s i st rest w) as [later Hlater]
  end.
  exists later. refine (eq_trans Hlater _).
  simpl. rewrite <- !app_assoc. reflexivity.
Qed.

End FirstChunk.

(** Inside the scan the engine is invoked at chunk 0 of shard 0 or when the
    kernel finished more than [maxTick] after [lastPaint], and never else. *)
Lemma recompute_only_when fuel embeddings embeddingCounter (dists : list N)
    ec i distTime lp feeds :
  ETopK (InScan ec i distTime lp) feeds
    ∈ w_trace (world_of (queryToTiledDist' fuel embeddings embeddingCounter
                            (init_world dists))) ->
  (i = 0 /\ ec = 0) \/ (maxTick E < distTime - lp)%Z.
Proof.
  destruct (run_trace fuel embeddings embeddingCounter (init_world dists))
    as (l & tail & -> & Fl & Htail).
  simpl. intros Hin. apply elem_of_app in Hin. destruct Hin as [Hin | Hin].
  - rewrite Forall_forall in Fl. specialize (Fl _ Hin). inversion Fl. assumption.
  - destruct Htail as [-> | [d [-> | (t & topk & ->)]]].
    + inversion Hin.
    + apply list_elem_of_singleton in Hin. discriminate Hin.
    + apply elem_of_cons in Hin. destruct Hin as [Hin | Hin]; [discriminate Hin |].
      apply list_elem_of_singleton in Hin. discriminate Hin.
Qed.

(** X17.  The unconditional recomputation belongs to chunk 0 of shard 0
    (line 81): in a run that starts at shard 0, whose first shard is
    not empty and whose first poll reports continue, the first chunk's stores
    and distance update are followed at once by an invocation of the engine on
    the array as populated so far and, the engine answering, by the top-k
    update and the yield, whatever the clock and [maxTick].  In every run, a
    recomputation inside the scan at any other chunk happens only when the
    kernel finished more than [maxTick] after [lastPaint]. *)
Theorem X17_recomputation_at_chunk_0_of_shard_0 fuel embeddings embeddingCounter
    (dists : list N) :
  let o := queryToTiledDist' fuel embeddings embeddingCounter (init_world dists) in
  (forall ec i distTime lp feeds,
      ETopK (InScan ec i distTime lp) feeds ∈ w_trace (world_of o) ->
      (i = 0 /\ ec = 0) \/ (maxTick E < distTime - lp)%Z) /\
  (forall fuel' shard rest g0 v0 embeddingTile distTile topk,
      fuel = S fuel' -> embeddings = shard :: rest -> embeddingCounter = 0 ->
      codebk !! 0 = Some g0 -> g0 !! 0 = Some v0 ->
      js_lt 0 (js_div (u8_length (data shard)) (length codebk)) = true ->
      continueFn 0 = true ->
      new_Uint8Array (u8_buffer (data shard))
        (0 * length codebk + u8_byteOffset (data shard))
        (chunkSize E * length codebk) = Ok embeddingTile ->
      queryDist pqdistinf query codebkflat [length codebk; length g0; length v0]
        embeddingTile [chunkSize E; length codebk] = Ok distTile ->
      let dists1 := tile_dists (offset shard) 0 distTile 0 (chunkSize E) dists in
      distTopK filteredtopkinf dists1 firstLetters firstLetterInt
        (of_Z 0) (of_Z 1024) k = Ok topk ->
      exists later,
        w_trace (world_of o) =
        (EKernel 0 0 (pq_feeds query codebkflat [length codebk; length g0; length v0]
                        embeddingTile [chunkSize E; length codebk])
         :: tile_events 0 (offset shard) 0 distTile 0 (chunkSize E)
         ++ [EDistanceUpdate dists1 (join [string_of_Z (clock 2 - clock 1)]) (clock 0);
             ETopK (InScan 0 0 (clock 2) (clock 0))
               (topk_feeds dists1 firstLetters firstLetterInt (of_Z 0) (of_Z 1024) k)])
        ++ [ETopKUpdate topk; EYield] ++ later).
Proof.
  intros o. split.
  - intros ec i distTime lp feeds. apply recompute_only_when.
  - intros fuel' shard rest g0 v0 embeddingTile distTile topk -> -> ->
      Hg0 Hv0 Hne Hpoll Htile Hkernel dists1 Hengine.
    pose proof (first_chunk_prefix shard rest dists g0 v0 embeddingTile distTile
                  Hg0 Hv0 Hne Hpoll Htile Hkernel fuel') as Hprefix.
    cbv zeta in Hprefix. unfold distTopK in Hengine.
    unfold first_feeds, first_dists in Hprefix. fold dists1 in Hprefix.
    rewrite Hengine in Hprefix. exact Hprefix.
Qed.

(** C8, as the code has it.  [k] is not looked at before the scan: for every
    [k], non-positive or not, a run over a non-empty first shard makes the
    first chunk's kernel call, its stores into the distance array and its
    distance update, and only then hands [k], unchanged, to [distTopK], which
    feeds it to the top-k engine as a [uint8] tensor; an engine that rejects
    it makes the run fail there, with the engine's own exception. *)
Theorem C8_k_first_read_by_the_engine fuel shard rest (dists : list N)
    g0 v0 embeddingTile distTile :
  codebk !! 0 = Some g0 -> g0 !! 0 = Some v0 ->
  js_lt 0 (js_div (u8_length (data shard)) (length codebk)) = true ->
  continueFn 0 = true ->
  new_Uint8Array (u8_buffer (data shard))
    (0 * length codebk + u8_byteOffset (data shard))
    (chunkSize E * length codebk) = Ok embeddingTile ->
  queryDist pqdistinf query codebkflat [length codebk; length g0; length v0]
    embeddingTile [chunkSize E; length codebk] = Ok distTile ->
  let o := queryToTiledDist' (S fuel) (shard :: rest) 0 (init_world dists) in
  let dists1 := tile_dists (offset shard) 0 distTile 0 (chunkSize E) dists in
  let feeds := topk_feeds dists1 firstLetters firstLetterInt (of_Z 0) (of_Z 1024) k in
  let head :=
    EKernel 0 0 (pq_feeds query codebkflat [length codebk; length g0; length v0]
                   embeddingTile [chunkSize E; length codebk])
    :: tile_events 0 (offset shard) 0 distTile 0 (chunkSize E)
    ++ [EDistanceUpdate dists1 (join [string_of_Z (clock 2 - clock 1)]) (clock 0);
        ETopK (InScan 0 0 (clock 2) (clock 0)) feeds] in
  tk_k feeds = k /\
  (exists later, w_trace (world_of o) = head ++ later) /\
  (forall e, distTopK filteredtopkinf dists1 firstLetters firstLetterInt
               (of_Z 0) (of_Z 1024) k = Err e ->
             o = Throw e {| w_now := 3; w_polls := 1; w_dists := dists1;
                            w_trace := head |}).
Proof.
  intros Hg0 Hv0 Hne Hpoll Htile Hkernel o dists1 feeds head.
  pose proof (first_chunk_prefix shard rest dists g0 v0 embeddingTile distTile
                Hg0 Hv0 Hne Hpoll Htile Hkernel fuel) as Hprefix.
  cbv zeta in Hprefix. unfold first_head, first_feeds, first_dists in Hprefix.
  fold dists1 in Hprefix. fold feeds in Hprefix.
  fold head in Hprefix. fold o in Hprefix.
  split; [reflexivity |]. split.
  - destruct (filteredtopkinf (topk_tensors feeds)) as [topk | e].
    + destruct Hprefix as [later ->]. eauto.
    + rewrite Hprefix. exists []. simpl. rewrite app_nil_r. reflexivity.
  - intros e He. unfold distTopK in He. fold dists1 in He. fold feeds in He.
    rewrite He in Hprefix. exact Hprefix.
Qed.

(** *** After a stop that lasts *)

Section Stopped.

Local Abbreviation stopped := (stopped (TopK := TopK) continueFn).

Lemma stopped_chunks fuel cbs ec sh i st w :
  stopped w ->
  exists w', chunks' fuel cbs ec sh i st w = Ret st w' /\
             w_trace w' = w_trace w /\ w_dists w' = w_dists w /\ stopped w'.
Proof.
  intros Hstop. rewrite chunks_unfold. destruct (js_lt _ _).
  - unfold bind, call_continueFn. rewrite Hstop by lia.
    eexists. split; [reflexivity |]. repeat split.
    intros n Hn. apply Hstop. simpl in Hn. lia.
  - exists w. auto.
Qed.

Lemma stopped_shards fuel cbs rest ec st w :
  stopped w ->
  exists w', shards' fuel cbs ec rest st w = Ret st w' /\
             w_trace w' = w_trace w /\ w_dists w' = w_dists w /\ stopped w'.
Proof.
  revert ec w. induction rest as [| sh rest IH]; intros ec w Hstop.
  - exists w. auto.
  - rewrite shards_cons. unfold bind.
    destruct (stopped_chunks fuel cbs ec sh 0 st w Hstop) as (w1 & -> & Ht1 & Hd1 & Hs1).
    destruct (IH (S ec) w1 Hs1) as (w2 & -> & Ht2 & Hd2 & Hs2).
    exists w2. repeat split; [congruence | congruence | exact Hs2].
Qed.

(** Once the predicate reports stop and keeps doing so, the rest of the run,
    taken at the head of the inner loop, calls no kernel, stores nothing,
    emits nothing and makes no final recomputation. *)
Lemma stopped_rest_of_run fuel cbs ec sh i st rest w :
  stopped w ->
  exists w',
    bind (bind (chunks' fuel cbs ec sh i st)
            (fun st' => shards' fuel cbs (S ec) rest st'))
      finish' w = Ret tt w' /\
    w_trace w' = w_trace w /\ w_dists w' = w_dists w.
Proof.
  intros Hstop. unfold bind.
  destruct (stopped_chunks fuel cbs ec sh i st w Hstop) as (w1 & -> & Ht1 & Hd1 & Hs1).
  destruct (stopped_shards fuel cbs rest (S ec) st w1 Hs1) as (w2 & -> & Ht2 & Hd2 & Hs2).
  rewrite finish_eq, Hs2 by lia.
  eexists. split; [reflexivity |]. simpl. split; congruence.
Qed.

End Stopped.

(** *** Recomputation sites of a trace *)

Lemma topk_sites_app (a b : list (event N TopK)) :
  topk_sites (a ++ b) = topk_sites a ++ topk_sites b.
Proof. apply omap_app. Qed.

Lemma topk_sites_tile ec off i (tile : list N) j n :
  topk_sites (tile_events (TopK := TopK) ec off i tile j n) = [].
Proof.
  unfold tile_events. generalize (seq j n). intros l.
  induction l as [| x l IH]; [reflexivity | exact IH].
Qed.

Lemma topk_sites_body (t : list (event N TopK)) ec i feeds off (tile : list N) n d s lp :
  topk_sites (t ++ EKernel ec i feeds :: tile_events ec off i tile 0 n
                ++ [EDistanceUpdate d s lp])
  = topk_sites t.
Proof.
  rewrite topk_sites_app. change (topk_sites (EKernel ec i feeds :: ?l)) with (topk_sites l).
  rewrite topk_sites_app, topk_sites_tile. simpl. apply app_nil_r.
Qed.

(** *** Invariants of the scan, in general *)

Section Invariant.

Variable Q : Locals -> world N TopK -> Prop.
Variable X : world N TopK -> Prop.

Hypothesis Q_X : forall st w, Q st w -> X w.
Hypothesis Q_polled : forall st w, Q st w -> Q st (w_polled w).
Hypothesis Q_chunk :
  forall cbs ec sh i st w, Q st w -> wp (chunk' cbs ec sh i st) Q X w.

Lemma chunks_invariant fuel cbs ec sh i st w :
  Q st w -> wp (chunks' fuel cbs ec sh i st) Q X w.
Proof.
  revert i st w. induction fuel as [| fuel IH]; intros i st w Hw;
    rewrite chunks_unfold; (destruct (js_lt _ _); [| wp_step; exact Hw]);
    do 2 wp_step; apply Q_polled in Hw;
    (destruct (continueFn _); [| wp_step; exact Hw]).
  - wp_step. apply (Q_X _ _ Hw).
  - wp_step. eapply wp_mono; [| | apply Q_chunk; exact Hw].
    + intros st' w' Hw'. apply IH. exact Hw'.
    + auto.
Qed.

Lemma shards_invariant fuel cbs ec rest st w :
  Q st w -> wp (shards' fuel cbs ec rest st) Q X w.
Proof.
  revert ec st w. induction rest as [| sh rest IH]; intros ec st w Hw.
  - simpl. wp_step. exact Hw.
  - rewrite shards_cons. wp_step.
    eapply wp_mono; [| | apply chunks_invariant; exact Hw].
    + intros st' w' Hw'. apply IH. exact Hw'.
    + auto.
Qed.

Lemma scan_invariant fuel embeddings ec w :
  Q {| lastPaint := clock (w_now w); timingStrings := [] |} (w_tick w) ->
  wp (scan' fuel embeddings ec) Q X w.
Proof.
  intros Hw. unfold scan. do 3 wp_step.
  apply wp_await; [intros g0 _ | intros _ _; exact (Q_X _ _ Hw)].
  wp_step. apply wp_await; [intros v0 _ | intros _ _; exact (Q_X _ _ Hw)].
  cbv zeta. apply shards_invariant. exact Hw.
Qed.

End Invariant.

(** *** Every update publishes the recomputation just made *)

Lemma update_sites_tile p ec off i (tile : list N) j n (t : list (event N TopK)) :
  update_sites p (tile_events ec off i tile j n ++ t) = update_sites p t.
Proof.
  unfold tile_events. generalize (seq j n). intros l.
  induction l as [| x l IH]; [reflexivity | exact IH].
Qed.

Lemma update_sites_body ec i feeds off (tile : list N) n d s lp
    (t : list (event N TopK)) w :
  settled w ->
  update_sites None
    ((w_trace w ++ EKernel ec i feeds :: tile_events ec off i tile 0 n
      ++ [EDistanceUpdate d s lp]) ++ t)
  = topk_sites (w_trace w) ++ update_sites None t.
Proof.
  intros Hw. rewrite <- app_assoc, Hw. f_equal. simpl.
  rewrite <- app_assoc, update_sites_tile. reflexivity.
Qed.

Lemma settled_X w :
  settled w ->
  exists rest, topk_sites (w_trace w) = update_sites None (w_trace w) ++ rest.
Proof.
  intros Hw. exists []. rewrite app_nil_r.
  rewrite <- (app_nil_r (w_trace w)) at 2. rewrite Hw, app_nil_r. reflexivity.
Qed.

Lemma chunk_settled cbs ec sh i st w :
  settled w ->
  wp (chunk' cbs ec sh i st) (fun _ => settled)
     (fun w' => exists rest,
          topk_sites (w_trace w') = update_sites None (w_trace w') ++ rest) w.
Proof.
  intros Hw. unfold wp. rewrite chunk_eq.
  destruct (new_Uint8Array _ _ _) as [tile | e]; [| apply settled_X; exact Hw].
  cbv zeta. destruct (queryDist _ _ _ _ _ _) as [distTile | e].
  2:{ exists []. simpl. rewrite Hw, topk_sites_app. simpl.
      rewrite ?app_nil_r. reflexivity. }
  destruct (_ || _).
  - destruct (filteredtopkinf _) as [topk | e].
    + intros t'. simpl w_trace.
      rewrite topk_sites_app, topk_sites_body, <- app_assoc.
      rewrite update_sites_body by exact Hw.
      simpl. rewrite <- app_assoc. reflexivity.
    + exists [(ec, i, clock (S (w_now w)))]. simpl w_trace.
      rewrite topk_sites_app, topk_sites_body.
      rewrite update_sites_body by exact Hw.
      simpl. rewrite app_nil_r. reflexivity.
  - intros t'. simpl w_trace.
    rewrite topk_sites_body. apply update_sites_body. exact Hw.
Qed.

(** The updates of a run are its recomputations, but for a last one whose
    engine call failed. *)
Lemma updates_are_recomputations fuel embeddings embeddingCounter (dists : list N) :
  exists rest,
    topk_sites (w_trace (world_of (queryToTiledDist' fuel embeddings embeddingCounter
                                     (init_world dists))))
    = update_sites None
        (w_trace (world_of (queryToTiledDist' fuel embeddings embeddingCounter
                              (init_world dists))))
      ++ rest.
Proof.
  pose proof (scan_invariant (fun _ => settled) _ (fun _ => settled_X)
                (fun _ w Hw => Hw) (fun cbs ec sh i st => chunk_settled cbs ec sh i st)
                fuel embeddings embeddingCounter (init_world dists)
                (fun t' => eq_refl)) as Hscan.
  rewrite queryToTiledDist_eq. unfold wp in Hscan.
  destruct (scan' fuel embeddings embeddingCounter (init_world dists))
    as [st w1 | e w1 | w1]; [| exact Hscan | exact Hscan].
  rewrite finish_eq.
  destruct (continueFn (w_polls w1)); [| apply settled_X; exact Hscan].
  cbv zeta. exists [].
  destruct (filteredtopkinf _); simpl;
    rewrite Hscan, topk_sites_app; simpl; rewrite ?app_nil_r; reflexivity.
Qed.

(** *** The cadence of the recomputations *)

Lemma cadence_snoc l ec i t :
  cadence E l ->
  (forall ec' i' t', last l = Some (ec', i', t') ->
                     (i = 0 /\ ec = 0) \/ (maxTick E <= t - t')%Z) ->
  cadence E (l ++ [(ec, i, t)]).
Proof.
  intros Hl Hlast pre eca ia ta ecb ib tb post Heq.
  destruct post as [| p post _] using rev_ind.
  - change (pre ++ [(eca, ia, ta); (ecb, ib, tb)])
      with (pre ++ [(eca, ia, ta)] ++ [(ecb, ib, tb)]) in Heq.
    rewrite app_assoc in Heq. apply app_inj_tail in Heq.
    destruct Heq as [-> Hb]. inversion Hb; subst.
    apply (Hlast eca ia ta). apply last_snoc.
  - change (pre ++ (eca, ia, ta) :: (ecb, ib, tb) :: post ++ [p])
      with (pre ++ ((eca, ia, ta) :: (ecb, ib, tb) :: post) ++ [p]) in Heq.
    rewrite app_assoc in Heq. apply app_inj_tail in Heq.
    destruct Heq as [-> _]. eapply Hl. reflexivity.
Qed.

Section Cadence.

Hypothesis clock_monotone : forall m n, m <= n -> (clock m <= clock n)%Z.

Lemma chunk_paced cbs ec sh i st w :
  paced clock E st w ->
  wp (chunk' cbs ec sh i st) (paced clock E)
     (fun w' => cadence E (topk_sites (w_trace w'))) w.
Proof.
  intros (Hcad & (j & Hj & Hlp) & Hlast). unfold wp. rewrite chunk_eq.
  destruct (new_Uint8Array _ _ _) as [tile | e]; [| exact Hcad].
  cbv zeta. destruct (queryDist _ _ _ _ _ _) as [distTile | e].
  2:{ simpl. rewrite topk_sites_app. simpl. rewrite app_nil_r. exact Hcad. }
  assert (Hsnoc : forall t, (clock (S (w_now w)) <= t)%Z ->
            ((i =? 0) && (ec =? 0)) || (maxTick E <? clock (S (w_now w)) - lastPaint st)%Z
              = true ->
            cadence E (topk_sites (w_trace w) ++ [(ec, i, clock (S (w_now w)))])).
  { intros t _ Hcond. apply cadence_snoc; [exact Hcad |].
    intros ec' i' t' Hl. specialize (Hlast _ _ _ Hl).
    apply orb_prop in Hcond. destruct Hcond as [Hc | Hc].
    - left. apply andb_prop in Hc. destruct Hc as [Hi He].
      apply Nat.eqb_eq in Hi, He. auto.
    - right. apply Z.ltb_lt in Hc. lia. }
  destruct (_ || _) eqn:Hcond.
  - destruct (filteredtopkinf _) as [topk | e].
    + unfold paced. simpl. rewrite topk_sites_app, topk_sites_body. simpl.
      split; [apply (Hsnoc (clock (S (w_now w)))); [lia | reflexivity] |].
      split; [exists (S (S (S (w_now w)))); split; [lia | reflexivity] |].
      intros ec' i' t' Hl. rewrite last_snoc in Hl. inversion Hl; subst.
      apply clock_monotone. lia.
    + simpl. rewrite topk_sites_app, topk_sites_body. simpl.
      apply (Hsnoc (clock (S (w_now w)))); [lia | reflexivity].
  - unfold paced. simpl. rewrite topk_sites_body.
    split; [exact Hcad |]. split; [exists j; split; [lia | exact Hlp] | exact Hlast].
Qed.

Lemma paced_polled st w : paced clock E st w -> paced clock E st (w_polled w).
Proof. exact (fun Hw => Hw). Qed.

(** The recomputations of a run keep the cadence. *)
Lemma recomputations_paced fuel embeddings embeddingCounter (dists : list N) :
  cadence E (topk_sites (w_trace (world_of (queryToTiledDist' fuel embeddings
                                              embeddingCounter (init_world dists))))).
Proof.
  assert (Hscan : wp (scan' fuel embeddings embeddingCounter) (paced clock E)
                    (fun w' => cadence E (topk_sites (w_trace w')))
                    (init_world dists)).
  { apply scan_invariant.
    - intros st w Hw. apply Hw.
    - exact paced_polled.
    - exact chunk_paced.
    - split; [| split].
      + intros pre ? ? ? ? ? ? ? Heq. destruct pre; discriminate Heq.
      + exists 0. split; [simpl; lia | reflexivity].
      + intros ec i t Hl. discriminate Hl. }
  rewrite queryToTiledDist_eq. unfold wp in Hscan.
  destruct (scan' fuel embeddings embeddingCounter (init_world dists))
    as [st w1 | e w1 | w1]; [| exact Hscan | exact Hscan].
  destruct Hscan as (Hcad & _). rewrite finish_eq.
  destruct (continueFn (w_polls w1)); [| exact Hcad].
  cbv zeta. destruct (filteredtopkinf _); simpl;
    rewrite topk_sites_app; simpl; rewrite app_nil_r; exact Hcad.
Qed.

(** C6 (cadence).  With a clock that does not run backwards, any two
    consecutive top-k updates of the scan, the second of which is not the
    unconditional one of chunk 0 of shard 0, have kernel-completion times at
    least [maxTick] apart; the final combined event is not one of them. *)
Theorem C6_monotone_cadence fuel embeddings embeddingCounter (dists : list N)
    pre eca ia ta ecb ib tb post :
  update_sites None
    (w_trace (world_of (queryToTiledDist' fuel embeddings embeddingCounter
                          (init_world dists))))
  = pre ++ (eca, ia, ta) :: (ecb, ib, tb) :: post ->
  (ib = 0 /\ ecb = 0) \/ (maxTick E <= tb - ta)%Z.
Proof.
  intros Hupd.
  destruct (updates_are_recomputations fuel embeddings embeddingCounter dists)
    as [rest Hrest].
  apply (recomputations_paced fuel embeddings embeddingCounter dists
           pre eca ia ta ecb ib tb (post ++ rest)).
  rewrite Hrest, Hupd, <- app_assoc. reflexivity.
Qed.

End Cadence.

(** *** Coverage of the item space *)

Lemma bind_Ret {A B} (m : M N TopK A) (f : A -> M N TopK B) w b w2 :
  bind m f w = Ret b w2 -> exists a w1, m w = Ret a w1 /\ f a w1 = Ret b w2.
Proof.
  unfold bind. destruct (m w) as [a w1 | e w1 | w1]; [eauto | discriminate ..].
Qed.

Lemma footprint_tile ec off i (tile : list N) n :
  omap footprint (tile_events (TopK := TopK) ec off i tile 0 n)
  = map (fun j => (ec, i, Some (off + i + j))) (seq 0 n).
Proof.
  unfold tile_events. generalize (seq 0 n). intros l.
  induction l as [| x l IH]; [reflexivity |]. simpl. f_equal. exact IH.
Qed.

Lemma chunk_footprints cbs ec sh i st w st' w' :
  chunk' cbs ec sh i st w = Ret st' w' ->
  omap footprint (w_trace w')
  = omap footprint (w_trace w) ++ chunk_footprint ec (offset sh) i (chunkSize E).
Proof.
  rewrite chunk_eq.
  destruct (new_Uint8Array _ _ _) as [tile | e]; [| discriminate].
  cbv zeta. destruct (queryDist _ _ _ _ _ _) as [distTile | e]; [| discriminate].
  assert (Hbody : forall d s lp (tail : list (event N TopK)),
            omap footprint tail = [] ->
            omap footprint
              ((w_trace w
                ++ EKernel ec i (pq_feeds query codebkflat cbs tile
                                   [chunkSize E; length codebk])
                   :: tile_events ec (offset sh) i distTile 0 (chunkSize E)
                   ++ [EDistanceUpdate d s lp]) ++ tail)
            = omap footprint (w_trace w)
              ++ chunk_footprint ec (offset sh) i (chunkSize E)).
  { intros d s lp tail Htail. rewrite !omap_app, Htail, app_nil_r.
    f_equal. simpl. rewrite omap_app, footprint_tile. simpl.
    rewrite app_nil_r. reflexivity. }
  destruct (_ || _).
  - destruct (filteredtopkinf _) as [topk | e]; [| discriminate].
    intros Heq. inversion Heq; subst. simpl. apply Hbody. reflexivity.
  - intros Heq. inversion Heq; subst. simpl.
    rewrite <- (app_nil_r (_ ++ _ :: _)). apply Hbody. reflexivity.
Qed.

Section Coverage.

Hypothesis never_cancelled : forall n, continueFn n = true.
Hypothesis codebk_not_empty : length codebk <> 0.

Lemma shard_footprint_step ec off cs c m :
  shard_footprint ec off cs c (S m)
  = chunk_footprint ec off (c * cs) cs ++ shard_footprint ec off cs (S c) m.
Proof. reflexivity. Qed.

Lemma chunks_footprints fuel cbs ec sh m :
  u8_length (data sh) = m * chunkSize E * length codebk ->
  (chunkSize E = 0 -> m = 0) ->
  forall c st w st' w',
    c <= m ->
    chunks' fuel cbs ec sh (c * chunkSize E) st w = Ret st' w' ->
    omap footprint (w_trace w')
    = omap footprint (w_trace w)
      ++ shard_footprint ec (offset sh) (chunkSize E) c (m - c).
Proof.
  intros Hlen Hcs. induction fuel as [| fuel IH]; intros c st w st' w' Hc;
    rewrite chunks_unfold, js_lt_js_div, Hlen by exact codebk_not_empty;
    (destruct (Nat.ltb_spec (c * chunkSize E * length codebk)
                 (m * chunkSize E * length codebk)) as [Hlt | Hge];
     [| intros Heq; inversion Heq; subst;
        assert (Hm : m - c = 0) by
          (destruct (decide (chunkSize E = 0)) as [H0 | H0];
           [specialize (Hcs H0); lia
           | apply Nat.mul_le_mono_pos_r in Hge; [| lia];
             apply Nat.mul_le_mono_pos_r in Hge; lia]);
        rewrite Hm; simpl; rewrite app_nil_r; reflexivity]);
    unfold bind at 1; unfold call_continueFn at 1; rewrite never_cancelled.
  - discriminate.
  - intros Hrun. apply bind_Ret in Hrun. destruct Hrun as (st1 & w1 & Hchunk & Hrest).
    apply chunk_footprints in Hchunk. simpl in Hchunk.
    assert (Hcm : c < m).
    { destruct (Nat.lt_ge_cases c m) as [Hcm | Hcm]; [exact Hcm | exfalso].
      assert (m * chunkSize E * length codebk <= c * chunkSize E * length codebk)
        by (apply Nat.mul_le_mono_r, Nat.mul_le_mono_r; exact Hcm).
      lia. }
    replace (c * chunkSize E + chunkSize E) with (S c * chunkSize E) in Hrest by lia.
    apply IH in Hrest; [| lia].
    rewrite Hrest, Hchunk.
    replace (m - c) with (S (m - S c)) by lia.
    rewrite shard_footprint_step, app_assoc. reflexivity.
Qed.

Lemma chunked_shard (sh : Shard) :
  (exists m, u8_length (data sh) = m * chunkSize E * length codebk) ->
  let m := items codebk sh / chunkSize E in
  u8_length (data sh) = m * chunkSize E * length codebk /\
  (chunkSize E = 0 -> m = 0) /\
  m * chunkSize E = items codebk sh.
Proof.
  intros [m' Hm'] m. unfold m, items. rewrite Hm'.
  rewrite Nat.div_mul by exact codebk_not_empty.
  destruct (decide (chunkSize E = 0)) as [H0 | H0].
  - rewrite H0. simpl. rewrite !Nat.mul_0_r. repeat split; auto.
  - rewrite Nat.div_mul by exact H0. repeat split; [intros H1; contradiction].
Qed.

Lemma shards_footprints fuel cbs rest :
  chunked E codebk rest ->
  forall ec st w st' w',
    shards' fuel cbs ec rest st w = Ret st' w' ->
    omap footprint (w_trace w')
    = omap footprint (w_trace w) ++ scan_footprint codebk (chunkSize E) ec rest.
Proof.
  induction 1 as [| sh rest Hsh Hrest IH]; intros ec st w st' w' Hrun.
  - inversion Hrun; subst. simpl. rewrite app_nil_r. reflexivity.
  - rewrite shards_cons in Hrun. apply bind_Ret in Hrun.
    destruct Hrun as (st1 & w1 & Hchunks & Hshards).
    destruct (chunked_shard sh Hsh) as (Hlen & Hcs & _).
    apply (chunks_footprints fuel cbs ec sh _ Hlen Hcs 0) in Hchunks; [| lia].
    apply IH in Hshards. rewrite Hshards, Hchunks, Nat.sub_0_r.
    simpl. rewrite app_assoc. reflexivity.
Qed.

Lemma run_footprints fuel embeddings (dists : list N) w' :
  chunked E codebk embeddings ->
  queryToTiledDist' fuel embeddings 0 (init_world dists) = Ret tt w' ->
  omap footprint (w_trace w') = scan_footprint codebk (chunkSize E) 0 embeddings.
Proof.
  intros Hchunked. rewrite queryToTiledDist_eq.
  destruct (scan' fuel embeddings 0 (init_world dists)) as [st w1 | e w1 | w1] eqn:Hscan;
    [| discriminate ..].
  assert (H1 : omap footprint (w_trace w1)
               = scan_footprint codebk (chunkSize E) 0 embeddings).
  { unfold scan in Hscan.
    apply bind_Ret in Hscan. destruct Hscan as (t0 & w0 & Hnow & Hscan).
    inversion Hnow; subst.
    apply bind_Ret in Hscan. destruct Hscan as (g0 & w0 & Hg0 & Hscan).
    unfold await in Hg0. destruct (deref codebk 0); inversion Hg0; subst.
    apply bind_Ret in Hscan. destruct Hscan as (v0 & w0 & Hv0 & Hscan).
    unfold await in Hv0. destruct (deref g0 0); inversion Hv0; subst.
    rewrite drop_0 in Hscan.
    apply (shards_footprints _ _ _ Hchunked) in Hscan. exact Hscan. }
  rewrite finish_eq. destruct (continueFn (w_polls w1)).
  - cbv zeta. destruct (filteredtopkinf _); [| discriminate].
    intros Heq. inversion Heq; subst. simpl.
    rewrite omap_app. simpl. rewrite app_nil_r. exact H1.
  - intros Heq. inversion Heq; subst. exact H1.
Qed.

End Coverage.

(** *** Enough fuel: a run over well-formed shards returns *)

(** With a codebook and a tile of the sizes their shapes declare, [queryDist]
    is the session run on the tensors. *)
Lemma queryDist_sized (sess : PQSession N) (q codebook : list N) shape tile tshape :
  length codebook = tensor_size shape ->
  u8_length tile = tensor_size tshape ->
  queryDist sess q codebook shape tile tshape
  = sess (pq_feeds (float32s q) (float32s codebook) shape tile tshape).
Proof.
  intros Hc Ht. unfold queryDist, new_Tensor.
  rewrite Hc, Ht, !Nat.eqb_refl. reflexivity.
Qed.

Lemma tensor_size_tile cs cb : cs * cb = tensor_size [cs; cb].
Proof. unfold tensor_size. simpl. lia. Qed.

Lemma tensor_size_codebook a b c : a * b * c = tensor_size [a; b; c].
Proof. unfold tensor_size. simpl. lia. Qed.

Section Completion.

Hypothesis kernel_answers : forall feeds, exists distTile, pqdistinf feeds = Ok distTile.
Hypothesis engine_answers : forall feeds, exists topk, filteredtopkinf feeds = Ok topk.

Lemma chunk_returns cbs ec sh i st w :
  length codebkflat = tensor_size cbs ->
  u8_byteOffset (data sh) + (i + chunkSize E) * length codebk
    <= length (u8_buffer (data sh)) ->
  exists st' w', chunk' cbs ec sh i st w = Ret st' w'.
Proof.
  intros Hflat Hfit. rewrite chunk_eq. unfold new_Uint8Array.
  destruct (Nat.leb_spec (i * length codebk + u8_byteOffset (data sh)
                          + chunkSize E * length codebk)
              (length (u8_buffer (data sh)))) as [_ | Hgt]; [| lia].
  cbv zeta. rewrite queryDist_sized by (exact Hflat || apply tensor_size_tile).
  destruct (kernel_answers (pq_feeds (float32s query) (float32s codebkflat) cbs
              {| u8_buffer := u8_buffer (data sh);
                 u8_byteOffset := i * length codebk + u8_byteOffset (data sh);
                 u8_length := chunkSize E * length codebk |}
              [chunkSize E; length codebk])) as [distTile ->].
  destruct (_ || _); [| eauto].
  match goal with
  | |- context [filteredtopkinf ?f] => destruct (engine_answers f) as [topk ->]
  end.
  eauto.
Qed.

Lemma chunks_return fuel cbs ec sh m :
  length codebkflat = tensor_size cbs ->
  length codebk <> 0 ->
  u8_length (data sh) = m * chunkSize E * length codebk ->
  (chunkSize E = 0 -> m = 0) ->
  u8_byteOffset (data sh) + u8_length (data sh) <= length (u8_buffer (data sh)) ->
  forall c st w,
    c <= m -> m - c <= fuel ->
    exists st' w', chunks' fuel cbs ec sh (c * chunkSize E) st w = Ret st' w'.
Proof.
  intros Hflat Hcb Hlen Hcs Hview.
  induction fuel as [| fuel IH]; intros c st w Hc Hfuel;
    rewrite chunks_unfold, js_lt_js_div, Hlen by exact Hcb;
    (destruct (Nat.ltb_spec (c * chunkSize E * length codebk)
                 (m * chunkSize E * length codebk)) as [Hlt | Hge]; [| eauto]);
    (assert (Hcm : c < m);
     [destruct (Nat.lt_ge_cases c m) as [Hcm | Hcm]; [exact Hcm | exfalso];
      assert (m * chunkSize E * length codebk <= c * chunkSize E * length codebk)
        by (apply Nat.mul_le_mono_r, Nat.mul_le_mono_r; exact Hcm);
      lia |]);
    [lia |].
  unfold bind at 1. unfold call_continueFn at 1.
  destruct (continueFn (w_polls w)); [| eauto].
  unfold bind.
  destruct (chunk_returns cbs ec sh (c * chunkSize E) st (w_polled w) Hflat)
    as (st1 & w1 & ->).
  { rewrite Hlen in Hview.
    assert ((c * chunkSize E + chunkSize E) * length codebk
            <= m * chunkSize E * length codebk).
    { apply Nat.mul_le_mono_r.
      replace (c * chunkSize E + chunkSize E) with (S c * chunkSize E) by lia.
      apply Nat.mul_le_mono_r. lia. }
    lia. }
  replace (c * chunkSize E + chunkSize E) with (S c * chunkSize E) by lia.
  apply IH; lia.
Qed.

(** Enough fuel gives the result: over shards whose item counts are multiples
    of the chunk size and whose views lie inside their buffers, with a codebook
    whose first centroid exists, a flat codebook of the size that the
    codebook's shape declares and sessions that answer, a run with as much
    fuel as the largest shard has chunks returns, whatever the predicate. *)
Lemma run_completes fuel embeddings embeddingCounter (dists : list N) g0 v0 :
  codebk !! 0 = Some g0 -> g0 !! 0 = Some v0 ->
  length codebkflat = length codebk * length g0 * length v0 ->
  chunked E codebk embeddings ->
  Forall (fun sh => u8_byteOffset (data sh) + u8_length (data sh)
                    <= length (u8_buffer (data sh))) embeddings ->
  Forall (fun sh => items codebk sh / chunkSize E <= fuel) embeddings ->
  exists w', queryToTiledDist' fuel embeddings embeddingCounter (init_world dists)
             = Ret tt w'.
Proof.
  intros Hg0 Hv0 Hflat Hchunked Hviews Hfuel.
  rewrite tensor_size_codebook in Hflat.
  assert (Hcb : length codebk <> 0) by (apply lookup_lt_Some in Hg0; lia).
  assert (Hshards : forall rest cbs ec st w,
            length codebkflat = tensor_size cbs ->
            chunked E codebk rest ->
            Forall (fun sh => u8_byteOffset (data sh) + u8_length (data sh)
                              <= length (u8_buffer (data sh))) rest ->
            Forall (fun sh => items codebk sh / chunkSize E <= fuel) rest ->
            exists st' w', shards' fuel cbs ec rest st w = Ret st' w').
  { induction rest as [| sh rest IH]; intros cbs ec st w Hsize Hc Hv Hf;
      [simpl; eauto |].
    apply Forall_cons in Hc, Hv, Hf.
    destruct Hc as [Hc Hcs], Hv as [Hv Hvs], Hf as [Hf Hfs].
    destruct (chunked_shard Hcb sh Hc) as (Hlen & Hzero & _).
    rewrite shards_cons. unfold bind.
    destruct (chunks_return fuel cbs ec sh _ Hsize Hcb Hlen Hzero Hv 0 st w)
      as (st1 & w1 & Hrun); [lia | lia |].
    simpl in Hrun. rewrite Hrun. apply IH; assumption. }
  rewrite queryToTiledDist_eq. unfold scan, bind, Date_now, await, deref.
  rewrite Hg0, Hv0. cbv zeta.
  destruct (Hshards (drop embeddingCounter embeddings)
              [length codebk; length g0; length v0] embeddingCounter
              {| lastPaint := clock 0; timingStrings := [] |}
              (w_tick (init_world dists)))
    as (st1 & w1 & Hrun);
    [exact Hflat | apply Forall_drop; exact Hchunked | apply Forall_drop; exact Hviews
    | apply Forall_drop; exact Hfuel |].
  simpl w_now. rewrite Hrun, finish_eq.
  destruct (continueFn (w_polls w1)); [| eauto].
  cbv zeta.
  match goal with
  | |- context [filteredtopkinf ?f] => destruct (engine_answers f) as [topk ->]
  end.
  eauto.
Qed.

End Completion.

Lemma writers_footprint idx (t : list (event N TopK)) :
  writers idx t = omap (pick idx) (omap footprint t).
Proof.
  unfold writers. induction t as [| e t IH]; [reflexivity |].
  destruct e; simpl; try exact IH.
  destruct (idx0 =? idx); [f_equal |]; exact IH.
Qed.

Lemma run_Ret_codebk fuel embeddings ec w w' :
  queryToTiledDist' fuel embeddings ec w = Ret tt w' -> length codebk <> 0.
Proof.
  intros Hrun Hlen. destruct codebk; [| discriminate Hlen]. discriminate Hrun.
Qed.

(** C1 (full coverage, no overlap).  In a run that is never cancelled and
    completes, over shards whose item counts are multiples of [chunkSize] and
    whose item ranges partition [0, totalItems): every index below
    [totalItems] is stored into exactly once, by one chunk call; a chunk call
    at in-shard index [i] stores only into
    [offset + i, offset + i + chunkSize), and into all of it. *)
Theorem C1_full_coverage_no_overlap fuel embeddings totalItems (dists : list N) w' :
  (forall n, continueFn n = true) ->
  chunked E codebk embeddings ->
  partitions codebk embeddings totalItems ->
  queryToTiledDist' fuel embeddings 0 (init_world dists) = Ret tt w' ->
  (forall idx, idx < totalItems ->
               exists ec i, writers idx (w_trace w') = [(ec, i)]) /\
  (forall ec i idx v,
      EWrite ec i idx v ∈ w_trace w' ->
      exists shard, embeddings !! ec = Some shard /\
                    offset shard + i <= idx < offset shard + i + chunkSize E) /\
  (forall ec i feeds shard idx,
      EKernel ec i feeds ∈ w_trace w' ->
      embeddings !! ec = Some shard ->
      offset shard + i <= idx < offset shard + i + chunkSize E ->
      exists v, EWrite ec i idx v ∈ w_trace w').
Proof.
  intros Hcont Hchunked [Hcover Hdisj] Hrun.
  pose proof (run_Ret_codebk _ _ _ _ _ Hrun) as Hcb.
  pose proof (run_footprints Hcont Hcb _ _ _ _ Hchunked Hrun) as HF.
  assert (Hitems : forall p sh, embeddings !! p = Some sh ->
            items codebk sh / chunkSize E * chunkSize E = items codebk sh).
  { intros p sh Hp. unfold chunked in Hchunked. rewrite Forall_forall in Hchunked.
    apply (chunked_shard Hcb sh). apply Hchunked.
    apply list_elem_of_lookup. eauto. }
  split; [| split].
  - intros idx Hidx. rewrite writers_footprint, HF. apply pick_unique.
    + rewrite written_scan. apply ranges_NoDup.
      intros p1 p2 sh1 sh2 idx' H1 H2 Hx1 Hx2.
      rewrite (Hitems _ _ H1) in Hx1. rewrite (Hitems _ _ H2) in Hx2.
      exact (Hdisj p1 p2 sh1 sh2 idx' H1 H2 Hx1 Hx2).
    + rewrite written_scan. apply ranges_elem.
      apply Hcover in Hidx. destruct Hidx as (p & sh & Hp & Hx).
      exists p, sh. split; [exact Hp |]. rewrite (Hitems _ _ Hp). exact Hx.
  - intros ec i idx v Hin.
    assert (HinF : (ec, i, Some idx) ∈ omap footprint (w_trace w')).
    { apply list_elem_of_omap. exists (EWrite ec i idx v). auto. }
    rewrite HF in HinF. apply scan_footprint_elem in HinF.
    destruct HinF as (p & sh & c & Hp & Hc & Hx).
    apply chunk_footprint_elem in Hx.
    destruct Hx as [Hx | (j & Hj & Hx)]; inversion Hx; subst.
    exists sh. split; [exact Hp | lia].
  - intros ec i feeds shard idx Hin Hshard Hrange.
    assert (HinF : (ec, i, None) ∈ omap footprint (w_trace w')).
    { apply list_elem_of_omap. exists (EKernel ec i feeds). auto. }
    rewrite HF in HinF. apply scan_footprint_elem in HinF.
    destruct HinF as (p & sh & c & Hp & Hc & Hx).
    apply chunk_footprint_elem in Hx.
    destruct Hx as [Hx | (j & Hj & Hx)]; inversion Hx; subst.
    simpl in Hshard. rewrite Hp in Hshard. inversion Hshard; subst.
    assert (HinW : (0 + p, c * chunkSize E, Some idx)
                   ∈ omap footprint (w_trace w')).
    { rewrite HF. apply scan_footprint_elem. exists p, shard, c.
      split; [exact Hp |]. split; [exact Hc |].
      apply chunk_footprint_elem. right.
      exists (idx - (offset shard + c * chunkSize E)).
      split; [lia |]. do 2 f_equal. lia. }
    apply list_elem_of_omap in HinW. destruct HinW as (e & He & Hfp).
    destruct e; simpl in Hfp; inversion Hfp; subst. eauto.
Qed.

(** *** A run cancelled before it starts *)

(** X9.  When the predicate reports stop at every poll, a run over any shard
    list (with a codebook whose first centroid exists) returns normally
    having called no kernel, stored nothing and emitted nothing: no distance
    update, no top-k, no final event. *)
Theorem X9_cancelled_from_the_start fuel embeddings embeddingCounter (dists : list N)
    g0 v0 :
  (forall n, continueFn n = false) ->
  codebk !! 0 = Some g0 -> g0 !! 0 = Some v0 ->
  exists w',
    queryToTiledDist' fuel embeddings embeddingCounter (init_world dists) = Ret tt w' /\
    w_trace w' = [] /\ w_dists w' = dists.
Proof.
  intros Hstop Hg0 Hv0.
  rewrite queryToTiledDist_eq. unfold scan, bind, Date_now, await, deref.
  rewrite Hg0, Hv0. cbv zeta.
  match goal with
  | |- context [shards' fuel ?c ?e ?r ?st ?w] =>
      destruct (stopped_shards fuel c r e st w) as (w1 & Hrun & Ht & Hd & _)
  end.
  { intros n _. apply Hstop. }
  rewrite Hrun, finish_eq, Hstop.
  eexists. split; [reflexivity |]. simpl. rewrite Ht, Hd. auto.
Qed.

(** *** The distance array is the stores replayed *)

Lemma replay_app (a b : list (event N TopK)) (d : list N) :
  replay (a ++ b) d = replay b (replay a d).
Proof. apply foldl_app. Qed.

Lemma replay_tile ec off i (tile : list N) j n (d : list N) :
  replay (tile_events (TopK := TopK) ec off i tile j n) d = tile_dists off i tile j n d.
Proof.
  unfold tile_events, tile_dists, replay. generalize (seq j n). intros l.
  revert d. induction l as [| x l IH]; intros d; [reflexivity | apply IH].
Qed.

Lemma current_app (a b : list (event N TopK)) (d : list N) :
  current d (a ++ b) <-> current d a /\ current (replay a d) b.
Proof.
  revert d. induction a as [| e a IH]; intros d; simpl.
  - tauto.
  - rewrite IH. unfold replay. tauto.
Qed.

Lemma current_tile ec off i (tile : list N) j n (d : list N) :
  current d (tile_events (TopK := TopK) ec off i tile j n).
Proof.
  unfold tile_events. generalize (seq j n). intros l.
  revert d. induction l as [| x l IH]; intros d; simpl; [exact I |].
  split; [discriminate | apply IH].
Qed.

Lemma replay_length (t : list (event N TopK)) (d : list N) :
  length (replay t d) = length d.
Proof.
  revert d. induction t as [| e t IH]; intros d; [reflexivity |].
  change (replay (e :: t) d) with (replay t (apply_store d e)). rewrite IH.
  destruct e; simpl; try reflexivity. apply length_insert.
Qed.

Lemma replay_untouched (t : list (event N TopK)) (d : list N) idx :
  (forall ec i v, EWrite ec i idx v ∉ t) -> replay t d !! idx = d !! idx.
Proof.
  revert d. induction t as [| e t IH]; intros d Hnot; [reflexivity |].
  change (replay (e :: t) d) with (replay t (apply_store d e)).
  rewrite IH.
  - destruct e; simpl; try reflexivity.
    apply list_lookup_insert_ne. intros ->. eapply Hnot. left.
  - intros ec i v Hin. eapply Hnot. right. exact Hin.
Qed.

Lemma replayed_snoc (dists : list N) w (es : list (event N TopK)) w' :
  replayed dists w ->
  w_trace w' = w_trace w ++ es ->
  w_dists w' = replay es (w_dists w) ->
  current (w_dists w) es ->
  replayed dists w'.
Proof.
  intros [Hd Hc] Ht Hd' Hes. split.
  - rewrite Hd', Ht, replay_app, Hd. reflexivity.
  - rewrite Ht. apply current_app. rewrite <- Hd. auto.
Qed.

Lemma chunk_replayed (dists : list N) cbs ec sh i st w :
  replayed dists w ->
  wp (chunk' cbs ec sh i st) (fun _ => replayed dists) (replayed dists) w.
Proof.
  intros Hw. unfold wp. rewrite chunk_eq.
  destruct (new_Uint8Array _ _ _) as [tile | e]; [| exact Hw].
  cbv zeta. destruct (queryDist _ _ _ _ _ _) as [distTile | e].
  2:{ eapply (replayed_snoc _ _ [_]); [exact Hw | reflexivity | reflexivity |].
      simpl. split; [discriminate | exact I]. }
  assert (Hbody : forall s lp (tail : list (event N TopK)),
            replay tail (tile_dists (offset sh) i distTile 0 (chunkSize E) (w_dists w))
            = tile_dists (offset sh) i distTile 0 (chunkSize E) (w_dists w) ->
            current (tile_dists (offset sh) i distTile 0 (chunkSize E) (w_dists w)) tail ->
            let es := (EKernel ec i (pq_feeds query codebkflat cbs tile
                                       [chunkSize E; length codebk])
                       :: tile_events ec (offset sh) i distTile 0 (chunkSize E)
                       ++ [EDistanceUpdate
                             (tile_dists (offset sh) i distTile 0 (chunkSize E) (w_dists w))
                             s lp]) ++ tail in
            replay es (w_dists w)
            = tile_dists (offset sh) i distTile 0 (chunkSize E) (w_dists w) /\
            current (w_dists w) es).
  { intros s lp tail Hr Hc es. unfold es. split.
    - rewrite replay_app. change (replay (EKernel ?a ?b ?c :: ?l) ?d) with (replay l d).
      rewrite replay_app, replay_tile. simpl. exact Hr.
    - apply current_app. split.
      + simpl. split; [discriminate |]. apply current_app.
        split; [apply current_tile |]. rewrite replay_tile. simpl.
        split; [| exact I]. intros c Hc'. inversion Hc'. reflexivity.
      + change (replay (EKernel ?a ?b ?c :: ?l) ?d) with (replay l d).
        rewrite replay_app, replay_tile. simpl. exact Hc. }
  destruct (_ || _).
  - destruct (filteredtopkinf _) as [topk | e].
    + match goal with
      | |- replayed _ {| w_trace := (_ ++ _ :: _ ++ [EDistanceUpdate _ ?s ?lp]) ++ ?tail |} =>
          destruct (Hbody s lp tail) as [Hr Hc]
      end.
      * reflexivity.
      * simpl. repeat split; try discriminate.
        intros c Hc. inversion Hc. reflexivity.
      * eapply replayed_snoc; [exact Hw | | symmetry; exact Hr | exact Hc].
        symmetry. apply app_assoc.
    + match goal with
      | |- replayed _ {| w_trace := (_ ++ _ :: _ ++ [EDistanceUpdate _ ?s ?lp]) ++ ?tail |} =>
          destruct (Hbody s lp tail) as [Hr Hc]
      end.
      * reflexivity.
      * simpl. repeat split; try discriminate.
        intros c Hc. inversion Hc. reflexivity.
      * eapply replayed_snoc; [exact Hw | | symmetry; exact Hr | exact Hc].
        symmetry. apply app_assoc.
  - match goal with
    | |- replayed _ {| w_trace := _ ++ _ :: _ ++ [EDistanceUpdate _ ?s ?lp] |} =>
        destruct (Hbody s lp []) as [Hr Hc]
    end.
    + reflexivity.
    + exact I.
    + eapply replayed_snoc; [exact Hw | | symmetry; exact Hr | exact Hc].
      simpl. rewrite app_nil_r. reflexivity.
Qed.

(** In every world a run can end in, the array is the caller's array with
    the stores of the trace replayed, and every event shows it as it was. *)
Lemma run_replayed fuel embeddings ec (dists : list N) :
  replayed dists (world_of (queryToTiledDist' fuel embeddings ec (init_world dists))).
Proof.
  assert (Hscan : wp (scan' fuel embeddings ec) (fun _ => replayed dists)
                    (replayed dists) (init_world dists)).
  { apply scan_invariant.
    - auto.
    - intros st w Hw. exact Hw.
    - intros cbs ec' sh i st w. apply chunk_replayed.
    - split; [reflexivity | exact I]. }
  rewrite queryToTiledDist_eq. unfold wp in Hscan.
  destruct (scan' fuel embeddings ec (init_world dists)) as [st w1 | e w1 | w1];
    [| exact Hscan | exact Hscan].
  rewrite finish_eq. destruct (continueFn (w_polls w1)); [| exact Hscan].
  cbv zeta. destruct (filteredtopkinf _) as [topk | e]; simpl.
  - eapply (replayed_snoc _ _ [_; _]); [exact Hscan | reflexivity | reflexivity |].
    simpl. repeat split; try discriminate; intros c Hc; inversion Hc; reflexivity.
  - eapply (replayed_snoc _ _ [_]); [exact Hscan | reflexivity | reflexivity |].
    simpl. repeat split; try discriminate; intros c Hc; inversion Hc; reflexivity.
Qed.

(** X6.  Read-after-write: whatever a run shows of the distance array, to
    the host in a distance update or in the final event, or to the engine as
    its input, is the caller's array with exactly the stores made before that
    point. *)
Theorem X6_snapshots_are_current fuel embeddings embeddingCounter (dists : list N)
    pre e post c :
  w_trace (world_of (queryToTiledDist' fuel embeddings embeddingCounter
                       (init_world dists)))
  = pre ++ e :: post ->
  carried e = Some c ->
  c = replay pre dists.
Proof.
  intros Ht Hc.
  destruct (run_replayed fuel embeddings embeddingCounter dists) as [_ Hcur].
  rewrite Ht in Hcur. apply current_app in Hcur. destruct Hcur as [_ [He _]].
  exact (He c Hc).
Qed.

(** X8.  A run never resizes the distance array (a [Float32Array]) and
    leaves every cell it makes no store into as the caller passed it,
    however the run ends. *)
Theorem X8_untouched_cells fuel embeddings embeddingCounter (dists : list N) :
  let w := world_of (queryToTiledDist' fuel embeddings embeddingCounter
                       (init_world dists)) in
  length (w_dists w) = length dists /\
  forall idx, (forall ec i v, EWrite ec i idx v ∉ w_trace w) ->
              w_dists w !! idx = dists !! idx.
Proof.
  intros w. destruct (run_replayed fuel embeddings embeddingCounter dists) as [Hd _].
  fold w in Hd. rewrite Hd. split; [apply replay_length |].
  intros idx Hnot. apply replay_untouched. exact Hnot.
Qed.

(** *** Invariants that know which chunk is being processed *)

Lemma deref_Some {A} (l : list A) i a : deref l i = Ok a -> l !! i = Some a.
Proof. unfold deref. destruct (l !! i); intros Heq; inversion Heq; reflexivity. Qed.

Section Located.

Variable embeddings : list Shard.
Variable first : nat.
Variable Q : Locals -> world N TopK -> Prop.
Variable X : world N TopK -> Prop.

Hypothesis Q_X : forall st w, Q st w -> X w.
Hypothesis Q_stop :
  forall st w, continueFn (w_polls w) = false -> Q st w -> Q st (w_polled w).
Hypothesis X_polled : forall w, X w -> X (w_polled w).
Hypothesis Q_chunk :
  forall g0 v0 ec sh c st w,
    codebk !! 0 = Some g0 -> g0 !! 0 = Some v0 ->
    embeddings !! ec = Some sh -> first <= ec ->
    c * chunkSize E * length codebk < u8_length (data sh) ->
    continueFn (w_polls w) = true ->
    Q st w ->
    wp (chunk' [length codebk; length g0; length v0] ec sh (c * chunkSize E) st)
       Q X (w_polled w).

Lemma located_chunks fuel g0 v0 ec sh c st w :
  codebk !! 0 = Some g0 -> g0 !! 0 = Some v0 ->
  embeddings !! ec = Some sh -> first <= ec ->
  Q st w ->
  wp (chunks' fuel [length codebk; length g0; length v0] ec sh (c * chunkSize E) st)
     Q X w.
Proof.
  intros Hg0 Hv0 Hsh Hec.
  assert (Hcb : length codebk <> 0) by (apply lookup_lt_Some in Hg0; lia).
  revert c st w. induction fuel as [| fuel IH]; intros c st w Hw;
    rewrite chunks_unfold, js_lt_js_div by exact Hcb;
    (destruct (Nat.ltb_spec (c * chunkSize E * length codebk) (u8_length (data sh)))
       as [Hlt | _]; [| wp_step; exact Hw]);
    do 2 wp_step;
    (destruct (continueFn (w_polls w)) eqn:Hgo;
     [| wp_step; apply Q_stop; [exact Hgo | exact Hw]]).
  - wp_step. apply X_polled, (Q_X st), Hw.
  - wp_step. eapply wp_mono; [| | eapply Q_chunk; eassumption].
    + intros st' w' Hw'.
      replace (c * chunkSize E + chunkSize E) with (S c * chunkSize E) by lia.
      apply IH. exact Hw'.
    + auto.
Qed.

Lemma located_shards fuel g0 v0 rest ec st w :
  codebk !! 0 = Some g0 -> g0 !! 0 = Some v0 ->
  (forall p sh, rest !! p = Some sh -> embeddings !! (ec + p) = Some sh) ->
  first <= ec ->
  Q st w ->
  wp (shards' fuel [length codebk; length g0; length v0] ec rest st) Q X w.
Proof.
  intros Hg0 Hv0. revert ec st w.
  induction rest as [| sh rest IH]; intros ec st w Hrest Hec Hw.
  - simpl. wp_step. exact Hw.
  - rewrite shards_cons. wp_step.
    eapply wp_mono; [| | apply (located_chunks fuel g0 v0 ec sh 0); try assumption].
    + intros st' w' Hw'. apply IH; [| lia | exact Hw'].
      intros p sh' Hp. replace (S ec + p) with (ec + S p) by lia. apply Hrest. exact Hp.
    + auto.
    + specialize (Hrest 0 sh eq_refl). rewrite Nat.add_0_r in Hrest. exact Hrest.
Qed.

Lemma located_scan fuel w :
  Q {| lastPaint := clock (w_now w); timingStrings := [] |} (w_tick w) ->
  wp (scan' fuel embeddings first) Q X w.
Proof.
  intros Hw. unfold scan. do 3 wp_step.
  apply wp_await; [intros g0 Hg0 | intros _ _; exact (Q_X _ _ Hw)].
  wp_step. apply wp_await; [intros v0 Hv0 | intros _ _; exact (Q_X _ _ Hw)].
  cbv zeta. apply deref_Some in Hg0, Hv0.
  apply located_shards; try assumption; [| lia].
  intros p sh Hp. rewrite lookup_drop in Hp. exact Hp.
Qed.

End Located.

(** *** What the kernel is given and what is stored *)

Lemma new_Uint8Array_Ok buf off len tile :
  new_Uint8Array buf off len = Ok tile ->
  tile = {| u8_buffer := buf; u8_byteOffset := off; u8_length := len |} /\
  off + len <= length buf.
Proof.
  unfold new_Uint8Array. destruct (Nat.leb_spec (off + len) (length buf));
    intros Heq; inversion Heq; auto.
Qed.

Lemma chunk_chunk_event embeddings first cbs ec sh c st w :
  embeddings !! ec = Some sh -> first <= ec ->
  c * chunkSize E * length codebk < u8_length (data sh) ->
  let P := chunk_event (TopK := TopK) E query codebk codebkflat cbs pqdistinf
             embeddings first in
  Forall P (w_trace w) ->
  wp (chunk' cbs ec sh (c * chunkSize E) st)
     (fun _ w' => Forall P (w_trace w')) (fun w' => Forall P (w_trace w')) w.
Proof.
  intros Hsh Hec Hlt P Hw. unfold wp. rewrite chunk_eq.
  destruct (new_Uint8Array _ _ _) as [tile | e] eqn:Htile; [| exact Hw].
  apply new_Uint8Array_Ok in Htile. destruct Htile as [-> Hfit]. cbv zeta.
  assert (Hkernel : P (EKernel ec (c * chunkSize E)
                         (pq_feeds query codebkflat cbs
                            (window E codebk sh (c * chunkSize E))
                            [chunkSize E; length codebk]))).
  { split; [exact Hec |]. exists sh, c. repeat split; auto. }
  change {| u8_buffer := u8_buffer (data sh);
            u8_byteOffset := c * chunkSize E * length codebk + u8_byteOffset (data sh);
            u8_length := chunkSize E * length codebk |}
    with (window E codebk sh (c * chunkSize E)).
  destruct (queryDist _ _ _ _ _ _) as [distTile | e] eqn:Hanswer.
  2:{ simpl. apply Forall_app. split; [exact Hw |].
      constructor; [exact Hkernel | constructor]. }
  assert (Htiles : Forall P (tile_events ec (offset sh) (c * chunkSize E) distTile 0
                               (chunkSize E))).
  { unfold tile_events. apply Forall_forall. intros e He.
    apply list_elem_of_fmap in He. destruct He as (j & -> & Hj).
    apply elem_of_seq in Hj. exists sh, c, distTile, j. repeat split; auto. lia. }
  assert (Hbody : forall d s lp,
            Forall P (w_trace w
                      ++ EKernel ec (c * chunkSize E)
                           (pq_feeds query codebkflat cbs
                              (window E codebk sh (c * chunkSize E))
                              [chunkSize E; length codebk])
                         :: tile_events ec (offset sh) (c * chunkSize E) distTile 0
                              (chunkSize E)
                         ++ [EDistanceUpdate d s lp])).
  { intros d s lp. apply Forall_app. split; [exact Hw |].
    constructor; [exact Hkernel |]. apply Forall_app. split; [exact Htiles |].
    repeat constructor. }
  destruct (_ || _).
  - destruct (filteredtopkinf _) as [topk | e]; simpl;
      (apply Forall_app; split; [apply Hbody | repeat constructor]).
  - simpl. apply Hbody.
Qed.

(** Every kernel call and every store of a run is the one of a chunk of a
    shard of the list. *)
Lemma run_chunk_events fuel embeddings ec (dists : list N) g0 v0 :
  codebk !! 0 = Some g0 -> g0 !! 0 = Some v0 ->
  Forall (chunk_event E query codebk codebkflat [length codebk; length g0; length v0]
            pqdistinf embeddings ec)
    (w_trace (world_of (queryToTiledDist' fuel embeddings ec (init_world dists)))).
Proof.
  intros Hg0 Hv0.
  set (P := chunk_event (TopK := TopK) E query codebk codebkflat
              [length codebk; length g0; length v0] pqdistinf embeddings ec).
  assert (Hscan : wp (scan' fuel embeddings ec) (fun _ w' => Forall P (w_trace w'))
                    (fun w' => Forall P (w_trace w')) (init_world dists)).
  { apply (located_scan embeddings ec (fun _ w' => Forall P (w_trace w'))).
    - auto.
    - intros st w _ Hw. exact Hw.
    - intros w Hw. exact Hw.
    - intros g0' v0' ec' sh c st w Hg0' Hv0' Hsh Hec Hlt _ Hw.
      rewrite Hg0 in Hg0'. inversion Hg0'; subst g0'.
      rewrite Hv0 in Hv0'. inversion Hv0'; subst v0'.
      apply chunk_chunk_event; assumption.
    - constructor. }
  rewrite queryToTiledDist_eq. unfold wp in Hscan.
  destruct (scan' fuel embeddings ec (init_world dists)) as [st w1 | e w1 | w1];
    [| exact Hscan | exact Hscan].
  rewrite finish_eq. destruct (continueFn (w_polls w1)); [| exact Hscan].
  cbv zeta. destruct (filteredtopkinf _) as [topk | e]; simpl;
    (apply Forall_app; split; [exact Hscan | repeat constructor]).
Qed.

Lemma window_bytes (sh : Shard) i :
  u8_byteOffset (window E codebk sh i) + u8_length (window E codebk sh i)
    <= length (u8_buffer (data sh)) ->
  length (u8_bytes (window E codebk sh i)) = chunkSize E * length codebk /\
  ((i + chunkSize E) * length codebk <= u8_length (data sh) ->
   u8_bytes (window E codebk sh i)
   = take (chunkSize E * length codebk) (drop (i * length codebk) (u8_bytes (data sh)))).
Proof.
  unfold u8_bytes, window. simpl. intros Hfit. split.
  - rewrite length_take, length_drop. lia.
  - intros Hin. rewrite skipn_firstn_comm, take_take, drop_drop.
    f_equal; [lia | f_equal; lia].
Qed.

(** X4.  Every kernel call of a run is the call for one chunk of one shard
    of the list, at or after the starting shard: its in-shard index is a
    multiple of [chunkSize] that lies inside the shard, it is given the
    caller's query and flat codebook, the shape of the codebook and the tensor
    shape [[chunkSize, codebk.length]], and a tile of exactly
    [chunkSize * codebk.length] bytes of the shard's buffer, which are the
    shard's own bytes from item [i] on when the whole chunk lies inside the
    shard's view. *)
Theorem X4_kernel_tiles fuel embeddings embeddingCounter (dists : list N) g0 v0
    ec i feeds :
  codebk !! 0 = Some g0 -> g0 !! 0 = Some v0 ->
  EKernel ec i feeds
    ∈ w_trace (world_of (queryToTiledDist' fuel embeddings embeddingCounter
                            (init_world dists))) ->
  exists shard c,
    embeddingCounter <= ec /\ embeddings !! ec = Some shard /\
    i = c * chunkSize E /\ i * length codebk < u8_length (data shard) /\
    feeds = pq_feeds query codebkflat [length codebk; length g0; length v0]
              (window E codebk shard i) [chunkSize E; length codebk] /\
    length (u8_bytes (window E codebk shard i)) = chunkSize E * length codebk /\
    ((i + chunkSize E) * length codebk <= u8_length (data shard) ->
     u8_bytes (window E codebk shard i)
     = take (chunkSize E * length codebk)
         (drop (i * length codebk) (u8_bytes (data shard)))).
Proof.
  intros Hg0 Hv0 Hin.
  pose proof (run_chunk_events fuel embeddings embeddingCounter dists g0 v0 Hg0 Hv0)
    as Hall.
  rewrite Forall_forall in Hall. specialize (Hall _ Hin).
  destruct Hall as (Hec & sh & c & Hsh & Hi & Hlt & Hfit & Hfeeds).
  exists sh, c. destruct (window_bytes sh i Hfit) as [Hlen Hbytes].
  repeat split; auto.
Qed.

(** *** The distances a completed scan leaves *)

Lemma writers_nil idx (t : list (event N TopK)) ec i v :
  writers idx t = [] -> EWrite ec i idx v ∉ t.
Proof.
  intros Hw Hin.
  assert (Hx : (ec, i) ∈ writers idx t).
  { apply list_elem_of_omap. exists (EWrite ec i idx v). split; [exact Hin |].
    simpl. rewrite Nat.eqb_refl. reflexivity. }
  rewrite Hw in Hx. inversion Hx.
Qed.

Lemma replay_single_writer idx (t : list (event N TopK)) (d : list N) ec i :
  writers idx t = [(ec, i)] -> idx < length d ->
  exists v, EWrite ec i idx v ∈ t /\ replay t d !! idx = Some v.
Proof.
  revert d. induction t as [| e t IH]; intros d Hw Hidx; [discriminate |].
  change (replay (e :: t) d) with (replay t (apply_store d e)).
  destruct e as [ec' i' feeds | ec' i' idx' v' | | | | |];
    try (destruct (IH d Hw Hidx) as (v & Hin & Hv); exists v;
         split; [right; exact Hin | exact Hv]).
  unfold writers in Hw. simpl in Hw.
  destruct (Nat.eqb_spec idx' idx) as [-> | Hne].
  - inversion Hw; subst. exists v'. split; [left |].
    simpl. rewrite replay_untouched.
    + apply list_lookup_insert_eq. exact Hidx.
    + intros ec0 i0 v0. apply writers_nil. assumption.
  - destruct (IH (<[idx' := v']> d) Hw) as (v & Hin & Hv).
    + rewrite length_insert. exact Hidx.
    + exists v. split; [right; exact Hin | exact Hv].
Qed.

Lemma run_single_writer fuel embeddings totalItems (dists : list N) w' idx :
  (forall n, continueFn n = true) ->
  chunked E codebk embeddings ->
  partitions codebk embeddings totalItems ->
  queryToTiledDist' fuel embeddings 0 (init_world dists) = Ret tt w' ->
  idx < totalItems ->
  exists ec i, writers idx (w_trace w') = [(ec, i)].
Proof.
  intros Hcont Hchunked [Hcover Hdisj] Hrun Hidx.
  pose proof (run_Ret_codebk _ _ _ _ _ Hrun) as Hcb.
  pose proof (run_footprints Hcont Hcb _ _ _ _ Hchunked Hrun) as HF.
  assert (Hitems : forall p sh, embeddings !! p = Some sh ->
            items codebk sh / chunkSize E * chunkSize E = items codebk sh).
  { intros p sh Hp. unfold chunked in Hchunked. rewrite Forall_forall in Hchunked.
    apply (chunked_shard Hcb sh). apply Hchunked.
    apply list_elem_of_lookup. eauto. }
  rewrite writers_footprint, HF. apply pick_unique.
  - rewrite written_scan. apply ranges_NoDup.
    intros p1 p2 sh1 sh2 idx' H1 H2 Hx1 Hx2.
    rewrite (Hitems _ _ H1) in Hx1. rewrite (Hitems _ _ H2) in Hx2.
    exact (Hdisj p1 p2 sh1 sh2 idx' H1 H2 Hx1 Hx2).
  - rewrite written_scan. apply ranges_elem.
    apply Hcover in Hidx. destruct Hidx as (p & sh & Hp & Hx).
    exists p, sh. split; [exact Hp |]. rewrite (Hitems _ _ Hp). exact Hx.
Qed.

(** X7.  What a completed scan leaves in the array.  In a run from shard 0
    that is never cancelled and returns, over shards whose item counts are
    multiples of [chunkSize] and whose item ranges partition
    [0, totalItems): each cell below [totalItems] (and inside the array)
    ends up holding entry [j] of the kernel's answer for the tile of the chunk
    at in-shard index [c * chunkSize] of the shard that covers it, converted
    to float32, where [offset + c * chunkSize + j] is the cell's index. *)
Theorem X7_final_distances fuel embeddings totalItems (dists : list N) w' g0 v0 idx :
  (forall n, continueFn n = true) ->
  chunked E codebk embeddings ->
  partitions codebk embeddings totalItems ->
  queryToTiledDist' fuel embeddings 0 (init_world dists) = Ret tt w' ->
  codebk !! 0 = Some g0 -> g0 !! 0 = Some v0 ->
  idx < totalItems -> idx < length dists ->
  exists ec shard c j distTile,
    embeddings !! ec = Some shard /\ j < chunkSize E /\
    idx = offset shard + c * chunkSize E + j /\
    queryDist pqdistinf query codebkflat [length codebk; length g0; length v0]
      (window E codebk shard (c * chunkSize E)) [chunkSize E; length codebk]
    = Ok distTile /\
    w_dists w' !! idx = Some (toFloat32 (distTile !! j)).
Proof.
  intros Hcont Hchunked Hpart Hrun Hg0 Hv0 Hidx Hlen.
  destruct (run_single_writer fuel embeddings totalItems dists w' idx
              Hcont Hchunked Hpart Hrun Hidx) as (ec & i & Hw).
  destruct (run_replayed fuel embeddings 0 dists) as [Hd _].
  pose proof (run_chunk_events fuel embeddings 0 dists g0 v0 Hg0 Hv0) as Hall.
  rewrite Hrun in Hd, Hall. simpl in Hd, Hall.
  destruct (replay_single_writer idx _ dists ec i Hw Hlen) as (v & Hin & Hv).
  rewrite Forall_forall in Hall. specialize (Hall _ Hin).
  destruct Hall as (sh & c & distTile & j & Hsh & Hi & Hanswer & Hj & Hidx' & Hval).
  subst i v. exists ec, sh, c, j, distTile.
  rewrite Hd. repeat split; auto.
Qed.

(** *** Every kernel call is allowed by a poll of its own *)

Lemma continues_S n :
  continues continueFn (S n)
  = continues continueFn n + (if continueFn n then 1 else 0).
Proof.
  unfold continues. rewrite seq_S, List.filter_app, length_app. simpl.
  destruct (continueFn n); reflexivity.
Qed.

Lemma guarded_app (a b : list (event N TopK)) :
  guarded (a ++ b) = guarded a + guarded b.
Proof. unfold guarded. rewrite List.filter_app, length_app. reflexivity. Qed.

Lemma guarded_tile ec off i (tile : list N) j n :
  guarded (tile_events (TopK := TopK) ec off i tile j n) = 0.
Proof.
  unfold guarded, tile_events. generalize (seq j n). intros l.
  induction l as [| x l IH]; [reflexivity | exact IH].
Qed.

Lemma chunk_guarded cbs ec sh i st w :
  continueFn (w_polls w) = true ->
  guarded (w_trace w) = continues continueFn (w_polls w) ->
  wp (chunk' cbs ec sh i st)
     (fun _ w' => guarded (w_trace w') = continues continueFn (w_polls w'))
     (fun w' => guarded (w_trace w') <= continues continueFn (w_polls w'))
     (w_polled w).
Proof.
  intros Hgo Hw.
  assert (Hle : forall n (t : list (event N TopK)), n = S (w_polls w) ->
            guarded t <= S (guarded (w_trace w)) ->
            guarded t <= continues continueFn n).
  { intros n t -> Ht. rewrite continues_S, Hgo. lia. }
  assert (Heq : forall n (t : list (event N TopK)), n = S (w_polls w) ->
            guarded t = S (guarded (w_trace w)) ->
            guarded t = continues continueFn n).
  { intros n t -> Ht. rewrite continues_S, Hgo. lia. }
  unfold wp. rewrite chunk_eq.
  destruct (new_Uint8Array _ _ _) as [tile | e];
    [| apply Hle; [reflexivity | simpl; lia]].
  cbv zeta. destruct (queryDist _ _ _ _ _ _) as [distTile | e].
  2:{ apply Hle; [reflexivity |]. simpl. rewrite guarded_app.
      unfold guarded. simpl. lia. }
  assert (Hbody : forall d s lp (tail : list (event N TopK)),
            guarded tail = 0 ->
            guarded ((w_trace w
                      ++ EKernel ec i (pq_feeds query codebkflat cbs tile
                                         [chunkSize E; length codebk])
                         :: tile_events ec (offset sh) i distTile 0 (chunkSize E)
                         ++ [EDistanceUpdate d s lp]) ++ tail)
            = S (guarded (w_trace w))).
  { intros d s lp tail Htail. rewrite !guarded_app, Htail.
    change (guarded (EKernel ?a ?b ?c :: ?l)) with (S (guarded l)).
    rewrite guarded_app, guarded_tile. unfold guarded. simpl. lia. }
  destruct (_ || _).
  - destruct (filteredtopkinf _) as [topk | e].
    + apply Heq; [reflexivity | apply Hbody; reflexivity].
    + apply Hle; [reflexivity |]. simpl w_trace. rewrite Hbody; [lia | reflexivity].
  - apply Heq; [reflexivity |]. simpl.
    rewrite <- (app_nil_r (_ ++ _ :: _)). apply Hbody. reflexivity.
Qed.

Lemma run_guarded fuel embeddings ec (dists : list N) :
  wp (queryToTiledDist' fuel embeddings ec)
     (fun _ w => guarded (w_trace w) = continues continueFn (w_polls w))
     (fun w => guarded (w_trace w) <= continues continueFn (w_polls w))
     (init_world dists).
Proof.
  set (Jeq := fun w : world N TopK =>
                guarded (w_trace w) = continues continueFn (w_polls w)).
  set (Jle := fun w : world N TopK =>
                guarded (w_trace w) <= continues continueFn (w_polls w)).
  assert (Hle : forall w, Jle w -> Jle (w_polled w)).
  { intros w Hw. unfold Jle in *. simpl. rewrite continues_S. lia. }
  assert (Hscan : wp (scan' fuel embeddings ec) (fun _ => Jeq) Jle (init_world dists)).
  { apply (located_scan embeddings ec (fun _ => Jeq)).
    - intros _ w Hw. unfold Jeq in Hw. unfold Jle. lia.
    - intros _ w Hgo Hw. unfold Jeq in *. simpl. rewrite continues_S, Hgo. lia.
    - exact Hle.
    - intros g0 v0 ec' sh c st w _ _ _ _ _ Hgo Hw. apply chunk_guarded; assumption.
    - unfold Jeq, guarded. reflexivity. }
  unfold wp in *. rewrite queryToTiledDist_eq.
  destruct (scan' fuel embeddings ec (init_world dists))
    as [st w1 | e w1 | w1]; [| exact Hscan | exact Hscan].
  rewrite finish_eq. destruct (continueFn (w_polls w1)) eqn:Hgo.
  - assert (Hfinal : forall tail : list (event N TopK), guarded tail = 1 ->
              Jeq (w_log tail (w_polled w1))).
    { intros tail Htail. unfold Jeq in *. simpl.
      rewrite guarded_app, Htail, continues_S, Hgo. lia. }
    cbv zeta. destruct (filteredtopkinf _) as [topk | e].
    + apply Hfinal. reflexivity.
    + unfold Jle. rewrite Hfinal; [lia | reflexivity].
  - unfold Jeq in *. simpl. rewrite continues_S, Hgo. lia.
Qed.

(** X10.  A run calls the kernel, and recomputes the final top-k, only on a
    poll of the cancellation predicate that reported continue, one poll for
    each: at any point where a run can end, the kernel calls and final
    recomputations made so far are no more than the polls that reported
    continue. *)
Theorem X10_calls_need_continue fuel embeddings embeddingCounter (dists : list N) :
  let w := world_of (queryToTiledDist' fuel embeddings embeddingCounter
                       (init_world dists)) in
  guarded (w_trace w) <= continues continueFn (w_polls w).
Proof.
  pose proof (run_guarded fuel embeddings embeddingCounter dists) as Hrun.
  unfold wp in Hrun. cbv zeta.
  destruct (queryToTiledDist' fuel embeddings embeddingCounter (init_world dists));
    simpl; [lia | exact Hrun | exact Hrun].
Qed.

(** X16.  In a run that returns, every poll that reported continue was
    acted upon: the kernel calls and the final recomputation are exactly as
    many as the polls that reported continue. *)
Theorem X16_every_continue_is_used fuel embeddings embeddingCounter (dists : list N) w' :
  queryToTiledDist' fuel embeddings embeddingCounter (init_world dists) = Ret tt w' ->
  guarded (w_trace w') = continues continueFn (w_polls w').
Proof.
  intros Hrun.
  pose proof (run_guarded fuel embeddings embeddingCounter dists) as Hwp.
  unfold wp in Hwp. rewrite Hrun in Hwp. exact Hwp.
Qed.

(** *** Where a run's exceptions come from *)

Lemma bind_Throw {A B} (m : M N TopK A) (f : A -> M N TopK B) w e w2 :
  bind m f w = Throw e w2 ->
  m w = Throw e w2 \/ exists a w1, m w = Ret a w1 /\ f a w1 = Throw e w2.
Proof.
  unfold bind. destruct (m w) as [a w1 | e1 w1 | w1]; intros Heq.
  - right. eauto.
  - left. inversion Heq. reflexivity.
  - discriminate Heq.
Qed.

Local Abbreviation rejected e w' :=
  (e = RangeError \/
   (exists embeddingCounter i feeds,
       last (w_trace w') = Some (EKernel embeddingCounter i feeds) /\
       ((e = TensorSizeError /\
         length (pq_codebook feeds) <> tensor_size (pq_codebookShape feeds)) \/
        pqdistinf (pq_tensors feeds) = Err e)) \/
   (exists site feeds,
       last (w_trace w') = Some (ETopK site feeds) /\
       filteredtopkinf (topk_tensors feeds) = Err e)).

Lemma chunk_rejected cbs ec sh i st w e w' :
  chunk' cbs ec sh i st w = Throw e w' -> rejected e w'.
Proof.
  rewrite chunk_eq.
  destruct (new_Uint8Array _ _ _) as [tile | e1] eqn:Htile.
  2:{ unfold new_Uint8Array in Htile. destruct (_ <=? _); inversion Htile; subst.
      intros Heq. inversion Heq; subst. left. reflexivity. }
  apply new_Uint8Array_Ok in Htile. destruct Htile as [-> _].
  cbv zeta. destruct (queryDist _ _ _ _ _ _) as [distTile | e1] eqn:Hanswer.
  2:{ intros Heq. inversion Heq; subst. right. left.
      eexists _, _, _. split; [apply last_snoc |].
      unfold queryDist, new_Tensor in Hanswer. simpl.
      destruct (Nat.eqb_spec (length codebkflat) (tensor_size cbs)) as [_ | Hsize].
      - cbn [rbind u8_length] in Hanswer.
        rewrite <- tensor_size_tile, Nat.eqb_refl in Hanswer.
        right. exact Hanswer.
      - inversion Hanswer. left. auto. }
  destruct (_ || _); [| discriminate].
  destruct (filteredtopkinf _) as [topk | e1] eqn:Hengine; [discriminate |].
  intros Heq. inversion Heq; subst. right. right.
  eexists _, _. split; [apply last_snoc | exact Hengine].
Qed.

Lemma chunks_rejected fuel cbs ec sh i st w e w' :
  chunks' fuel cbs ec sh i st w = Throw e w' -> rejected e w'.
Proof.
  revert i st w. induction fuel as [| fuel IH]; intros i st w;
    rewrite chunks_unfold; (destruct (js_lt _ _); [| discriminate]);
    unfold bind at 1; unfold call_continueFn at 1;
    (destruct (continueFn _); [| discriminate]).
  - discriminate.
  - intros Hrun. apply bind_Throw in Hrun.
    destruct Hrun as [Hrun | (st1 & w1 & _ & Hrun)].
    + exact (chunk_rejected _ _ _ _ _ _ _ _ Hrun).
    + exact (IH _ _ _ Hrun).
Qed.

Lemma shards_rejected fuel cbs rest ec st w e w' :
  shards' fuel cbs ec rest st w = Throw e w' -> rejected e w'.
Proof.
  revert ec st w. induction rest as [| sh rest IH]; intros ec st w; [discriminate |].
  rewrite shards_cons. intros Hrun. apply bind_Throw in Hrun.
  destruct Hrun as [Hrun | (st1 & w1 & _ & Hrun)].
  - exact (chunks_rejected _ _ _ _ _ _ _ _ _ Hrun).
  - exact (IH _ _ _ Hrun).
Qed.

(** X12.  A run adds no exception of its own to those of what it calls.
    When a run throws, the exception is the [TypeError] of reading
    [codebk[0][0].length] on a codebook that has no first centroid, thrown
    before anything was called or emitted; or the [RangeError] of a tile that
    does not fit in its shard's buffer; or it comes from the call of
    [queryDist] or [distTopK] that the trace ends with: the [Error] of the
    codebook tensor, when the flat codebook does not have the size of the
    codebook's shape, or the very exception with which the kernel or the
    engine rejected the tensors of that call. *)
Theorem X12_exceptions_come_from_callees fuel embeddings embeddingCounter
    (dists : list N) e w' :
  queryToTiledDist' fuel embeddings embeddingCounter (init_world dists) = Throw e w' ->
  thrown_by codebk pqdistinf filteredtopkinf e w'.
Proof.
  rewrite queryToTiledDist_eq.
  destruct (scan' fuel embeddings embeddingCounter (init_world dists))
    as [st w1 | e1 w1 | w1] eqn:Hscan; [| | discriminate].
  - rewrite finish_eq. destruct (continueFn _); [| discriminate].
    cbv zeta. destruct (filteredtopkinf _) as [topk | e1] eqn:Hengine; [discriminate |].
    intros Heq. inversion Heq; subst. right. right. right.
    eexists _, _. split; [apply last_snoc | exact Hengine].
  - intros Heq. inversion Heq; subst. clear Heq.
    unfold scan, bind, Date_now, await, deref in *.
    unfold thrown_by, no_first_centroid.
    destruct (codebk !! 0) as [g0 |];
      [| inversion Hscan; subst; left; repeat split].
    destruct (g0 !! 0) as [v0 |];
      [| inversion Hscan; subst; left; repeat split].
    right. exact (shards_rejected _ _ _ _ _ _ _ _ Hscan).
Qed.

(** *** A shard whose last chunk is not whole *)

Lemma shards_app fuel cbs l1 l2 ec st w :
  shards' fuel cbs ec (l1 ++ l2) st w
  = bind (shards' fuel cbs ec l1 st)
      (fun st' => shards' fuel cbs (ec + length l1) l2 st') w.
Proof.
  revert ec st w. induction l1 as [| sh l1 IH]; intros ec st w.
  - simpl. unfold bind, ret. rewrite Nat.add_0_r. reflexivity.
  - simpl app. rewrite !shards_cons. unfold bind.
    destruct (chunks' fuel cbs ec sh 0 st w) as [st1 w1 | e w1 | w1]; try reflexivity.
    rewrite IH. unfold bind. simpl length.
    replace (S ec + length l1) with (ec + S (length l1)) by lia. reflexivity.
Qed.

Section Ragged.

Hypothesis never_cancelled : forall n, continueFn n = true.
Hypothesis kernel_answers : forall feeds, exists distTile, pqdistinf feeds = Ok distTile.
Hypothesis engine_answers : forall feeds, exists topk, filteredtopkinf feeds = Ok topk.

Lemma shards_return fuel cbs rest ec st w :
  length codebkflat = tensor_size cbs ->
  length codebk <> 0 ->
  chunked E codebk rest ->
  Forall (fun sh => u8_byteOffset (data sh) + u8_length (data sh)
                    <= length (u8_buffer (data sh))) rest ->
  Forall (fun sh => items codebk sh / chunkSize E <= fuel) rest ->
  exists st' w', shards' fuel cbs ec rest st w = Ret st' w'.
Proof.
  intros Hflat Hcb. revert ec st w.
  induction rest as [| sh rest IH]; intros ec st w Hc Hv Hf; [simpl; eauto |].
  apply Forall_cons in Hc, Hv, Hf.
  destruct Hc as [Hc Hcs], Hv as [Hv Hvs], Hf as [Hf Hfs].
  destruct (chunked_shard Hcb sh Hc) as (Hlen & Hzero & _).
  rewrite shards_cons. unfold bind.
  destruct (chunks_return kernel_answers engine_answers fuel cbs ec sh _
              Hflat Hcb Hlen Hzero Hv 0 st w) as (st1 & w1 & Hrun); [lia | lia |].
  simpl in Hrun. rewrite Hrun. apply IH; assumption.
Qed.

Lemma chunks_ragged fuel cbs ec sh m r :
  length codebkflat = tensor_size cbs ->
  length codebk <> 0 ->
  u8_length (data sh) = (m * chunkSize E + r) * length codebk ->
  0 < r < chunkSize E ->
  u8_byteOffset (data sh) + u8_length (data sh) <= length (u8_buffer (data sh)) ->
  length (u8_buffer (data sh))
    < u8_byteOffset (data sh) + (m + 1) * chunkSize E * length codebk ->
  forall c st w,
    c <= m -> m - c < fuel ->
    exists w', chunks' fuel cbs ec sh (c * chunkSize E) st w = Throw RangeError w'.
Proof.
  intros Hflat Hcb Hlen Hr Hview Hend.
  induction fuel as [| fuel IH]; intros c st w Hc Hfuel; [lia |].
  assert (Hcm : c * chunkSize E * length codebk <= m * chunkSize E * length codebk)
    by (apply Nat.mul_le_mono_r, Nat.mul_le_mono_r; exact Hc).
  assert (Hmr : m * chunkSize E * length codebk
                < (m * chunkSize E + r) * length codebk)
    by (apply Nat.mul_lt_mono_pos_r; lia).
  rewrite chunks_unfold, js_lt_js_div by exact Hcb.
  destruct (Nat.ltb_spec (c * chunkSize E * length codebk) (u8_length (data sh)))
    as [_ | Hge]; [| lia].
  unfold bind at 1. unfold call_continueFn at 1. rewrite never_cancelled.
  destruct (decide (c = m)) as [-> | Hne].
  - unfold bind. rewrite chunk_eq. unfold new_Uint8Array.
    destruct (Nat.leb_spec (m * chunkSize E * length codebk + u8_byteOffset (data sh)
                            + chunkSize E * length codebk)
                (length (u8_buffer (data sh)))) as [Hfit | _]; [lia | eauto].
  - unfold bind.
    destruct (chunk_returns kernel_answers engine_answers cbs ec sh (c * chunkSize E)
                st (w_polled w) Hflat) as (st1 & w1 & ->).
    { assert ((c * chunkSize E + chunkSize E) * length codebk
              <= m * chunkSize E * length codebk).
      { apply Nat.mul_le_mono_r.
        replace (c * chunkSize E + chunkSize E) with (S c * chunkSize E) by lia.
        apply Nat.mul_le_mono_r. lia. }
      lia. }
    replace (c * chunkSize E + chunkSize E) with (S c * chunkSize E) by lia.
    apply IH; lia.
Qed.

End Ragged.

(** X11.  A shard whose item count is not a multiple of [chunkSize] makes
    the run fail when its buffer ends before a whole tile does.  In a run
    that is never cancelled, with a flat codebook of the size that the
    codebook's shape declares, sessions that answer and enough fuel, where
    the shards before shard [p] are whole and shard [p] has
    [m * chunkSize + r] items with [0 < r < chunkSize], its view inside a
    buffer that ends before byte [(m + 1) * chunkSize * codebk.length] of the
    view: the run throws a [RangeError]. *)
Theorem X11_partial_last_chunk fuel embeddings embeddingCounter (dists : list N)
    g0 v0 p sh m r :
  (forall n, continueFn n = true) ->
  (forall feeds, exists distTile, pqdistinf feeds = Ok distTile) ->
  (forall feeds, exists topk, filteredtopkinf feeds = Ok topk) ->
  codebk !! 0 = Some g0 -> g0 !! 0 = Some v0 ->
  length codebkflat = length codebk * length g0 * length v0 ->
  embeddingCounter <= p -> embeddings !! p = Some sh ->
  chunked E codebk (take p embeddings) ->
  Forall (fun sh' => u8_byteOffset (data sh') + u8_length (data sh')
                     <= length (u8_buffer (data sh'))) (take p embeddings) ->
  Forall (fun sh' => items codebk sh' / chunkSize E <= fuel) (take p embeddings) ->
  u8_length (data sh) = (m * chunkSize E + r) * length codebk ->
  0 < r < chunkSize E ->
  u8_byteOffset (data sh) + u8_length (data sh) <= length (u8_buffer (data sh)) ->
  length (u8_buffer (data sh))
    < u8_byteOffset (data sh) + (m + 1) * chunkSize E * length codebk ->
  m < fuel ->
  exists w',
    queryToTiledDist' fuel embeddings embeddingCounter (init_world dists)
    = Throw RangeError w'.
Proof.
  intros Hcont Hkernel Hengine Hg0 Hv0 Hflat Hec Hsh Hchunked Hviews Hfuels Hlen Hr
    Hview Hend Hfuel.
  rewrite tensor_size_codebook in Hflat.
  assert (Hcb : length codebk <> 0) by (apply lookup_lt_Some in Hg0; lia).
  assert (Hsplit : drop embeddingCounter embeddings
                   = drop embeddingCounter (take p embeddings)
                     ++ sh :: drop (S p) embeddings).
  { rewrite skipn_firstn_comm.
    rewrite <- (take_drop (p - embeddingCounter) (drop embeddingCounter embeddings))
      at 1.
    f_equal. rewrite drop_drop.
    replace (embeddingCounter + (p - embeddingCounter)) with p by lia.
    apply drop_S. exact Hsh. }
  rewrite queryToTiledDist_eq. unfold scan, bind, Date_now, await, deref.
  rewrite Hg0, Hv0. cbv zeta. rewrite Hsplit, shards_app. unfold bind.
  match goal with
  | |- context [shards' fuel ?cbs ?ec (drop _ (take _ _)) ?st ?w] =>
      destruct (shards_return Hkernel Hengine fuel cbs
                  (drop embeddingCounter (take p embeddings)) ec st w)
        as (st1 & w1 & ->);
        [exact Hflat | exact Hcb | apply Forall_drop; exact Hchunked
        | apply Forall_drop; exact Hviews | apply Forall_drop; exact Hfuels |]
  end.
  rewrite shards_cons. unfold bind.
  match goal with
  | |- context [chunks' fuel ?cbs ?ec sh 0 st1 w1] =>
      destruct (chunks_ragged Hcont Hkernel Hengine fuel cbs ec sh m r
                  Hflat Hcb Hlen Hr Hview Hend 0 st1 w1) as (w2 & Hthrow); [lia | lia |]
  end.
  simpl in Hthrow. rewrite Hthrow. eauto.
Qed.

(** X15.  Enough fuel gives the result.  Over shards whose item counts are
    multiples of [chunkSize] and whose views lie inside their buffers, with
    a codebook whose first centroid exists, a flat codebook of the size that
    the codebook's shape declares and sessions that answer, a run
    with as much fuel as the largest shard has chunks returns normally,
    whatever the clock, the cancellation predicate and the starting shard: it
    neither throws nor goes on for ever. *)
Theorem X15_well_formed_runs_return fuel embeddings embeddingCounter (dists : list N)
    g0 v0 :
  (forall feeds, exists distTile, pqdistinf feeds = Ok distTile) ->
  (forall feeds, exists topk, filteredtopkinf feeds = Ok topk) ->
  codebk !! 0 = Some g0 -> g0 !! 0 = Some v0 ->
  length codebkflat = length codebk * length g0 * length v0 ->
  chunked E codebk embeddings ->
  Forall (fun sh => u8_byteOffset (data sh) + u8_length (data sh)
                    <= length (u8_buffer (data sh))) embeddings ->
  Forall (fun sh => items codebk sh / chunkSize E <= fuel) embeddings ->
  exists w', queryToTiledDist' fuel embeddings embeddingCounter (init_world dists)
             = Ret tt w'.
Proof.
  intros Hkernel Hengine. exact (run_completes Hkernel Hengine _ _ _ _ _ _).
Qed.

(** *** The emission protocol *)

Lemma chunk_blocks cbs ec sh i st w :
  (exists bs, w_trace w = concat bs /\ Forall (chunk_block E) bs) ->
  wp (chunk' cbs ec sh i st)
     (fun _ w' => exists bs, w_trace w' = concat bs /\ Forall (chunk_block E) bs)
     (fun _ => True) w.
Proof.
  intros (bs & Hbs & Hall). unfold wp. rewrite chunk_eq.
  destruct (new_Uint8Array _ _ _) as [tile | e]; [| exact I].
  cbv zeta. destruct (queryDist _ _ _ _ _ _) as [distTile | e]; [| exact I].
  assert (Hsnoc : forall t b : list (event N TopK),
            t = w_trace w ++ b -> chunk_block E b ->
            exists bs', t = concat bs' /\ Forall (chunk_block E) bs').
  { intros t b -> Hb. exists (bs ++ [b]). split.
    - rewrite concat_app, Hbs. simpl. rewrite app_nil_r. reflexivity.
    - apply Forall_app. split; [exact Hall |]. constructor; [exact Hb | constructor]. }
  destruct (_ || _).
  - destruct (filteredtopkinf _) as [topk | e]; [| exact I].
    eapply Hsnoc.
    + simpl w_trace. rewrite <- app_assoc. simpl. rewrite <- app_assoc. simpl.
      reflexivity.
    + eexists _, _, _, _, _, _, _, _. right. eexists _, _, _.
      split; [| reflexivity]. reflexivity.
  - eapply Hsnoc.
    + simpl w_trace. reflexivity.
    + eexists _, _, _, _, _, _, _, _. left. reflexivity.
Qed.

(** X13.  The emission protocol of a run that returns.  Its trace is a
    sequence of chunk blocks, each made of the kernel call, [chunkSize]
    stores, one distance update and then either nothing or the engine's
    invocation on the array just shown followed by a top-k update and a
    yield; after the blocks comes nothing (the last poll reported stop) or
    the final invocation of the engine and the combined final event, both on
    the array as the run leaves it. *)
Theorem X13_emission_protocol fuel embeddings embeddingCounter (dists : list N) w' :
  queryToTiledDist' fuel embeddings embeddingCounter (init_world dists) = Ret tt w' ->
  exists bs tail,
    w_trace w' = concat bs ++ tail /\
    Forall (chunk_block E) bs /\
    (tail = [] \/
     exists feeds distTime topk,
       tk_input feeds = w_dists w' /\
       tail = [ETopK AtEnd feeds; EFinal (w_dists w') distTime topk]).
Proof.
  assert (Hscan : wp (scan' fuel embeddings embeddingCounter)
                    (fun _ w => exists bs, w_trace w = concat bs
                                           /\ Forall (chunk_block E) bs)
                    (fun _ => True) (init_world dists)).
  { apply scan_invariant.
    - auto.
    - intros st w Hw. exact Hw.
    - intros cbs ec sh i st w. apply chunk_blocks.
    - exists []. split; [reflexivity | constructor]. }
  rewrite queryToTiledDist_eq. unfold wp in Hscan.
  destruct (scan' fuel embeddings embeddingCounter (init_world dists))
    as [st w1 | e w1 | w1]; [| discriminate ..].
  destruct Hscan as (bs & Hbs & Hall).
  rewrite finish_eq. destruct (continueFn (w_polls w1)).
  - cbv zeta. destruct (filteredtopkinf _) as [topk | e]; [| discriminate].
    intros Heq. inversion Heq; subst. simpl. rewrite Hbs.
    exists bs. eexists. split; [reflexivity |]. split; [exact Hall |].
    right. eexists _, _, _. split; [| reflexivity]. reflexivity.
  - intros Heq. inversion Heq; subst. simpl. rewrite Hbs.
    exists bs, []. rewrite app_nil_r. auto.
Qed.

(** *** A run started past the last shard *)

(** X14.  A run whose starting shard index is at or past the end of the
    shard list scans nothing: with a codebook whose first centroid exists, a
    poll that reports continue and an engine that answers, it returns after
    one engine invocation on the caller's array and the combined final event,
    without any kernel call or store. *)
Theorem X14_start_past_the_end fuel embeddings embeddingCounter (dists : list N)
    g0 v0 topk :
  length embeddings <= embeddingCounter ->
  codebk !! 0 = Some g0 -> g0 !! 0 = Some v0 ->
  continueFn 0 = true ->
  distTopK filteredtopkinf dists firstLetters firstLetterInt (of_Z 0) (of_Z 1024) k
  = Ok topk ->
  exists w',
    queryToTiledDist' fuel embeddings embeddingCounter (init_world dists) = Ret tt w' /\
    w_dists w' = dists /\
    w_trace w'
    = [ETopK AtEnd (topk_feeds dists firstLetters firstLetterInt (of_Z 0) (of_Z 1024) k);
       EFinal dists (join []) topk].
Proof.
  intros Hpast Hg0 Hv0 Hgo Hengine.
  rewrite queryToTiledDist_eq. unfold scan, bind, Date_now, await, deref.
  rewrite Hg0, Hv0. cbv zeta. rewrite drop_ge by exact Hpast.
  simpl shards. unfold ret. rewrite finish_eq. simpl w_polls. rewrite Hgo.
  cbv zeta. simpl w_dists. unfold distTopK in Hengine. rewrite Hengine.
  eexists. split; [reflexivity |]. split; reflexivity.
Qed.

End SchedulerProofs.

(** ** What the engine is run on *)

Section Engines.

Context {N : Type} `{Number N} {TopK : Type}.

Variable clock : nat -> Z.
Variable continueFn : nat -> bool.
Variable E : Env.
Variable query : list N.
Variable codebk : Codebook N.
Variable codebkflat : list N.
Variable pqdistinf : PQSession N.
Variable firstLetters : list N.
Variable firstLetterInt : N.
Variable engine1 engine2 : TopKSession N TopK.
Variable k : Z.

(** The two engines agree on every array of distances, when given the
    caller's filter as float32 tensors and [k] as a byte. *)
Hypothesis same_on_tensors :
  forall input : list N,
    let feeds :=
      topk_feeds (float32s input) (float32s firstLetters) (fround firstLetterInt)
        (fround (of_Z 0)) (fround (of_Z 1024)) (toUint8 k) in
    engine1 feeds = engine2 feeds.

Lemma bind_ext {A B} (m1 m2 : M N TopK A) (f1 f2 : A -> M N TopK B) w :
  m1 w = m2 w -> (forall a w', f1 a w' = f2 a w') -> bind m1 f1 w = bind m2 f2 w.
Proof.
  intros Hm Hf. unfold bind. rewrite Hm. destruct (m2 w); [apply Hf | reflexivity ..].
Qed.

Lemma same_answer (dists : list N) :
  engine1 (topk_tensors (topk_feeds dists firstLetters firstLetterInt
                           (of_Z 0) (of_Z 1024) k))
  = engine2 (topk_tensors (topk_feeds dists firstLetters firstLetterInt
                             (of_Z 0) (of_Z 1024) k)).
Proof. exact (same_on_tensors dists). Qed.

Lemma chunk_same cbs ec sh i st w :
  chunk clock E query codebk codebkflat pqdistinf firstLetters firstLetterInt
    engine1 k cbs ec sh i st w
  = chunk clock E query codebk codebkflat pqdistinf firstLetters firstLetterInt
      engine2 k cbs ec sh i st w.
Proof.
  rewrite !chunk_eq.
  destruct (new_Uint8Array _ _ _) as [tile | e]; [| reflexivity].
  cbv zeta. destruct (queryDist _ _ _ _ _ _) as [distTile | e]; [| reflexivity].
  destruct (_ || _); [| reflexivity].
  rewrite same_answer. reflexivity.
Qed.

Lemma chunks_same fuel cbs ec sh i st w :
  chunks clock continueFn E query codebk codebkflat pqdistinf firstLetters
    firstLetterInt engine1 k fuel cbs ec sh i st w
  = chunks clock continueFn E query codebk codebkflat pqdistinf firstLetters
      firstLetterInt engine2 k fuel cbs ec sh i st w.
Proof.
  revert i st w. induction fuel as [| fuel IH]; intros i st w;
    rewrite !chunks_unfold; (destruct (js_lt _ _); [| reflexivity]);
    (apply bind_ext; [reflexivity |]); intros [|] w'; try reflexivity.
  apply bind_ext; [apply chunk_same |]. intros st' w''. apply IH.
Qed.

Lemma shards_same fuel cbs rest ec st w :
  shards clock continueFn E query codebk codebkflat pqdistinf firstLetters
    firstLetterInt engine1 k fuel cbs ec rest st w
  = shards clock continueFn E query codebk codebkflat pqdistinf firstLetters
      firstLetterInt engine2 k fuel cbs ec rest st w.
Proof.
  revert ec st w. induction rest as [| sh rest IH]; intros ec st w; [reflexivity |].
  rewrite !shards_cons. apply bind_ext; [apply chunks_same |].
  intros st' w'. apply IH.
Qed.

(** X5.  What the engine is run on.  At every invocation, inside the scan
    or at the end, the engine's session is given the caller's facet column
    as float32 values, the caller's facet value rounded to float32, the
    constants 0 and 1024 as float32 and the caller's [k] reduced modulo 256
    (a [uint8] tensor), and a distance array; nothing else of the engine
    plays a part in a run.  Two engines that agree on all such feeds give the
    same run: the same outcome, array and events. *)
Theorem X5_engine_is_run_on_tensors fuel embeddings embeddingCounter
    (w : world N TopK) :
  queryToTiledDist clock continueFn E query codebk codebkflat pqdistinf firstLetters
    firstLetterInt engine1 k fuel embeddings embeddingCounter w
  = queryToTiledDist clock continueFn E query codebk codebkflat pqdistinf firstLetters
      firstLetterInt engine2 k fuel embeddings embeddingCounter w.
Proof.
  unfold queryToTiledDist. apply bind_ext.
  - unfold scan. apply bind_ext; [reflexivity |]. intros lastPaint0 w0.
    apply bind_ext; [reflexivity |]. intros g0 w1.
    apply bind_ext; [reflexivity |]. intros v0 w2.
    apply shards_same.
  - intros st w'. rewrite !finish_eq.
    destruct (continueFn (w_polls w')); [| reflexivity].
    cbv zeta. rewrite same_answer. reflexivity.
Qed.

End Engines.

(** * The properties on concrete data *)

Section Concrete.

Import Sample.

Lemma shards2_chunked : chunked env2 codebk shards2.
Proof.
  repeat constructor; [exists 2 | exists 1]; reflexivity.
Qed.

Lemma shards2_partitions : partitions codebk shards2 6.
Proof.
  split.
  - intros idx. split.
    + intros Hidx. destruct (decide (idx < 4)) as [Hlt | Hge].
      * exists 0, (shard_of [1; 2; 3; 4; 5; 6; 7; 8] 0).
        split; [reflexivity |]. unfold covers, items. simpl. lia.
      * exists 1, (shard_of [1; 1; 1; 1] 4).
        split; [reflexivity |]. unfold covers, items. simpl. lia.
    + intros ([| [| n]] & sh & Hn & Hc); simpl in Hn; inversion Hn; subst;
        unfold covers, items in Hc; simpl in Hc; lia.
  - intros [| [| n1]] [| [| n2]] sh1 sh2 idx H1 H2 Hc1 Hc2;
      simpl in H1, H2; inversion H1; inversion H2; subst;
      unfold covers, items in Hc1, Hc2; simpl in Hc1, Hc2; lia.
Qed.

Lemma C1_witness :
  exists w',
    run ticking always env2 3 shards2 0 blank = Ret tt w' /\
    (forall idx, idx < 6 -> exists ec i, writers idx (w_trace w') = [(ec, i)]) /\
    (forall ec i idx v,
        EWrite ec i idx v ∈ w_trace w' ->
        exists shard, shards2 !! ec = Some shard /\
                      offset shard + i <= idx < offset shard + i + 2) /\
    (forall ec i feeds shard idx,
        EKernel ec i feeds ∈ w_trace w' ->
        shards2 !! ec = Some shard ->
        offset shard + i <= idx < offset shard + i + 2 ->
        exists v, EWrite ec i idx v ∈ w_trace w').
Proof.
  eexists. split; [vm_compute; reflexivity |].
  apply (C1_full_coverage_no_overlap ticking always env2 [Int 0; Int 0] codebk
           [Int 1; Int 2] pqdist [] (Int 0) topk 3 100 shards2 6 blank).
  - reflexivity.
  - exact shards2_chunked.
  - exact shards2_partitions.
  - vm_compute. reflexivity.
Defined.

Lemma C2_witness :
  exists flat, flattenCodebook cube = Ok flat /\ length flat = 2 * 2 * 2 /\
               flat !! ((1 * 2 + 0) * 2 + 1) = Some (Int 6).
Proof.
  apply (C2_flatten_round_trip cube 2 2 1 0 1 [[Int 5; Int 6]; [Int 7; Int 8]]
           [Int 5; Int 6] (Int 6)); try reflexivity.
  repeat constructor.
Defined.

Lemma C7_witness :
  flattenCodebook ragged = Ok [Int 1; Int 2; Int 3; NotANumber] /\
  flattenCodebook (cube ++ [[[Int 9; Int 9]]]) = Err TypeError.
Proof.
  split.
  - destruct (C7_flatten_without_shape_check ragged [[Int 1; Int 2]; [Int 3]]
                [Int 1; Int 2] eq_refl eq_refl) as [Hok _].
    apply Hok. repeat constructor.
  - destruct (C7_flatten_without_shape_check (cube ++ [[[Int 9; Int 9]]])
                [[Int 1; Int 2]; [Int 3; Int 4]] [Int 1; Int 2] eq_refl eq_refl)
      as [_ Herr].
    apply Herr; [| discriminate].
    apply Exists_exists. exists [[Int 9; Int 9]]. split; [| simpl; lia].
    apply list_elem_of_lookup. exists 2. reflexivity.
Defined.

(** C7 does not hold as stated: [ragged] is not rectangular for any
    dimensions, and the flattener returns a buffer for it. *)
Lemma C7_counterexample :
  (forall numCentroids subspaceDim, ~ rectangular ragged numCentroids subspaceDim) /\
  flattenCodebook ragged = Ok [Int 1; Int 2; Int 3; NotANumber].
Proof.
  split; [| reflexivity].
  intros nc sd Hrect. unfold rectangular, ragged in Hrect.
  inversion Hrect as [| g l [_ Hg] _]; subst.
  inversion Hg as [| v l' Hv Hg']; subst.
  inversion Hg' as [| v' l'' Hv' _]; subst.
  simpl in Hv'. discriminate Hv'.
Qed.

Lemma C3_witness :
  exists w2,
    run ticking always env2 3 shards2 0 blank = Ret tt w2 /\
    List.filter is_final (w_trace w2)
    = [EFinal [Int 3; Int 7; Int 11; Int 15; Int 2; Int 2]
         "20,-20 ,20,-20 ,20,-20 " [0; 1; 2]].
Proof.
  edestruct (C3_final_combined_event ticking always env2 [Int 0; Int 0] codebk
               [Int 1; Int 2] pqdist [] (Int 0) topk 3 100 shards2 0 blank)
    as (w2 & Hrun & _ & Hfinal).
  - vm_compute. reflexivity.
  - reflexivity.
  - vm_compute. reflexivity.
  - exists w2. split; [exact Hrun | exact Hfinal].
Defined.

Lemma X17_witness :
  exists head later,
    w_trace (world_of (run ticking always env2 3 shards2 0 blank))
    = head ++ [ETopKUpdate [0; 1]; EYield] ++ later /\
    omap footprint head = [(0, 0, None); (0, 0, Some 0); (0, 0, Some 1)] /\
    topk_sites head = [(0, 0, 40%Z)].
Proof.
  destruct (X17_recomputation_at_chunk_0_of_shard_0 ticking always env2 [Int 0; Int 0]
              codebk [Int 1; Int 2] pqdist [] (Int 0) topk 3 100 shards2 0 blank)
    as [_ Hfirst].
  edestruct (Hfirst 99 (shard_of [1; 2; 3; 4; 5; 6; 7; 8] 0) [shard_of [1; 1; 1; 1] 4])
    as [later Hlater]; try reflexivity.
  eexists. exists later. split; [exact Hlater |]. split; reflexivity.
Defined.

(** C4 at a failing input.  Shard 0 is empty, so the first chunk of the
    whole scan is chunk 0 of shard 1.  The guard of line 81 asks for chunk 0
    of shard 0 and the clock has not advanced: the distance update of the
    first chunk is followed at once by the kernel call of the next chunk,
    with no invocation of the engine and no top-k update in between.  The
    only invocation of the engine is the final one, after the second
    chunk. *)
Theorem C4_first_chunk_of_scan_not_recomputed :
  let t := w_trace (world_of (run frozen always env2 3 shards_gap 0 blank)) in
  let nan := NotANumber in
  (exists kernel1 kernel2 final,
      t = [EKernel 1 0 kernel1; EWrite 1 0 0 (Int 3); EWrite 1 0 1 (Int 7);
           EDistanceUpdate [Int 3; Int 7; nan; nan; nan; nan] "0" 0;
           EKernel 1 2 kernel2; EWrite 1 2 2 (Int 11); EWrite 1 2 3 (Int 15);
           EDistanceUpdate [Int 3; Int 7; Int 11; Int 15; nan; nan] "0,0" 0;
           ETopK AtEnd final;
           EFinal [Int 3; Int 7; Int 11; Int 15; nan; nan] "0,0" [0; 1; 2]]) /\
  topk_sites t = [] /\
  List.filter is_update t = [].
Proof. vm_compute. split; [repeat eexists | split; reflexivity]. Qed.

(** C5 at a failing input.  The predicate reports stop at its first poll,
    before chunk 0 of shard 0, and continue afterwards: the scan skips
    shard 0, then processes the chunk of shard 1 and ends with the final
    recomputation and the combined event. *)
Theorem C5_scan_resumes_after_stop :
  let t := w_trace (world_of (run frozen stop_then_continue env2 3 shards2 0 blank)) in
  stop_then_continue 0 = false /\
  omap footprint t = [(1, 0, None); (1, 0, Some 4); (1, 0, Some 5)] /\
  List.filter is_final t
  = [EFinal [NotANumber; NotANumber; NotANumber; NotANumber; Int 2; Int 2] "0" [4; 5]].
Proof. vm_compute. repeat split. Qed.

Lemma ticking_monotone m n : m <= n -> (ticking m <= ticking n)%Z.
Proof. unfold ticking. lia. Qed.

Lemma C6_witness :
  update_sites None (w_trace (world_of (run ticking always env2 3 shards2 0 blank)))
  = [(0, 0, 40%Z); (0, 2, 120%Z); (1, 0, 200%Z)] /\
  ((2 = 0 /\ 0 = 0) \/ (maxTick env2 <= 120 - 40)%Z).
Proof.
  split; [vm_compute; reflexivity |].
  apply (C6_monotone_cadence ticking always env2 [Int 0; Int 0] codebk [Int 1; Int 2]
           pqdist [] (Int 0) topk 3 ticking_monotone 100 shards2 0 blank
           [] 0 0 40%Z 0 2 120%Z [(1, 0, 200%Z)]).
  vm_compute. reflexivity.
Defined.

Lemma C8_witness :
  exists w,
    run_with topk_strict ticking always env2 0 shards2 0 blank
    = Throw (SessionError "invalid k") w /\
    omap footprint (w_trace w) = [(0, 0, None); (0, 0, Some 0); (0, 0, Some 1)] /\
    w_dists w = [Int 3; Int 7; NotANumber; NotANumber; NotANumber; NotANumber].
Proof.
  edestruct (C8_k_first_read_by_the_engine ticking always env2 [Int 0; Int 0] codebk
               [Int 1; Int 2] pqdist [] (Int 0) topk_strict 0 99
               (shard_of [1; 2; 3; 4; 5; 6; 7; 8] 0) [shard_of [1; 1; 1; 1] 4] blank)
    as (_ & _ & Hthrow); try reflexivity.
  eexists. split; [apply (Hthrow (SessionError "invalid k")); reflexivity |].
  split; reflexivity.
Defined.

(** C8 does not hold as stated, for [k = 0]: with an engine that accepts
    [k = 0] the run completes without any error; with one that refuses it,
    the error comes after the first kernel call and two stores into the
    distance array. *)
Lemma C8_counterexample :
  (exists w, run ticking always env2 0 shards2 0 blank = Ret tt w) /\
  (exists w,
      run_with topk_strict ticking always env2 0 shards2 0 blank
      = Throw (SessionError "invalid k") w /\
      omap footprint (w_trace w) = [(0, 0, None); (0, 0, Some 0); (0, 0, Some 1)] /\
      w_dists w = [Int 3; Int 7; NotANumber; NotANumber; NotANumber; NotANumber]).
Proof.
  split; eexists; [vm_compute; reflexivity |].
  split; [vm_compute; reflexivity |]. split; reflexivity.
Qed.

Lemma C9_witness :
  run ticking always env2 3 [] 0 blank
  = Ret tt {| w_now := 1; w_polls := 1; w_dists := blank;
              w_trace := [ETopK AtEnd (topk_feeds blank [] (Int 0) (Int 0) (Int 1024) 3);
                          EFinal blank "" []] |}.
Proof.
  destruct (C9_empty_shard_list ticking always env2 [Int 0; Int 0] codebk [Int 1; Int 2]
              pqdist [] (Int 0) topk 3 100 0 blank) as [_ Hrun].
  apply (Hrun [[Int 1]] [Int 1] []); reflexivity.
Defined.

Lemma C10_witness :
  let feeds := topk_feeds blank [] (Int 0) (Int 0) (Int 1024) 3 in
  ETopK AtEnd feeds ∈ w_trace (world_of (run ticking always env2 3 [] 0 blank)) /\
  tk_filterZero feeds = Int 0 /\ tk_filterShim feeds = Int 1024.
Proof.
  intros feeds.
  assert (Hin : ETopK AtEnd feeds
                ∈ w_trace (world_of (run ticking always env2 3 [] 0 blank))).
  { apply list_elem_of_lookup. exists 0. reflexivity. }
  split; [exact Hin |].
  exact (C10_fixed_filter_constants ticking always env2 [Int 0; Int 0] codebk
           [Int 1; Int 2] pqdist [] (Int 0) topk 3 100 [] 0 blank AtEnd feeds Hin).
Defined.

(** ** The further properties at concrete inputs *)

Lemma X2_witness :
  length [Int 1; Int 2; Int 3; NotANumber] = 1 * 2 * 2 /\
  forall i, i < 4 ->
            [Int 1; Int 2; Int 3; NotANumber] !! i = Some (flat_value ragged 2 2 i).
Proof.
  exact (X2_flatten_cells ragged [[Int 1; Int 2]; [Int 3]] [Int 1; Int 2]
           [Int 1; Int 2; Int 3; NotANumber] eq_refl eq_refl eq_refl).
Defined.

Lemma X3_witness :
  cube = map (map (map Int)) [[[1; 2]; [3; 4]]; [[5; 6]; [7; 8]]]%Z.
Proof.
  apply (X3_flatten_injective cube
           (map (map (map Int)) [[[1; 2]; [3; 4]]; [[5; 6]; [7; 8]]]%Z) 2 2
           [Int 1; Int 2; Int 3; Int 4; Int 5; Int 6; Int 7; Int 8]);
    try reflexivity; repeat constructor.
Defined.

Lemma X4_witness :
  let tile := window env2 codebk (shard_of [1; 2; 3; 4; 5; 6; 7; 8] 0) 2 in
  let feeds := pq_feeds [Int 0; Int 0] [Int 1; Int 2] [2; 1; 1] tile [2; 2] in
  EKernel 0 2 feeds ∈ w_trace (world_of (queryToTiledDist ticking always env2 [Int 0; Int 0] codebk
                           [Int 1; Int 2] pqdist [] (Int 0) topk 3 100 shards2 0
                           (init_world blank))) /\
  u8_bytes tile = bytes [5; 6; 7; 8].
Proof.
  intros tile feeds.
  assert (Hin : EKernel 0 2 feeds
                ∈ w_trace (world_of (queryToTiledDist ticking always env2 [Int 0; Int 0] codebk
                           [Int 1; Int 2] pqdist [] (Int 0) topk 3 100 shards2 0
                           (init_world blank)))).
  { apply (list_elem_of_lookup_2 _ 7). vm_compute. reflexivity. }
  split; [exact Hin |].
  destruct (X4_kernel_tiles ticking always env2 [Int 0; Int 0] codebk [Int 1; Int 2]
              pqdist [] (Int 0) topk 3 100 shards2 0 blank [[Int 1]] [Int 1] 0 2 feeds
              eq_refl eq_refl Hin)
    as (sh & c & _ & Hsh & _ & _ & _ & _ & Hbytes).
  simpl in Hsh. inversion Hsh; subst sh. unfold tile. rewrite Hbytes; [reflexivity |].
  simpl. lia.
Defined.

Lemma X5_witness :
  topk (topk_feeds blank [] (Int 0) (Int 0) (Int 1024) 259)
  <> topk_byte (topk_feeds blank [] (Int 0) (Int 0) (Int 1024) 259) /\
  queryToTiledDist ticking always env2 [Int 0; Int 0] codebk [Int 1; Int 2] pqdist
    [] (Int 0) topk 259 100 shards2 0 (init_world blank)
  = queryToTiledDist ticking always env2 [Int 0; Int 0] codebk [Int 1; Int 2] pqdist
      [] (Int 0) topk_byte 259 100 shards2 0 (init_world blank).
Proof.
  split; [discriminate |].
  apply (X5_engine_is_run_on_tensors ticking always env2 [Int 0; Int 0] codebk
           [Int 1; Int 2] pqdist [] (Int 0) topk topk_byte 259).
  intros input. reflexivity.
Defined.

Lemma X6_witness :
  let t := w_trace (world_of (queryToTiledDist frozen always env2 [Int 0; Int 0] codebk
                         [Int 1; Int 2] pqdist [] (Int 0) topk 3 100 shards2 1
                         (init_world blank))) in
  let shown := [NotANumber; NotANumber; NotANumber; NotANumber; Int 2; Int 2] in
  t !! 3 = Some (EDistanceUpdate shown "0" 0) /\
  shown = replay (take 3 t) blank.
Proof.
  intros t shown. split; [vm_compute; reflexivity |].
  apply (X6_snapshots_are_current frozen always env2 [Int 0; Int 0] codebk
           [Int 1; Int 2] pqdist [] (Int 0) topk 3 100 shards2 1 blank
           (take 3 t) (EDistanceUpdate shown "0" 0) (drop 4 t) shown);
    vm_compute; reflexivity.
Defined.

Lemma X7_witness :
  exists w',
    run ticking always env2 3 shards2 0 blank = Ret tt w' /\
    exists ec shard c j distTile,
      shards2 !! ec = Some shard /\ j < 2 /\
      5 = offset shard + c * 2 + j /\
      queryDist pqdist [Int 0; Int 0] [Int 1; Int 2] [2; 1; 1]
        (window env2 codebk shard (c * 2)) [2; 2] = Ok distTile /\
      w_dists w' !! 5 = Some (toFloat32 (distTile !! j)).
Proof.
  eexists. split; [vm_compute; reflexivity |].
  apply (X7_final_distances ticking always env2 [Int 0; Int 0] codebk [Int 1; Int 2]
           pqdist [] (Int 0) topk 3 100 shards2 6 blank _ [[Int 1]] [Int 1] 5).
  - reflexivity.
  - exact shards2_chunked.
  - exact shards2_partitions.
  - vm_compute. reflexivity.
  - reflexivity.
  - reflexivity.
  - lia.
  - simpl. lia.
Defined.

Lemma X9_witness :
  exists w',
    run ticking never env2 3 shards2 0 blank = Ret tt w' /\
    w_trace w' = [] /\ w_dists w' = blank.
Proof.
  apply (X9_cancelled_from_the_start ticking never env2 [Int 0; Int 0] codebk
           [Int 1; Int 2] pqdist [] (Int 0) topk 3 100 shards2 0 blank
           [[Int 1]] [Int 1]); reflexivity.
Defined.

Lemma X11_witness :
  exists w',
    queryToTiledDist ticking always env2 [Int 0; Int 0] codebk [Int 1; Int 2]
      pqdist_any [] (Int 0) topk 3 100 shards_odd 0 (init_world blank)
    = Throw RangeError w'.
Proof.
  apply (X11_partial_last_chunk ticking always env2 [Int 0; Int 0] codebk
           [Int 1; Int 2] pqdist_any [] (Int 0) topk 3 100 shards_odd 0 blank
           [[Int 1]] [Int 1] 1 (shard_of [1; 2; 3; 4; 5; 6] 2) 1 1).
  - reflexivity.
  - intros feeds. eexists. reflexivity.
  - intros feeds. eexists. reflexivity.
  - reflexivity.
  - reflexivity.
  - reflexivity.
  - lia.
  - reflexivity.
  - constructor; [exists 1; reflexivity | constructor].
  - constructor; [simpl; lia | constructor].
  - constructor; [unfold items; simpl; lia | constructor].
  - reflexivity.
  - simpl. lia.
  - simpl. lia.
  - simpl. lia.
  - lia.
Defined.

Lemma X12_witness :
  (exists w,
      run_with topk_strict ticking always env2 0 shards2 0 blank
      = Throw (SessionError "invalid k") w /\
      thrown_by codebk pqdist topk_strict (SessionError "invalid k") w) /\
  (exists w,
      queryToTiledDist ticking always env2 [Int 0; Int 0] codebk
        [Int 1; Int 2; Int 3] pqdist [] (Int 0) topk 3 100 shards2 0
        (init_world blank)
      = Throw TensorSizeError w /\
      thrown_by codebk pqdist topk TensorSizeError w).
Proof.
  split.
  - eexists. split; [vm_compute; reflexivity |].
    apply (X12_exceptions_come_from_callees ticking always env2 [Int 0; Int 0] codebk
             [Int 1; Int 2] pqdist [] (Int 0) topk_strict 0 100 shards2 0 blank).
    vm_compute. reflexivity.
  - eexists. split; [vm_compute; reflexivity |].
    apply (X12_exceptions_come_from_callees ticking always env2 [Int 0; Int 0] codebk
             [Int 1; Int 2; Int 3] pqdist [] (Int 0) topk 3 100 shards2 0 blank).
    vm_compute. reflexivity.
Defined.

Lemma X13_witness :
  exists w',
    run frozen always env2 3 shards2 1 blank = Ret tt w' /\
    exists bs tail,
      w_trace w' = concat bs ++ tail /\
      Forall (chunk_block env2) bs /\
      (tail = [] \/
       exists feeds distTime topk,
         tk_input feeds = w_dists w' /\
         tail = [ETopK AtEnd feeds; EFinal (w_dists w') distTime topk]).
Proof.
  eexists. split; [vm_compute; reflexivity |].
  apply (X13_emission_protocol frozen always env2 [Int 0; Int 0] codebk
           [Int 1; Int 2] pqdist [] (Int 0) topk 3 100 shards2 1 blank).
  vm_compute. reflexivity.
Defined.

Lemma X14_witness :
  exists w',
    run ticking always env2 3 shards2 2 blank = Ret tt w' /\
    w_dists w' = blank /\
    w_trace w' = [ETopK AtEnd (topk_feeds blank [] (Int 0) (Int 0) (Int 1024) 3);
                  EFinal blank "" []].
Proof.
  exact (X14_start_past_the_end ticking always env2 [Int 0; Int 0] codebk
           [Int 1; Int 2] pqdist [] (Int 0) topk 3 100 shards2 2 blank
           [[Int 1]] [Int 1] [] (le_n 2) eq_refl eq_refl eq_refl eq_refl).
Defined.

Lemma X15_witness :
  exists w',
    queryToTiledDist ticking stop_then_continue env2 [Int 0; Int 0] codebk
      [Int 1; Int 2] pqdist_any [] (Int 0) topk 3 100 shards2 0 (init_world blank)
    = Ret tt w'.
Proof.
  apply (X15_well_formed_runs_return ticking stop_then_continue env2 [Int 0; Int 0]
           codebk [Int 1; Int 2] pqdist_any [] (Int 0) topk 3 100 shards2 0 blank
           [[Int 1]] [Int 1]).
  - intros feeds. eexists. reflexivity.
  - intros feeds. eexists. reflexivity.
  - reflexivity.
  - reflexivity.
  - reflexivity.
  - exact shards2_chunked.
  - repeat (constructor; [simpl; lia |]). constructor.
  - repeat (constructor; [unfold items; simpl; lia |]). constructor.
Defined.

Lemma X16_witness :
  exists w',
    run frozen stop_then_continue env2 3 shards2 0 blank = Ret tt w' /\
    guarded (w_trace w') = continues stop_then_continue (w_polls w') /\
    continues stop_then_continue (w_polls w') = 2.
Proof.
  eexists. split; [vm_compute; reflexivity |]. split; [| reflexivity].
  apply (X16_every_continue_is_used frozen stop_then_continue env2 [Int 0; Int 0]
           codebk [Int 1; Int 2] pqdist [] (Int 0) topk 3 100 shards2 0 blank).
  vm_compute. reflexivity.
Defined.

End Concrete.
